(** * argv: the command-line argument parser of cmdkit

    A shallow embedding of [argv.Parse] and [argv.parseArgs] (package
    [argv]) together with the functions of Go's [strings] package they call,
    followed by the properties of the parser.

    Go strings are byte sequences: they are modelled by [string], whose
    characters are the 256 byte values.  A Go [map[string][]string] is a
    [gmap string (list string)] under an [option], [None] being the nil map.
    A run of [parseArgs] ends by returning a node with a nil error, by
    returning a node with an error, or by a run-time panic (an index out of
    range); the recursion is bounded by a fuel argument. *)

From Stdlib Require Import String Ascii List Arith Bool Lia.
From stdpp Require Import base option list strings gmap.

Local Open Scope string_scope.
Local Open Scope list_scope.
Local Open Scope nat_scope.

Set Warnings "-register-all".

(** ** The functions of package [strings] used by the parser *)

Module strings.

(** [len(s)] *)
Definition len (s : string) : nat := String.length s.

(** [s[n:]] and [s[:n]] for [n <= len(s)]. *)
Fixpoint from (n : nat) (s : string) : string :=
  match n, s with
  | S n', String _ r => from n' r
  | _, _ => s
  end.

Fixpoint upto (n : nat) (s : string) : string :=
  match n, s with
  | S n', String a r => String a (upto n' r)
  | _, _ => ""
  end.

(** [strings.HasPrefix(s, prefix)] *)
Fixpoint HasPrefix (s prefix : string) {struct prefix} : bool :=
  match prefix, s with
  | "", _ => true
  | String a p, String b r => Ascii.eqb a b && HasPrefix r p
  | String _ _, "" => false
  end.

(** [strings.HasSuffix(s, suffix)]:
    [len(s) >= len(suffix) && s[len(s)-len(suffix):] == suffix]. *)
Definition HasSuffix (s suffix : string) : bool :=
  (len suffix <=? len s) && String.eqb (from (len s - len suffix) s) suffix.

(** [strings.TrimPrefix(s, prefix)] and [strings.TrimSuffix(s, suffix)]
    remove one occurrence. *)
Definition TrimPrefix (s prefix : string) : string :=
  if HasPrefix s prefix then from (len prefix) s else s.

Definition TrimSuffix (s suffix : string) : string :=
  if HasSuffix s suffix then upto (len s - len suffix) s else s.

(** Membership of a byte in a cutset of ASCII characters. *)
Fixpoint inCutset (c : ascii) (cutset : string) : bool :=
  match cutset with
  | "" => false
  | String a r => Ascii.eqb c a || inCutset c r
  end.

(** [strings.TrimLeft(s, cutset)] and [strings.TrimRight(s, cutset)], for
    a cutset of ASCII characters (the parser uses "-", "[" and "]"):
    every leading, respectively trailing, byte of the cutset is removed. *)
Fixpoint TrimLeft (s cutset : string) : string :=
  match s with
  | "" => ""
  | String a r => if inCutset a cutset then TrimLeft r cutset else s
  end.

Fixpoint TrimRight (s cutset : string) : string :=
  match s with
  | "" => ""
  | String a r =>
      match TrimRight r cutset with
      | "" => if inCutset a cutset then "" else String a ""
      | r' => String a r'
      end
  end.

(** [strings.Index(s, substr)] for a one-byte [substr]: the position of
    its first occurrence, [None] standing for -1. *)
Fixpoint Index (s : string) (c : ascii) : option nat :=
  match s with
  | "" => None
  | String a r => if Ascii.eqb a c then Some 0 else S <$> Index r c
  end.

(** [strings.Split(s, sep)] for a one-byte separator: the pieces between
    the occurrences of [sep]; the result always has one piece more than
    there are separators, so it is never empty. *)
Fixpoint Split (s : string) (sep : ascii) : list string :=
  match s with
  | "" => [""]
  | String a r =>
      if Ascii.eqb a sep then "" :: Split r sep
      else match Split r sep with
           | piece :: rest => String a piece :: rest
           | [] => [String a ""]
           end
  end.

(** [strings.Join(elems, sep)] *)
Fixpoint Join (elems : list string) (sep : string) : string :=
  match elems with
  | [] => ""
  | [e] => e
  | e :: rest => e +:+ sep +:+ Join rest sep
  end.

(** The UTF-8 encodings of the runes for which [unicode.IsSpace] holds:
    U+0009..U+000D, U+0020, U+0085, U+00A0, U+1680, U+2000..U+200A,
    U+2028, U+2029, U+202F, U+205F and U+3000. *)
Definition b1 (a : ascii) : string := String a "".
Definition b2 (a b : ascii) : string := String a (String b "").
Definition b3 (a b c : ascii) : string := String a (String b (String c "")).

Definition spaceRunes : list string :=
  [ b1 "009"; b1 "010"; b1 "011"; b1 "012"; b1 "013"; b1 " ";
    b2 "194" "133"; b2 "194" "160";
    b3 "225" "154" "128";
    b3 "226" "128" "128"; b3 "226" "128" "129"; b3 "226" "128" "130";
    b3 "226" "128" "131"; b3 "226" "128" "132"; b3 "226" "128" "133";
    b3 "226" "128" "134"; b3 "226" "128" "135"; b3 "226" "128" "136";
    b3 "226" "128" "137"; b3 "226" "128" "138";
    b3 "226" "128" "168"; b3 "226" "128" "169"; b3 "226" "128" "175";
    b3 "226" "129" "159";
    b3 "227" "128" "128" ]%char.

(** [strings.TrimLeftFunc(s, unicode.IsSpace)]: decode a rune at the
    front; while it is a space, drop its bytes.  A byte sequence decodes
    to a space rune exactly when it starts with one of [spaceRunes] (an
    invalid sequence decodes to U+FFFD, which is no space).  The argument
    [n] bounds the number of runes, [len(s)] is enough. *)
Fixpoint trimLeftSpace (n : nat) (s : string) : string :=
  match n with
  | 0 => s
  | S n' =>
      match List.find (HasPrefix s) spaceRunes with
      | Some r => trimLeftSpace n' (from (len r) s)
      | None => s
      end
  end.

(** [strings.TrimRightFunc(s, unicode.IsSpace)]: the same from the back;
    the last rune is a space exactly when [s] ends with one of
    [spaceRunes]. *)
Fixpoint trimRightSpace (n : nat) (s : string) : string :=
  match n with
  | 0 => s
  | S n' =>
      match List.find (HasSuffix s) spaceRunes with
      | Some r => trimRightSpace n' (upto (len s - len r) s)
      | None => s
      end
  end.

(** [strings.TrimSpace(s)] *)
Definition TrimSpace (s : string) : string :=
  let s := trimLeftSpace (len s) s in
  trimRightSpace (len s) s.

End strings.

Import strings.

(** ** The parsed node *)

(** [type Argv struct { Name string; Sub *Argv; Text string;
    Pairs map[string][]string }] *)
Inductive Argv : Type := mkArgv {
  Name : string;
  Sub : option Argv;
  Text : string;
  Pairs : option (gmap string (list string))
}.

(** [Argv{}], the zero value: every field empty, [Pairs] the nil map. *)
Definition zeroArgv : Argv := mkArgv "" None "" None.

Definition withName (a : Argv) (n : string) : Argv :=
  mkArgv n (Sub a) (Text a) (Pairs a).
Definition withText (a : Argv) (t : string) : Argv :=
  mkArgv (Name a) (Sub a) t (Pairs a).
Definition withSub (a : Argv) (s : Argv) : Argv :=
  mkArgv (Name a) (Some s) (Text a) (Pairs a).
Definition withPairs (a : Argv) (m : gmap string (list string)) : Argv :=
  mkArgv (Name a) (Sub a) (Text a) (Some m).

(** [len(a.Pairs)]; the length of a nil map is 0. *)
Definition lenPairs (a : Argv) : nat :=
  match Pairs a with
  | Some m => size m
  | None => 0
  end.

(** [a.Pairs[k]] read: a missing key and a nil map both give no entry. *)
Definition getPair (a : Argv) (k : string) : option (list string) :=
  match Pairs a with
  | Some m => m !! k
  | None => None
  end.

(** [HasKV] *)
Definition HasKV (a : Argv) (n : string) : bool :=
  bool_decide (is_Some (getPair a n)).

(** [IsArg] *)
Definition IsArg (a : Argv) : bool := negb (lenPairs a =? 0).

(** The errors of the parser, named as in the specification:
    [EmptyInput] is [errors.New("no argument provided")], [MisplacedFlags]
    is [errors.New("flags must come after command name")] and
    [MissingFlagValue opt] is
    [fmt.Errorf("flag %q has no provided value", opt)]. *)
Inductive error : Type :=
| EmptyInput
| MisplacedFlags
| MissingFlagValue (opt : string).

(** How a call ends: [(a, nil)], [(a, err)], a run-time panic, or the
    fuel of the model ran out. *)
Inductive outcome : Type :=
| Ok (a : Argv)
| Fail (a : Argv) (e : error)
| Panic
| Diverge.

(** ** Token classification *)

(** [isFlag]: a token such as "-v" or "--user", but not "-" or "--". *)
Definition isFlag (s : string) : bool :=
  HasPrefix s "-" && negb (String.eqb (TrimLeft s "-") "").

Definition isIgnored (s : string) : bool :=
  String.eqb s "" || String.eqb s "-" || String.eqb s "--".

Definition isList (s : string) : bool := HasPrefix s "[".

Definition isListEnd (s : string) : bool := HasSuffix s "]".

(** ** The body of the loop of [parseArgs] *)

(** What one iteration does: go on to the next iteration ([continue], or
    the end of the body) with the cursor, the node and [withCommand] as
    they stand, or leave [parseArgs]. *)
Inductive ctl : Type :=
| Continue (i : nat) (argd : Argv) (withCommand : bool)
| Done (o : outcome).

(** The scan [for i+1 < len(args) && !isFlag(args[i+1]) &&
    !isListEnd(args[i+1]) { list = append(list, TrimSpace(args[i+1])); i++ }];
    [rest] is [args[i+1:]] and [lst] is the slice [list]. *)
Fixpoint scanList (rest : list string) (lst : list string) (i : nat)
  : list string * nat :=
  match rest with
  | [] => (lst, i)
  | next :: rest' =>
      if negb (isFlag next) && negb (isListEnd next)
      then scanList rest' (lst ++ [TrimSpace next]) (S i)
      else (lst, i)
  end.

(** The value sequence of a flag and the cursor after it (the [if
    isList(value) ... else if value != "" ...] statement).  [None] is the
    panic of [args[i+1]] read past the end of [args]. *)
Definition flagValues (args : list string) (i : nat) (value : string)
  : option (list string * nat) :=
  if isList value then
    if isListEnd value then
      let items := TrimSpace value in
      let items := TrimLeft items "[" in
      let items := TrimRight items "]" in
      Some (Split items ",", i)
    else
      let before := TrimSpace (TrimLeft value "[") in
      let lst := if String.eqb before "" then [] else [before] in
      let '(lst, i) := scanList (drop (S i) args) lst i in
      match args !! S i with
      | None => None
      | Some next =>
          let '(lst, i) :=
            if isListEnd next
            then (lst ++ [TrimSpace (TrimSuffix next "]")], S i)
            else (lst, i) in
          let items := Join lst " " in
          let items := TrimSpace items in
          let items := TrimPrefix items "[" in
          let items := TrimSuffix items "]" in
          Some (Split items " ", i)
      end
  else if negb (String.eqb value "") then Some ([value], i)
  else Some ([], i).

(** [argd.Pairs[k] = vs]; an assignment to an entry of a nil map panics. *)
Definition setPair (argd : Argv) (k : string) (vs : list string) (i : nat)
    (withCommand : bool) : ctl :=
  match Pairs argd with
  | Some m => Continue i (withPairs argd (<[k := vs]> m)) withCommand
  | None => Done Panic
  end.

(** The branch into a sub-command, written twice in [parseArgs] (for a
    non-flag token after the command name, and at the end of the body):
    [rem := args[from:]]; a single non-flag token is the [Text] of a leaf;
    otherwise [rem] is parsed into [Sub], and [Text] is
    [strings.Join(args[i:], " ")]. *)
Definition branch (rec : list string -> outcome) (args : list string)
    (from i : nat) (argd : Argv) : outcome :=
  let rem := drop from args in
  match rem with
  | [tok] =>
      if negb (isFlag tok) then Ok (withText argd tok)
      else match rec rem with
           | Ok sub => Ok (withText (withSub argd sub) (Join (drop i args) " "))
           | Fail _ err => Fail argd err
           | Panic => Panic
           | Diverge => Diverge
           end
  | _ =>
      match rec rem with
      | Ok sub => Ok (withText (withSub argd sub) (Join (drop i args) " "))
      | Fail _ err => Fail argd err
      | Panic => Panic
      | Diverge => Diverge
      end
  end.

(** [opt], [hasEq], [key] and [value] of a flag token. *)
Definition flagOpt (arg : string) : string := TrimLeft arg "-".

Definition flagParts (opt : string) : bool * string * string :=
  match Index opt "=" with
  | Some pos => (true, TrimSpace (upto pos opt), TrimSpace (from (pos + 1) opt))
  | None => (false, "", "")
  end.

Definition body (rec : list string -> outcome) (args : list string)
    (i : nat) (argd : Argv) (withCommand : bool) : ctl :=
  match args !! i with
  | None => Done Panic
  | Some arg =>
      if isIgnored arg then Continue i argd withCommand
      else if negb (isFlag arg) && negb withCommand then
        if negb (lenPairs argd =? 0) then Done (Fail argd MisplacedFlags)
        else Continue i (withName argd arg) true
      else if negb (isFlag arg) && withCommand then
        Done (branch rec args i i argd)
      else
        let opt := flagOpt arg in
        let '(hasEq, key, value) := flagParts opt in
        let lastIndex := i in
        match flagValues args i value with
        | None => Done Panic
        | Some (values, i) =>
            if negb (String.eqb key "") && hasEq && (length values =? 0)
            then Done (Fail argd (MissingFlagValue opt))
            else if negb (String.eqb key "") && hasEq
            then setPair argd key values i withCommand
            else if negb (String.eqb opt "") && String.eqb key "" && negb hasEq
            then setPair argd opt ["true"]
                   (if negb (lastIndex =? i) then lastIndex else i) withCommand
            else if String.eqb key "" && negb hasEq
            then Done (branch rec args lastIndex i argd)
            else Continue i argd withCommand
        end
  end.

(** The loop [for i := 0; i < len(args); i++ { body }]; [n] bounds the
    number of iterations. *)
Fixpoint loop (rec : list string -> outcome) (args : list string) (n : nat)
    (i : nat) (argd : Argv) (withCommand : bool) : outcome :=
  match n with
  | 0 => Diverge
  | S n' =>
      if length args <=? i then Ok argd
      else match body rec args i argd withCommand with
           | Continue i' argd' withCommand' =>
               loop rec args n' (S i') argd' withCommand'
           | Done o => o
           end
  end.

(** [parseArgs]; [fuel] bounds the depth of the recursion. *)
Fixpoint parseArgs (fuel : nat) (args : list string) : outcome :=
  match fuel with
  | 0 => Diverge
  | S fuel' =>
      let argd := withPairs zeroArgv ∅ in
      loop (parseArgs fuel') args (S (length args)) 0 argd false
  end.

(** [Parse] *)
Definition Parse (args : string) : outcome :=
  if len args =? 0 then Fail zeroArgv EmptyInput
  else
    let tokens := Split args " " in
    parseArgs (S (length tokens)) tokens.

(** ** The iterations of one call *)

(** The node [parseArgs] starts from: [var argd Argv] with
    [argd.Pairs = map[string][]string{}]. *)
Definition startArgv : Argv := withPairs zeroArgv ∅.

(** [reaches rec args i argd w]: the loop of [parseArgs(args)] arrives at
    the head of an iteration with cursor [i], node [argd] and
    [withCommand = w]. *)
Inductive reaches (rec : list string -> outcome) (args : list string)
  : nat -> Argv -> bool -> Prop :=
| reaches_start : reaches rec args 0 startArgv false
| reaches_next i argd w i' argd' w' :
    reaches rec args i argd w ->
    i < length args ->
    body rec args i argd w = Continue i' argd' w' ->
    reaches rec args (S i') argd' w'.

(** Every node of a tree satisfies [P]. *)
Fixpoint allNodes (P : Argv -> Prop) (a : Argv) : Prop :=
  P a /\ match Sub a with
         | Some s => allNodes P s
         | None => True
         end.

(** A run of [n] dashes; a flag token without a key is [dashes (S n)], an
    [=] and any text. *)
Fixpoint dashes (n : nat) : string :=
  match n with
  | 0 => ""
  | S n' => String "-" (dashes n')
  end.

(** ** The callers of the parser: flags and the command context *)

(** [New]: [&Argv{Name: name}]; its [Pairs] is the nil map. *)
Definition New (name : string) : Argv := mkArgv name None "" None.

Section Context.

(** A value of type [interface{}] is [None] for nil and [Some v] otherwise;
    a value of type [error] likewise, over [E].  [Getenv] is
    [os.Getenv]. *)
Variable V : Type.
Variable E : Type.
Variable Getenv : string -> string.

(** [type Flag struct]; a field of function type is [None] when nil.  A
    function returns its pair of results. *)
Record Flag : Type := mkFlag {
  FName : string;
  FAlias : string;
  FEnv : string;
  FDesc : string;
  FDefault : option V;
  FMorph : option (option V -> option V * option E);
  FParser : option (string -> list string -> option V * option E);
  FValidation : option (string -> list string -> option E)
}.

(** [(s *Flag) Parse(m, rest...)]; [None] is the panic of the call of a nil
    [Parser]. *)
Definition Flag_Parse (s : Flag) (m : string) (rest : list string)
  : option (option V * option E) :=
  let parse :=
    match FParser s with
    | None => None
    | Some parser =>
        match parser m rest with
        | (_, Some err) => Some (None, Some err)
        | (value, None) =>
            match FMorph s with
            | None => Some (value, None)
            | Some morph => Some (morph value)
            end
        end
    end in
  match FValidation s with
  | Some validation =>
      match validation m rest with
      | Some err => Some (None, Some err)
      | None => parse
      end
  | None => parse
  end.

(** [type ctxImpl struct], the fields that [process], [Get] and [IsSet]
    read or write: [flags map[string]struct{}], [pairs
    map[string]interface{}] and [parent]; a nil map, and a nil parent, is
    [None]. *)
Inductive ctxImpl : Type := mkCtx {
  c_flags : option (gset string);
  c_pairs : option (gmap string (option V));
  c_parent : option ctxImpl
}.

(** [var c ctxImpl]: the zero value. *)
Definition zeroCtx : ctxImpl := mkCtx None None None.

(** [c.pairs[key]] read with the comma-ok form. *)
Definition pairAt (c : ctxImpl) (key : string) : option (option V) :=
  match c_pairs c with
  | Some m => m !! key
  | None => None
  end.

(** [(c *ctxImpl) Get(key)]: the value and whether it was found, here or in
    a parent. *)
Fixpoint Get (c : ctxImpl) (key : string) : option V * bool :=
  match pairAt c key with
  | Some item => (item, true)
  | None =>
      match c_parent c with
      | None => (None, false)
      | Some parent => Get parent key
      end
  end.

(** [(c *ctxImpl) IsSet(key)] *)
Definition IsSet (c : ctxImpl) (key : string) : bool :=
  match pairAt c key with
  | Some _ => true
  | None => false
  end.

(** How [process] ends: it returns (the context as it has been changed so
    far, and the error), or it panics. *)
Inductive pres : Type :=
| PReturn (c : ctxImpl) (err : option E)
| PPanic.

(** [c.flags[k] = struct{}{}] and [c.pairs[k] = v]; an assignment to an
    entry of a nil map panics ([None]). *)
Definition setFlag (c : ctxImpl) (k : string) : option ctxImpl :=
  match c_flags c with
  | Some fs => Some (mkCtx (Some ({[k]} ∪ fs)) (c_pairs c) (c_parent c))
  | None => None
  end.

Definition setValue (c : ctxImpl) (k : string) (v : option V) : option ctxImpl :=
  match c_pairs c with
  | Some m => Some (mkCtx (c_flags c) (Some (<[k := v]> m)) (c_parent c))
  | None => None
  end.

(** [c.pairs[flag.FlagName()] = value; c.pairs[flag.FlagAlias()] = value] *)
Definition setBoth (c : ctxImpl) (flag : Flag) (v : option V) : option ctxImpl :=
  match setValue c (FName flag) v with
  | Some c' => setValue c' (FAlias flag) v
  | None => None
  end.

(** What follows a call of [flag.Parse] in [process]: [if err != nil
    { return err }], then the two assignments and [continue]. *)
Definition storeParsed (c : ctxImpl) (flag : Flag)
    (r : option (option V * option E)) : ctxImpl + pres :=
  match r with
  | None => inr PPanic
  | Some (_, Some err) => inr (PReturn c (Some err))
  | Some (value, None) =>
      match setBoth c flag value with
      | Some c' => inl c'
      | None => inr PPanic
      end
  end.

(** One iteration of the loop of [process]: go on with the context
    ([inl]), or leave the function ([inr]). *)
Definition processFlag (arg : Argv) (c : ctxImpl) (flag : Flag)
  : ctxImpl + pres :=
  match setFlag c (FName flag) with
  | None => inr PPanic
  | Some c =>
  match setFlag c (FAlias flag) with
  | None => inr PPanic
  | Some c =>
      match getPair arg (FName flag) with
      | Some flagValue =>
          match flagValue with
          | [] => inr PPanic
          | first :: others => storeParsed c flag (Flag_Parse flag first others)
          end
      | None =>
          if negb (String.eqb (FEnv flag) "") then
            storeParsed c flag (Flag_Parse flag (Getenv (FEnv flag)) [])
          else
            match FDefault flag with
            | Some d =>
                match setBoth c flag (Some d) with
                | Some c' => inl c'
                | None => inr PPanic
                end
            | None => inl c
            end
      end
  end
  end.

Fixpoint processFlags (arg : Argv) (c : ctxImpl) (flags : list Flag) : pres :=
  match flags with
  | [] => PReturn c None
  | flag :: flags' =>
      match processFlag arg c flag with
      | inl c' => processFlags arg c' flags'
      | inr r => r
      end
  end.

(** [(c *ctxImpl) process(arg, flags)] *)
Definition process (c : ctxImpl) (arg : Argv) (flags : list Flag) : pres :=
  let c :=
    match c_pairs c with
    | None => mkCtx (Some ∅) (Some ∅) (c_parent c)
    | Some _ => c
    end in
  processFlags arg c flags.

(** The context and its parents, from the nearest on. *)
Fixpoint ancestors (c : ctxImpl) : list ctxImpl :=
  c :: match c_parent c with
       | Some parent => ancestors parent
       | None => []
       end.

End Context.

Arguments mkFlag {V E}.
Arguments FName {V E}.
Arguments FAlias {V E}.
Arguments FEnv {V E}.
Arguments FDesc {V E}.
Arguments FDefault {V E}.
Arguments FMorph {V E}.
Arguments FParser {V E}.
Arguments FValidation {V E}.
Arguments Flag_Parse {V E}.
Arguments mkCtx {V}.
Arguments c_flags {V}.
Arguments c_pairs {V}.
Arguments c_parent {V}.
Arguments zeroCtx {V}.
Arguments pairAt {V}.
Arguments Get {V}.
Arguments IsSet {V}.
Arguments PReturn {V E}.
Arguments PPanic {V E}.
Arguments setFlag {V}.
Arguments setValue {V}.
Arguments setBoth {V E}.
Arguments storeParsed {V E}.
Arguments processFlag {V E}.
Arguments processFlags {V E}.
Arguments process {V E}.
Arguments ancestors {V}.

(** ** The flag constructors *)

(** The values of type [interface{}] that the flags below handle, by
    their dynamic type: a [string], a [[]string], a [bool], or a value of
    another type.  An error is its message. *)
Inductive dyn : Type :=
| DString (s : string)
| DStrings (l : list string)
| DBool (b : bool)
| DOther.

(** [type FlagOption], a function on a pointer to a [Flag]: the flag
    after the option has been applied to it. *)
Definition FlagOption : Type := Flag dyn string -> Flag dyn string.

(** [FlagName], [FlagAlias], [Env], [FlagDesc], [Default], [Validate] and
    [Morph]: each sets one field. *)
Definition FlagName (s : string) : FlagOption := fun fl =>
  mkFlag s (FAlias fl) (FEnv fl) (FDesc fl) (FDefault fl) (FMorph fl)
    (FParser fl) (FValidation fl).
Definition FlagAlias (s : string) : FlagOption := fun fl =>
  mkFlag (FName fl) s (FEnv fl) (FDesc fl) (FDefault fl) (FMorph fl)
    (FParser fl) (FValidation fl).
Definition Env (s : string) : FlagOption := fun fl =>
  mkFlag (FName fl) (FAlias fl) s (FDesc fl) (FDefault fl) (FMorph fl)
    (FParser fl) (FValidation fl).
Definition FlagDesc (s : string) : FlagOption := fun fl =>
  mkFlag (FName fl) (FAlias fl) (FEnv fl) s (FDefault fl) (FMorph fl)
    (FParser fl) (FValidation fl).
Definition Default (n : option dyn) : FlagOption := fun fl =>
  mkFlag (FName fl) (FAlias fl) (FEnv fl) (FDesc fl) n (FMorph fl)
    (FParser fl) (FValidation fl).
Definition Validate (n : option (string -> list string -> option string))
  : FlagOption := fun fl =>
  mkFlag (FName fl) (FAlias fl) (FEnv fl) (FDesc fl) (FDefault fl) (FMorph fl)
    (FParser fl) n.
Definition Morph
    (n : option (option dyn -> option dyn * option string)) : FlagOption :=
  fun fl =>
  mkFlag (FName fl) (FAlias fl) (FEnv fl) (FDesc fl) (FDefault fl) n
    (FParser fl) (FValidation fl).

Definition withParser (fl : Flag dyn string)
    (p : string -> list string -> option dyn * option string)
  : Flag dyn string :=
  mkFlag (FName fl) (FAlias fl) (FEnv fl) (FDesc fl) (FDefault fl) (FMorph fl)
    (Some p) (FValidation fl).

(** [var impl Flag], and [for _, op := range ops { op(&impl) }]. *)
Definition zeroFlag : Flag dyn string :=
  mkFlag "" "" "" "" None None None None.

Definition applyOps (impl : Flag dyn string) (ops : list FlagOption)
  : Flag dyn string :=
  foldl (fun fl op => op fl) impl ops.

(** [MakeFlag] *)
Definition MakeFlag (ops : list FlagOption) : Flag dyn string :=
  applyOps zeroFlag ops.

(** [StringListFlag]; [None] is the exit by [log.Fatalf] when the default
    is not a [[]string].  The parser checks the validation of the flag and
    returns [append([]string{s}, rem...)]. *)
Definition StringListFlag (ops : list FlagOption) : option (Flag dyn string) :=
  let impl := applyOps zeroFlag ops in
  let parser := fun (s : string) (rem : list string) =>
    match FValidation impl with
    | Some validation =>
        match validation s rem with
        | Some err => (None, Some err)
        | None => (Some (DStrings (s :: rem)), None)
        end
    | None => (Some (DStrings (s :: rem)), None)
    end in
  match FDefault impl with
  | None | Some (DStrings _) => Some (withParser impl parser)
  | Some _ => None
  end.

(** [StringFlag]: the parser returns its first argument. *)
Definition StringFlag (ops : list FlagOption) : option (Flag dyn string) :=
  let impl := applyOps zeroFlag ops in
  let parser := fun (s : string) (rem : list string) =>
    (Some (DString s), @None string) in
  match FDefault impl with
  | None | Some (DString _) => Some (withParser impl parser)
  | Some _ => None
  end.

(** [strconv.ParseBool] *)
Definition ParseBool (str : string) : option bool :=
  if existsb (String.eqb str) ["1"; "t"; "T"; "true"; "TRUE"; "True"]
  then Some true
  else if existsb (String.eqb str) ["0"; "f"; "F"; "false"; "FALSE"; "False"]
  then Some false
  else None.

Definition boolParser (s : string) (rem : list string)
  : option dyn * option string :=
  match ParseBool s with
  | Some myValue => (Some (DBool myValue), None)
  | None => (None, Some "not a bool")
  end.

(** [BoolFlag] and [TBoolFlag]: the default is [false], respectively
    [true], unless an option sets another. *)
Definition BoolFlag (ops : list FlagOption) : option (Flag dyn string) :=
  let impl := applyOps (Default (Some (DBool false)) zeroFlag) ops in
  match FDefault impl with
  | None | Some (DBool _) => Some (withParser impl boolParser)
  | Some _ => None
  end.

Definition TBoolFlag (ops : list FlagOption) : option (Flag dyn string) :=
  let impl := applyOps (Default (Some (DBool true)) zeroFlag) ops in
  match FDefault impl with
  | None | Some (DBool _) => Some (withParser impl boolParser)
  | Some _ => None
  end.

(** ** The typed accessors of the context *)

(** [(c *ctxImpl) Bool(key)] and [(c *ctxImpl) String(key)]: the value
    found by [Get], asserted to be of the type; [None] is the panic of the
    type assertion on a value of another type, or on nil. *)
Definition ctxImpl_Bool (c : ctxImpl dyn) (key : string) : option bool :=
  match Get c key with
  | (val, true) =>
      match val with
      | Some (DBool b) => Some b
      | _ => None
      end
  | (_, false) => Some false
  end.

Definition ctxImpl_String (c : ctxImpl dyn) (key : string) : option string :=
  match Get c key with
  | (val, true) =>
      match val with
      | Some (DString str) => Some str
      | _ => None
      end
  | (_, false) => Some ""
  end.

(** ** Notions used in the statements *)

(** Every value sequence of the map has an element. *)
Definition valuesNonEmpty (m : gmap string (list string)) : Prop :=
  map_Forall (fun _ vs => vs <> []) m.

(** What holds of the node at the head of every iteration. *)
Record loopInv (i : nat) (argd : Argv) (w : bool) : Prop := {
  inv_sub : Sub argd = None;
  inv_text : Text argd = "";
  inv_pairs : exists m, Pairs argd = Some m /\ valuesNonEmpty m;
  inv_cursor : w = true -> 0 < i;
  inv_name : w = false -> Name argd = ""
}.

(** [Pairs] is a map (not nil) whose value sequences all have an element. *)
Definition pairsOk (a : Argv) : Prop :=
  exists m, Pairs a = Some m /\ valuesNonEmpty m.

(** A flag token that needs no other token and raises no error of its own:
    the text after [=], if any, opens no list that runs over several
    tokens, and is not empty when there is a key. *)
Definition selfContained (value : string) : bool :=
  negb (isList value) || isListEnd value.

Definition soundFlag (t : string) : bool :=
  isFlag t &&
  match Index (flagOpt t) "=" with
  | None => true
  | Some pos =>
      let key := TrimSpace (upto pos (flagOpt t)) in
      let value := TrimSpace (from (pos + 1) (flagOpt t)) in
      selfContained value && (String.eqb key "" || negb (String.eqb value ""))
  end.

(** No space rune at the front, respectively at the back, of [s]. *)
Definition noSpacePrefix (s : string) : Prop :=
  Forall (fun r => HasPrefix s r = false) spaceRunes.
Definition noSpaceSuffix (s : string) : Prop :=
  Forall (fun r => HasSuffix s r = false) spaceRunes.

(** The byte [c] occurs in no space rune after its first byte and in none
    before its last byte; every ASCII byte is such a byte. *)
Definition innerByte (c : ascii) : bool :=
  forallb (fun r => negb (inCutset c (from 1 r)) &&
                    negb (inCutset c (upto (len r - 1) r))) spaceRunes.

(** A piece of text without white space at its ends and without a space
    byte; a word is such a piece that does not look like a flag and has no
    bracket at its ends.  Commas are bytes like any other. *)
Definition isPlain (e : string) : bool :=
  negb (String.eqb e "") && String.eqb (TrimSpace e) e && negb (inCutset " " e).

Definition isWord (e : string) : bool :=
  isPlain e && negb (HasPrefix e "-") && negb (HasPrefix e "[") &&
  negb (HasSuffix e "]").

(** The element a piece of text contributes: none when it is empty. *)
Definition optWord (e : string) : list string :=
  if String.eqb e "" then [] else [e].

(** A token that the scan of a list collects: it is no flag and ends no
    list, and what is left of it once trimmed is a plain piece of text (it
    may start with brackets, and contain commas). *)
Definition isPiece (e : string) : bool :=
  isPlain (TrimSpace e) && negb (isFlag e) && negb (isListEnd e).



(** The loop over [t :: args] from cursor [S i] runs as the loop over
    [args] from cursor [i]: the body only reads [args[i]], [args[i+1]] and
    the slices [args[i:]]. *)
Definition shiftCtl (c : ctl) : ctl :=
  match c with
  | Continue i argd w => Continue (S i) argd w
  | Done o => Done o
  end.

(** A flag token whose value opens a bracketed list and does not close it
    in the same token. *)
Definition opensList (t : string) : bool :=
  isFlag t &&
  match Index (flagOpt t) "=" with
  | Some pos =>
      let value := TrimSpace (from (pos + 1) (flagOpt t)) in
      isList value && negb (isListEnd value)
  | None => false
  end.

(** The tree of a sequence of words: the first is the name, a single word
    after it is the text of a leaf, and two or more words after it are a
    sub-command chain of their own. *)
Fixpoint chain (ws : list string) : Argv :=
  match ws with
  | [] => startArgv
  | w :: rest =>
      match rest with
      | [] => withName startArgv w
      | [t] => withText (withName startArgv w) t
      | _ => withText (withSub (withName startArgv w) (chain rest))
               (Join rest " ")
      end
  end.

(** The byte [c] occurs in no space rune. *)
Definition outerByte (c : ascii) : bool :=
  forallb (fun r => negb (inCutset c r)) spaceRunes.

(** A key: a plain piece of text without [=] that does not start with a
    dash.  An element of a comma-separated list: text without space, comma
    and brackets (it may be empty). *)
Definition isKey (k : string) : bool :=
  isPlain k && negb (inCutset "=" k) && negb (HasPrefix k "-").

Definition isElem (e : string) : bool :=
  negb (inCutset " " e) && negb (inCutset "," e) &&
  negb (inCutset "[" e) && negb (inCutset "]" e).

(** The flags that take one token: [-name] (any number of dashes),
    [--key=value] and [--key=[e1,...,ek]]. *)
Inductive flagItem : Type :=
| Switch (n : nat) (name : string)
| Assign (n : nat) (key value : string)
| AssignList (n : nat) (key : string) (es : list string).

Definition token (it : flagItem) : string :=
  match it with
  | Switch n f => dashes (S n) +:+ f
  | Assign n k v => dashes (S n) +:+ k +:+ String "=" v
  | AssignList n k es =>
      dashes (S n) +:+ k +:+ String "=" (String "[" (Join es "," +:+ "]"))
  end.

Definition itemKey (it : flagItem) : string :=
  match it with
  | Switch _ f => f
  | Assign _ k _ => k
  | AssignList _ k _ => k
  end.

Definition itemValues (it : flagItem) : list string :=
  match it with
  | Switch _ _ => ["true"]
  | Assign _ _ v => [v]
  | AssignList _ _ es => es
  end.

Definition itemOk (it : flagItem) : bool :=
  match it with
  | Switch _ f => isKey f
  | Assign _ k v => isKey k && isPlain v && negb (HasPrefix v "[")
  | AssignList _ k es =>
      isKey k && negb (length es =? 0) && forallb isElem es
  end.

(** The map after the flags, entered in their order. *)
Definition enter (m : gmap string (list string)) (it : flagItem)
  : gmap string (list string) :=
  <[itemKey it := itemValues it]> m.

(** The name of a node is empty or a token, and its text is the join of
    the tokens from some position on. *)
Definition nodeOf (args : list string) (n : Argv) : Prop :=
  (Name n = "" \/ Name n ∈ args) /\
  exists k, Text n = Join (drop k args) " ".

(** The value [process] takes for a flag: the parsed value of the command
    line when the node has the flag, else the parsed value of the
    environment variable when the flag names one, else the default. *)
Definition chosen {V E} (Getenv : string -> string) (arg : Argv)
    (flag : Flag V E) (value : option V) : Prop :=
  match getPair arg (FName flag) with
  | Some [] => False
  | Some (first :: others) => Flag_Parse flag first others = Some (value, None)
  | None =>
      if negb (String.eqb (FEnv flag) "")
      then Flag_Parse flag (Getenv (FEnv flag)) [] = Some (value, None)
      else exists d, FDefault flag = Some d /\ value = Some d
  end.

(** The text a flag is parsed from: the entry of the node, or else the
    environment variable that the flag names. *)
Definition parsedFrom {V E} (Getenv : string -> string) (arg : Argv)
    (flag : Flag V E) (m : string) (rest : list string) : Prop :=
  getPair arg (FName flag) = Some (m :: rest) \/
  (getPair arg (FName flag) = None /\ FEnv flag <> "" /\
   m = Getenv (FEnv flag) /\ rest = []).

(** Both maps of the context are made. *)
Definition ready {V} (c : ctxImpl V) : Prop :=
  (exists fs, c_flags c = Some fs) /\ (exists m, c_pairs c = Some m).

(** An instance: a flag [age] with alias [a], environment variable [AGE]
    and default 7, whose parser takes the length of its argument; no
    environment variable is set. *)

Definition ageFlag : Flag nat string :=
  mkFlag "age" "a" "AGE" "" (Some 7) None
    (Some (fun s _ => (Some (String.length s), None))) None.

Definition noEnv : string -> string := fun _ => "".

Definition ageNode : Argv :=
  mkArgv "p" None "" (Some {[ "age" := ["xyz"]; "other" := ["1"] ]}).

Definition ageCtx : ctxImpl nat :=
  mkCtx (Some ({["a"]} ∪ ({["age"]} ∪ ∅)))
    (Some (<["a" := Some 3]> (<["age" := Some 3]> ∅))) None.

(** The number of nodes on the [Sub] chain of a node. *)
Fixpoint depth (a : Argv) : nat :=
  S (match Sub a with
     | Some s => depth s
     | None => 0
     end).

(** The [Text] of a node with a [Sub] starts with the name of the [Sub] and
    ends with its text. *)
Definition linked (n : Argv) : Prop :=
  match Sub n with
  | Some sub =>
      HasPrefix (Text n) (Name sub) = true /\
      exists pre, Text n = pre +:+ Text sub
  | None => True
  end.

(** * Properties *)

(** ** Strings *)

Lemma length_from n s : len (from n s) = len s - n.
Proof.
  revert s; induction n as [|n IH]; intros [|a s]; simpl; auto.
Qed.

Lemma length_upto n s : len (upto n s) = Nat.min n (len s).
Proof.
  revert s; induction n as [|n IH]; intros [|a s]; simpl; auto.
Qed.

Lemma Split_nonempty s sep : Split s sep <> [].
Proof.
  destruct s as [|a s]; simpl; [discriminate|].
  destruct (Ascii.eqb a sep); [discriminate|].
  destruct (Split s sep); discriminate.
Qed.

Lemma isFlag_opt arg : isFlag arg = true -> String.eqb (flagOpt arg) "" = false.
Proof.
  unfold isFlag, flagOpt. intros H.
  apply andb_true_iff in H as [_ H]. now apply negb_true_iff in H.
Qed.

Lemma isFlag_not_ignored arg : isFlag arg = true -> isIgnored arg = false.
Proof.
  intros H. destruct (isIgnored arg) eqn:E; [|reflexivity].
  unfold isIgnored in E.
  apply orb_true_iff in E as [E|E]; [apply orb_true_iff in E as [E|E]|];
    apply String.eqb_eq in E; subst arg; discriminate H.
Qed.

(** ** The cases of the loop body *)

Section Body.
Variable rec : list string -> outcome.
Variables (args : list string) (i : nat) (argd : Argv) (w : bool).
Variable arg : string.
Hypothesis Harg : args !! i = Some arg.

Lemma body_ignored :
  isIgnored arg = true -> body rec args i argd w = Continue i argd w.
Proof. intros H. unfold body. now rewrite Harg, H. Qed.

Lemma body_name :
  isIgnored arg = false -> isFlag arg = false ->
  body rec args i argd false =
    if negb (lenPairs argd =? 0) then Done (Fail argd MisplacedFlags)
    else Continue i (withName argd arg) true.
Proof. intros H1 H2. unfold body. now rewrite Harg, H1, H2. Qed.

Lemma body_branch :
  isIgnored arg = false -> isFlag arg = false ->
  body rec args i argd true = Done (branch rec args i i argd).
Proof. intros H1 H2. unfold body. now rewrite Harg, H1, H2. Qed.

Lemma flagValues_empty : flagValues args i "" = Some ([], i).
Proof. reflexivity. Qed.

Lemma body_flag_bare :
  isFlag arg = true -> Index (flagOpt arg) "=" = None ->
  body rec args i argd w = setPair argd (flagOpt arg) ["true"] i w.
Proof.
  intros H1 H2. unfold body.
  rewrite Harg, (isFlag_not_ignored _ H1), H1. simpl.
  unfold flagParts. rewrite H2, flagValues_empty. simpl.
  rewrite (isFlag_opt _ H1), Nat.eqb_refl. reflexivity.
Qed.

Lemma body_flag_eq pos :
  isFlag arg = true -> Index (flagOpt arg) "=" = Some pos ->
  body rec args i argd w =
    let opt := flagOpt arg in
    let key := TrimSpace (upto pos opt) in
    let value := TrimSpace (from (pos + 1) opt) in
    match flagValues args i value with
    | None => Done Panic
    | Some (values, i') =>
        if String.eqb key "" then Continue i' argd w
        else if length values =? 0
             then Done (Fail argd (MissingFlagValue opt))
             else setPair argd key values i' w
    end.
Proof.
  intros H1 H2. unfold body.
  rewrite Harg, (isFlag_not_ignored _ H1), H1. simpl.
  unfold flagParts. rewrite H2.
  destruct (flagValues args i _) as [[values i']|]; [|reflexivity].
  destruct (String.eqb (TrimSpace _) ""); simpl.
  - rewrite andb_false_r. reflexivity.
  - destruct (length values =? 0); reflexivity.
Qed.

End Body.

(** The cursor never moves backwards, and an empty value sequence comes
    from an empty value only. *)
Lemma scanList_ge rest lst i lst' i' :
  scanList rest lst i = (lst', i') -> i <= i'.
Proof.
  revert lst i; induction rest as [|t rest IH]; simpl; intros lst i H.
  - injection H as _ <-. lia.
  - destruct (negb (isFlag t) && negb (isListEnd t)).
    + apply IH in H. lia.
    + injection H as _ <-. lia.
Qed.

Lemma flagValues_Some args i value vs i' :
  flagValues args i value = Some (vs, i') ->
  i <= i' /\ (vs = [] -> value = "" /\ i' = i).
Proof.
  unfold flagValues.
  destruct (isList value).
  - destruct (isListEnd value).
    + intros [= <- <-]. split; [lia|]. intros H. now apply Split_nonempty in H.
    + destruct (scanList _ _ i) as [lst j] eqn:Hs.
      apply scanList_ge in Hs.
      destruct (args !! S j); [|discriminate].
      destruct (isListEnd s); intros [= <- <-]; (split; [lia|]);
        intros H; now apply Split_nonempty in H.
  - destruct (String.eqb_spec value "") as [->|Hv]; simpl.
    + intros [= <- <-]. auto.
    + intros [= <- <-]. split; [lia|discriminate].
Qed.

Lemma setPair_Continue argd k vs i w i' argd' w' :
  setPair argd k vs i w = Continue i' argd' w' ->
  i' = i /\ w' = w /\ Name argd' = Name argd /\ Sub argd' = Sub argd /\
  Text argd' = Text argd /\
  exists m, Pairs argd = Some m /\ Pairs argd' = Some (<[k := vs]> m).
Proof.
  unfold setPair. destruct (Pairs argd) as [m|] eqn:E; [|discriminate].
  intros [= <- <- <-]. simpl. eauto 10.
Qed.

(** What an iteration that goes on to the next one can have done. *)
Lemma body_Continue rec args i argd w i' argd' w' :
  body rec args i argd w = Continue i' argd' w' ->
  i <= i' /\ Sub argd' = Sub argd /\ Text argd' = Text argd /\
  (w = true -> w' = true /\ Name argd' = Name argd) /\
  (Pairs argd' = Pairs argd \/
   exists m k vs, Pairs argd = Some m /\ vs <> [] /\
                  Pairs argd' = Some (<[k := vs]> m)).
Proof.
  destruct (args !! i) as [arg|] eqn:Harg; [|unfold body; now rewrite Harg].
  destruct (isIgnored arg) eqn:Hign.
  { rewrite (body_ignored _ _ _ _ _ _ Harg Hign). intros [= <- <- <-]. auto 10. }
  destruct (isFlag arg) eqn:Hflag.
  - destruct (Index (flagOpt arg) "=") as [pos|] eqn:Hidx.
    + rewrite (body_flag_eq _ _ _ _ _ _ Harg _ Hflag Hidx). cbv zeta.
      destruct (flagValues args i _) as [[vs j]|] eqn:Hv; [|discriminate].
      apply flagValues_Some in Hv as [Hle Hvs].
      destruct (String.eqb _ "").
      * intros [= <- <- <-]. auto 10.
      * destruct (length vs =? 0) eqn:Hl; [discriminate|].
        intros H. apply setPair_Continue in H as (-> & -> & ? & ? & ? & m & ? & ?).
        repeat split; auto. right. exists m, (TrimSpace (upto pos (flagOpt arg))), vs.
        repeat split; auto. intros ->. discriminate.
    + rewrite (body_flag_bare _ _ _ _ _ _ Harg Hflag Hidx).
      intros H. apply setPair_Continue in H as (-> & -> & ? & ? & ? & m & ? & ?).
      repeat split; auto. right. exists m, (flagOpt arg), ["true"].
      repeat split; auto; discriminate.
  - destruct w.
    + rewrite (body_branch _ _ _ _ _ Harg Hign Hflag). discriminate.
    + rewrite (body_name _ _ _ _ _ Harg Hign Hflag).
      destruct (negb (lenPairs argd =? 0)); [discriminate|].
      intros [= <- <- <-]. simpl. repeat split; auto. discriminate.
Qed.

(** ** Invariants of the loop *)

Lemma valuesNonEmpty_insert m k vs :
  valuesNonEmpty m -> vs <> [] -> valuesNonEmpty (<[k := vs]> m).
Proof. intros H Hvs. now apply map_Forall_insert_2. Qed.

Lemma body_preserves rec args i argd w i' argd' w' :
  loopInv i argd w ->
  body rec args i argd w = Continue i' argd' w' ->
  loopInv (S i') argd' w'.
Proof.
  intros [Hs Ht (m & Hm & Hne) Hc Hn] Hb.
  pose proof (body_Continue _ _ _ _ _ _ _ _ Hb) as (Hle & Hs' & Ht' & Hw & Hp).
  split.
  - congruence.
  - congruence.
  - destruct Hp as [Hp|(m0 & k & vs & Hm0 & Hvs & Hp)].
    + exists m. split; [congruence|assumption].
    + rewrite Hm in Hm0. injection Hm0 as <-.
      eexists. split; [exact Hp|]. now apply valuesNonEmpty_insert.
  - intros _. lia.
  - intros ->. destruct w.
    + now destruct Hw.
    + (* the name is written together with [withCommand] *)
      specialize (Hn eq_refl). revert Hb. unfold body.
      destruct (args !! i) as [arg|]; [|discriminate].
      destruct (isIgnored arg); [intros [= _ <-]; exact Hn|].
      destruct (isFlag arg); simpl.
      * destruct (flagParts _) as [[hasEq key] value].
        destruct (flagValues _ _ _) as [[vs j]|]; [|discriminate].
        repeat match goal with
               | |- context [if ?b then _ else _] => destruct b
               end; try discriminate;
          try (intros H; apply setPair_Continue in H; intuition congruence).
        intros [= _ <-]; exact Hn.
      * destruct (negb (lenPairs argd =? 0)); discriminate.
Qed.

Lemma reaches_inv rec args i argd w :
  reaches rec args i argd w -> loopInv i argd w.
Proof.
  induction 1 as [|i argd w i' argd' w' _ IH _ Hb].
  - split; try reflexivity; try discriminate.
    exists ∅. split; [reflexivity|]. apply map_Forall_empty.
  - eapply body_preserves; eauto.
Qed.

(** The loop started by [parseArgs] can be resumed from every iteration it
    arrives at. *)
Lemma loop_resume rec args i argd w :
  reaches rec args i argd w ->
  exists n, length args - i < n /\
    loop rec args (S (length args)) 0 startArgv false = loop rec args n i argd w.
Proof.
  induction 1 as [|i argd w i' argd' w' _ (n & Hn & IH) Hi Hb].
  - exists (S (length args)). split; [lia|reflexivity].
  - destruct n as [|n]; [lia|].
    exists n. apply body_Continue in Hb as Hle. destruct Hle as [Hle _].
    split; [lia|]. rewrite IH. simpl.
    destruct (Nat.leb_spec (length args) i); [lia|]. now rewrite Hb.
Qed.

Lemma parseArgs_S fuel args :
  parseArgs (S fuel) args =
    loop (parseArgs fuel) args (S (length args)) 0 startArgv false.
Proof. reflexivity. Qed.

Lemma loop_S rec args n i argd w :
  loop rec args (S n) i argd w =
    if length args <=? i then Ok argd
    else match body rec args i argd w with
         | Continue i' argd' w' => loop rec args n (S i') argd' w'
         | Done o => o
         end.
Proof. reflexivity. Qed.

(** ** Termination: the fuel of the model is enough *)

Lemma branch_no_fuel_loss rec args i argd :
  0 < i -> i < length args ->
  (forall l, length l < length args -> rec l <> Diverge) ->
  branch rec args i i argd <> Diverge.
Proof.
  intros H0 Hi Hrec. unfold branch.
  assert (Hl : length (drop i args) < length args) by (rewrite length_drop; lia).
  specialize (Hrec _ Hl).
  destruct (drop i args) as [|t [|t' r]];
    try destruct (negb (isFlag t)); try discriminate;
    destruct (rec _); try discriminate; congruence.
Qed.

Lemma loop_terminates rec args n i argd w :
  (forall l, length l < length args -> rec l <> Diverge) ->
  (w = true -> 0 < i) ->
  length args - i < n ->
  loop rec args n i argd w <> Diverge.
Proof.
  intros Hrec. revert i argd w.
  induction n as [|n IH]; intros i argd w Hw Hn; [lia|].
  simpl. destruct (Nat.leb_spec (length args) i) as [|Hi]; [discriminate|].
  destruct (body rec args i argd w) as [i' argd' w'|o] eqn:Hb.
  - apply body_Continue in Hb as (Hle & _). apply IH; lia.
  - (* the iteration leaves the function *)
    destruct (args !! i) as [arg|] eqn:Harg;
      [|apply lookup_ge_None in Harg; lia].
    destruct (isIgnored arg) eqn:Hign.
    { rewrite (body_ignored _ _ _ _ _ _ Harg Hign) in Hb. discriminate. }
    destruct (isFlag arg) eqn:Hflag.
    + destruct (Index (flagOpt arg) "=") as [pos|] eqn:Hidx.
      * rewrite (body_flag_eq _ _ _ _ _ _ Harg _ Hflag Hidx) in Hb. cbv zeta in Hb.
        destruct (flagValues _ _ _) as [[vs j]|]; [|now injection Hb as <-].
        destruct (String.eqb _ ""); [discriminate|].
        destruct (length vs =? 0); [now injection Hb as <-|].
        unfold setPair in Hb. destruct (Pairs argd); [discriminate|].
        now injection Hb as <-.
      * rewrite (body_flag_bare _ _ _ _ _ _ Harg Hflag Hidx) in Hb.
        unfold setPair in Hb. destruct (Pairs argd); [discriminate|].
        now injection Hb as <-.
    + destruct w.
      * rewrite (body_branch _ _ _ _ _ Harg Hign Hflag) in Hb.
        injection Hb as <-. apply branch_no_fuel_loss; auto.
      * rewrite (body_name _ _ _ _ _ Harg Hign Hflag) in Hb.
        destruct (negb _); [now injection Hb as <-|discriminate].
Qed.

(** With more fuel than tokens, [parseArgs] returns or panics. *)
Lemma parseArgs_terminates fuel args :
  length args < fuel -> parseArgs fuel args <> Diverge.
Proof.
  revert args. induction fuel as [|fuel IH]; intros args H; [lia|].
  rewrite parseArgs_S. apply loop_terminates.
  - intros l Hl. apply IH. lia.
  - discriminate.
  - lia.
Qed.

Lemma Parse_terminates s : Parse s <> Diverge.
Proof.
  unfold Parse. destruct (len s =? 0); [discriminate|].
  apply parseArgs_terminates. lia.
Qed.

(** More fuel does not change what a call returns. *)
Lemma branch_ext rec rec' args from i argd :
  (forall l, rec l <> Diverge -> rec' l = rec l) ->
  branch rec args from i argd <> Diverge ->
  branch rec' args from i argd = branch rec args from i argd.
Proof.
  intros Hrec. unfold branch.
  destruct (drop from args) as [|t [|t' r]];
    try destruct (negb (isFlag t)); try reflexivity;
    (destruct (rec _) eqn:E; [| | |contradiction]);
    intros _; rewrite Hrec, E; try reflexivity; rewrite E; discriminate.
Qed.

Lemma body_ext rec rec' args i argd w :
  (forall l, rec l <> Diverge -> rec' l = rec l) ->
  body rec args i argd w <> Done Diverge ->
  body rec' args i argd w = body rec args i argd w.
Proof.
  intros Hrec. unfold body.
  destruct (args !! i) as [arg|]; [|reflexivity].
  destruct (isIgnored arg); [reflexivity|].
  destruct (negb (isFlag arg) && negb w); [reflexivity|].
  destruct (negb (isFlag arg) && w).
  { intros H. f_equal. apply branch_ext; [exact Hrec|]. congruence. }
  destruct (flagParts _) as [[hasEq key] value].
  destruct (flagValues _ _ _) as [[vs j]|]; [|reflexivity].
  repeat match goal with
         | |- context [if ?b then _ else _] => destruct b
         end; try reflexivity.
  intros H. f_equal. apply branch_ext; [exact Hrec|]. congruence.
Qed.

Lemma loop_ext rec rec' args n i argd w :
  (forall l, rec l <> Diverge -> rec' l = rec l) ->
  loop rec args n i argd w <> Diverge ->
  loop rec' args n i argd w = loop rec args n i argd w.
Proof.
  intros Hrec. revert i argd w.
  induction n as [|n IH]; intros i argd w; [reflexivity|].
  rewrite !loop_S. destruct (length args <=? i); [reflexivity|].
  destruct (body rec args i argd w) as [i' argd' w'|o] eqn:Hb; intros H.
  - rewrite (body_ext rec rec'), Hb; [now apply IH|exact Hrec|].
    rewrite Hb. discriminate.
  - rewrite (body_ext rec rec'), Hb; [reflexivity|exact Hrec|].
    rewrite Hb. congruence.
Qed.

Lemma parseArgs_more_fuel fuel args :
  parseArgs fuel args <> Diverge ->
  parseArgs (S fuel) args = parseArgs fuel args.
Proof.
  revert args. induction fuel as [|fuel IH]; intros args H; [now contradiction H|].
  rewrite (parseArgs_S (S fuel)), (parseArgs_S fuel) in *.
  apply loop_ext; [exact IH|exact H].
Qed.

(** ** The branch into a sub-command *)

Lemma drop_lookup (args : list string) i arg :
  args !! i = Some arg -> drop i args = arg :: drop (S i) args.
Proof. intros H. now apply drop_S. Qed.

Lemma branch_leaf rec (args : list string) i argd arg :
  args !! i = Some arg -> S i = length args -> isFlag arg = false ->
  branch rec args i i argd = Ok (withText argd arg).
Proof.
  intros Harg Hlen Hflag. unfold branch.
  rewrite (drop_lookup _ _ _ Harg), drop_ge by lia. now rewrite Hflag.
Qed.

Lemma branch_rec rec (args : list string) i argd arg :
  args !! i = Some arg -> S i < length args ->
  branch rec args i i argd =
    match rec (drop i args) with
    | Ok sub => Ok (withText (withSub argd sub) (Join (drop i args) " "))
    | Fail _ err => Fail argd err
    | Panic => Panic
    | Diverge => Diverge
    end.
Proof.
  intros Harg Hlen. unfold branch.
  rewrite (drop_lookup _ _ _ Harg).
  destruct (drop (S i) args) as [|t r] eqn:E; [|reflexivity].
  apply (f_equal length) in E. rewrite length_drop in E. simpl in E. lia.
Qed.

(** An iteration returns a node with a nil error only in the branch into a
    sub-command. *)
Lemma body_Ok rec args i argd w a :
  body rec args i argd w = Done (Ok a) ->
  exists arg, args !! i = Some arg /\ w = true /\
    isFlag arg = false /\ isIgnored arg = false /\
    branch rec args i i argd = Ok a.
Proof.
  intros Hb.
  destruct (args !! i) as [arg|] eqn:Harg;
    [|unfold body in Hb; now rewrite Harg in Hb].
  destruct (isIgnored arg) eqn:Hign.
  { rewrite (body_ignored _ _ _ _ _ _ Harg Hign) in Hb. discriminate. }
  destruct (isFlag arg) eqn:Hflag.
  - destruct (Index (flagOpt arg) "=") as [pos|] eqn:Hidx.
    + rewrite (body_flag_eq _ _ _ _ _ _ Harg _ Hflag Hidx) in Hb. cbv zeta in Hb.
      destruct (flagValues _ _ _) as [[vs j]|]; [|discriminate].
      destruct (String.eqb _ ""); [discriminate|].
      destruct (length vs =? 0); [discriminate|].
      unfold setPair in Hb. destruct (Pairs argd); discriminate.
    + rewrite (body_flag_bare _ _ _ _ _ _ Harg Hflag Hidx) in Hb.
      unfold setPair in Hb. destruct (Pairs argd); discriminate.
  - destruct w.
    + rewrite (body_branch _ _ _ _ _ Harg Hign Hflag) in Hb.
      injection Hb as Hb. exists arg. auto.
    + rewrite (body_name _ _ _ _ _ Harg Hign Hflag) in Hb.
      destruct (negb _); discriminate.
Qed.

(** ** A list left open *)

Lemma scanList_all rest lst i :
  Forall (fun t => isFlag t = false /\ isListEnd t = false) rest ->
  scanList rest lst i = (lst ++ map TrimSpace rest, i + length rest).
Proof.
  intros H. revert lst i.
  induction H as [|t rest [Hf He] _ IH]; intros lst i; simpl.
  - now rewrite app_nil_r, Nat.add_0_r.
  - rewrite Hf, He. simpl. rewrite IH, <- app_assoc. simpl.
    f_equal. lia.
Qed.

(** A bracketed list that is opened, is not closed in the same token, and is
    followed to the end of the tokens by neither a flag nor a closing token:
    the read [args[i+1]] after the scan is past the end. *)
Lemma flagValues_unclosed args i value :
  isList value = true -> isListEnd value = false -> i < length args ->
  Forall (fun t => isFlag t = false /\ isListEnd t = false) (drop (S i) args) ->
  flagValues args i value = None.
Proof.
  intros Hl He Hi Hall. unfold flagValues. rewrite Hl, He.
  rewrite (scanList_all _ _ _ Hall), length_drop.
  replace (args !! S (i + (length args - S i))) with (@None string);
    [reflexivity|].
  symmetry. apply lookup_ge_None. lia.
Qed.

(** The iteration at such a flag panics. *)
Lemma body_unclosed_list rec args i argd w arg pos :
  args !! i = Some arg -> isFlag arg = true ->
  Index (flagOpt arg) "=" = Some pos ->
  isList (TrimSpace (from (pos + 1) (flagOpt arg))) = true ->
  isListEnd (TrimSpace (from (pos + 1) (flagOpt arg))) = false ->
  Forall (fun t => isFlag t = false /\ isListEnd t = false) (drop (S i) args) ->
  body rec args i argd w = Done Panic.
Proof.
  intros Harg Hflag Hidx Hl He Hall.
  rewrite (body_flag_eq _ _ _ _ _ _ Harg _ Hflag Hidx). cbv zeta.
  rewrite flagValues_unclosed; auto. now apply lookup_lt_Some in Harg.
Qed.

(** C1 -- The scan of a bracketed list reads [args[i+1]] after its loop
    without the bound check of the loop: when no closing token follows, the
    read is past the end of the tokens and [Parse] panics instead of
    returning a node or an error.  Here on ["p --k=[a"] and on
    ["p --k=[a b c"]. *)
Theorem Parse_unclosed_list_panics :
  Parse "p --k=[a" = Panic /\ Parse "p --k=[a b c" = Panic.
Proof. split; vm_compute; reflexivity. Qed.

(** C7 -- [Parse("p --dirs=[drum flag kick]")] succeeds and
    [Pairs["dirs"]] is ["drum","flag","kick"]: the elements of the list
    opened in the flag token and closed by the token ending in "]", in the
    order of the input, without the brackets. *)
Theorem Parse_list_with_spaces :
  Parse "p --dirs=[drum flag kick]" =
    Ok (mkArgv "p" None "" (Some {[ "dirs" := ["drum"; "flag"; "kick"] ]})).
Proof. vm_compute. reflexivity. Qed.

(** ** Leaf and branch *)

(** The call returns what the iteration it has arrived at returns. *)
Lemma parseArgs_Done fuel args i argd w o :
  reaches (parseArgs fuel) args i argd w -> i < length args ->
  body (parseArgs fuel) args i argd w = Done o ->
  parseArgs (S fuel) args = o.
Proof.
  intros Hr Hi Hb. rewrite parseArgs_S.
  destruct (loop_resume _ _ _ _ _ Hr) as (n & Hn & ->).
  destruct n as [|n]; [lia|]. simpl.
  destruct (Nat.leb_spec (length args) i); [lia|]. now rewrite Hb.
Qed.

(** C5 -- With the name of the level set, a non-flag token (one that is not
    skipped as ignorable) that is the last token of the slice under
    examination becomes [Text]; [Sub] stays nil and nothing is parsed
    recursively: the iteration returns the same node whatever the recursive
    parser is.  So in [Parse("example --rack=20 push git@ghu.com/fla.git")]
    the node [Sub] has [Name] "push", [Text] "git@ghu.com/fla.git" and no
    [Sub] of its own. *)
Theorem leaf_text fuel args i argd arg :
  reaches (parseArgs fuel) args i argd true ->
  args !! i = Some arg -> S i = length args ->
  isFlag arg = false -> isIgnored arg = false ->
  (forall rec, body rec args i argd true = Done (Ok (withText argd arg))) /\
  parseArgs (S fuel) args = Ok (withText argd arg) /\
  Text (withText argd arg) = arg /\
  Sub (withText argd arg) = None /\
  exists top sub,
    Parse "example --rack=20 push git@ghu.com/fla.git" = Ok top /\
    Sub top = Some sub /\ Name sub = "push" /\
    Text sub = "git@ghu.com/fla.git" /\ Sub sub = None.
Proof.
  intros Hr Harg Hlen Hflag Hign.
  assert (Hb : forall rec, body rec args i argd true = Done (Ok (withText argd arg))).
  { intros rec. rewrite (body_branch _ _ _ _ _ Harg Hign Hflag).
    now rewrite (branch_leaf _ _ _ _ _ Harg Hlen Hflag). }
  split; [exact Hb|]. split.
  { eapply parseArgs_Done; [exact Hr|lia|apply Hb]. }
  split; [reflexivity|]. split.
  { simpl. exact (inv_sub _ _ _ (reaches_inv _ _ _ _ _ Hr)). }
  eexists _, _. split; [vm_compute; reflexivity|]. simpl. auto.
Qed.

Lemma leaf_text_witness :
  parseArgs 1 ["push"; "git@ghu.com/fla.git"] =
    Ok (withText (withName startArgv "push") "git@ghu.com/fla.git").
Proof.
  refine (proj1 (proj2 (leaf_text 0 ["push"; "git@ghu.com/fla.git"] 1
            (withName startArgv "push") "git@ghu.com/fla.git" _ _ _ _ _)));
    try reflexivity.
  apply (reaches_next _ _ 0 startArgv false 0); [constructor|simpl; lia|reflexivity].
Defined.

(** C6 -- With the name of the level set, a non-flag token (one that is not
    skipped as ignorable) followed by at least one more token makes
    [parseArgs] parse the tokens from that token to the end recursively and
    return at once: when the recursive call succeeds, with the node of the
    level whose [Sub] is the child and whose [Text] is the tokens from that
    point joined by spaces -- the fields are given one by one: the [Name]
    and the [Pairs] are those of the level, the [Sub] and the [Text] are
    new --, and with the error of the recursive call otherwise.  A node
    returned with a nil error has a [Sub] exactly when the loop arrived at
    such a token, and then its [Text] is that joined remainder. *)
Theorem branch_sub :
  (forall fuel args i argd arg,
     reaches (parseArgs fuel) args i argd true ->
     args !! i = Some arg -> S i < length args ->
     isFlag arg = false -> isIgnored arg = false ->
     parseArgs (S fuel) args =
       match parseArgs fuel (drop i args) with
       | Ok sub =>
           Ok (mkArgv (Name argd) (Some sub) (Join (drop i args) " ")
                 (Pairs argd))
       | Fail _ err => Fail argd err
       | Panic => Panic
       | Diverge => Diverge
       end) /\
  (forall fuel args i argd arg a,
     reaches (parseArgs fuel) args i argd true ->
     args !! i = Some arg -> S i < length args ->
     isFlag arg = false -> isIgnored arg = false ->
     parseArgs (S fuel) args = Ok a ->
     Sub a = (match parseArgs fuel (drop i args) with
              | Ok sub => Some sub
              | _ => None
              end) /\
     Sub a <> None /\
     Text a = Join (drop i args) " " /\
     Name a = Name argd /\ Pairs a = Pairs argd) /\
  (forall fuel args a,
     parseArgs (S fuel) args = Ok a ->
     Sub a <> None <->
     exists i argd arg,
       reaches (parseArgs fuel) args i argd true /\
       args !! i = Some arg /\ S i < length args /\
       isFlag arg = false /\ isIgnored arg = false).
Proof.
  assert (Hfirst : forall fuel args i argd arg,
     reaches (parseArgs fuel) args i argd true ->
     args !! i = Some arg -> S i < length args ->
     isFlag arg = false -> isIgnored arg = false ->
     parseArgs (S fuel) args =
       match parseArgs fuel (drop i args) with
       | Ok sub =>
           Ok (mkArgv (Name argd) (Some sub) (Join (drop i args) " ")
                 (Pairs argd))
       | Fail _ err => Fail argd err
       | Panic => Panic
       | Diverge => Diverge
       end).
  { intros fuel args i argd arg Hr Harg Hlen Hflag Hign.
    eapply parseArgs_Done; [exact Hr|lia|].
    rewrite (body_branch _ _ _ _ _ Harg Hign Hflag).
    rewrite (branch_rec _ _ _ _ _ Harg Hlen).
    destruct (parseArgs fuel (drop i args)); reflexivity. }
  split; [exact Hfirst|]. split.
  { intros fuel args i argd arg a Hr Harg Hlen Hflag Hign Hok.
    rewrite (Hfirst _ _ _ _ _ Hr Harg Hlen Hflag Hign) in Hok.
    destruct (parseArgs fuel (drop i args)) as [sub| | |]; try discriminate.
    injection Hok as <-. cbn [Sub Text Name Pairs].
    repeat split; [discriminate]. }
  intros fuel args a Hok. split.
  - (* a [Sub] comes from a branch *)
    intros Hsub. rewrite parseArgs_S in Hok.
    assert (Hgen : forall n i argd w,
      reaches (parseArgs fuel) args i argd w ->
      loop (parseArgs fuel) args n i argd w = Ok a ->
      exists i argd arg,
        reaches (parseArgs fuel) args i argd true /\
        args !! i = Some arg /\ S i < length args /\
        isFlag arg = false /\ isIgnored arg = false).
    { induction n as [|n IH]; intros i argd w Hr Hl; [discriminate|].
      simpl in Hl. destruct (Nat.leb_spec (length args) i) as [|Hi].
      - injection Hl as <-.
        now rewrite (inv_sub _ _ _ (reaches_inv _ _ _ _ _ Hr)) in Hsub.
      - destruct (body (parseArgs fuel) args i argd w) as [i' argd' w'|o] eqn:Hb.
        + eapply IH; [|exact Hl]. eapply reaches_next; eauto.
        + subst o. apply body_Ok in Hb as (arg & Harg & -> & Hflag & Hign & Hbr).
          exists i, argd, arg. repeat split; auto.
          destruct (Nat.eq_dec (S i) (length args)) as [Heq|]; [|lia].
          rewrite (branch_leaf _ _ _ _ _ Harg Heq Hflag) in Hbr.
          injection Hbr as <-. simpl in Hsub.
          now rewrite (inv_sub _ _ _ (reaches_inv _ _ _ _ _ Hr)) in Hsub. }
    eapply Hgen; [constructor|exact Hok].
  - intros (i & argd & arg & Hr & Harg & Hlen & Hflag & Hign).
    rewrite (Hfirst _ _ _ _ _ Hr Harg Hlen Hflag Hign) in Hok.
    destruct (parseArgs fuel (drop i args)); try discriminate.
    injection Hok as <-. discriminate.
Qed.

Lemma branch_sub_witness :
  parseArgs 2 ["p"; "push"; "x"] =
    Ok (mkArgv "p" (Some (mkArgv "push" None "x" (Some ∅))) "push x" (Some ∅)) /\
  (Sub (mkArgv "p" (Some (mkArgv "push" None "x" (Some ∅))) "push x" (Some ∅))
     = Some (mkArgv "push" None "x" (Some ∅)) /\
   Sub (mkArgv "p" (Some (mkArgv "push" None "x" (Some ∅))) "push x" (Some ∅))
     <> None /\
   Text (mkArgv "p" (Some (mkArgv "push" None "x" (Some ∅))) "push x" (Some ∅))
     = "push x" /\
   Name (mkArgv "p" (Some (mkArgv "push" None "x" (Some ∅))) "push x" (Some ∅))
     = "p" /\
   Pairs (mkArgv "p" (Some (mkArgv "push" None "x" (Some ∅))) "push x" (Some ∅))
     = Some ∅) /\
  (Sub (mkArgv "p" (Some (mkArgv "push" None "x" (Some ∅))) "push x" (Some ∅))
     <> None <->
   exists i argd arg,
     reaches (parseArgs 1) ["p"; "push"; "x"] i argd true /\
     ["p"; "push"; "x"] !! i = Some arg /\ S i < length ["p"; "push"; "x"] /\
     isFlag arg = false /\ isIgnored arg = false).
Proof.
  assert (Hr : reaches (parseArgs 1) ["p"; "push"; "x"] 1
                 (withName startArgv "p") true).
  { apply (reaches_next _ _ 0 startArgv false 0);
      [constructor|simpl; lia|reflexivity]. }
  split; [|split].
  - refine (proj1 branch_sub 1 ["p"; "push"; "x"] 1 (withName startArgv "p")
              "push" Hr _ _ _ _); try reflexivity. simpl; lia.
  - refine (proj1 (proj2 branch_sub) 1 ["p"; "push"; "x"] 1
              (withName startArgv "p") "push" _ Hr _ _ _ _ _);
      try reflexivity. simpl; lia.
  - apply (proj2 (proj2 branch_sub) 1 ["p"; "push"; "x"]). reflexivity.
Defined.

(** ** Flags and their values *)

(** C8 -- A flag token with a key, an [=] and no value after it (the text
    after [=] is empty once trimmed, so it opens no list either) makes the
    iteration, and with it the call, fail with [MissingFlagValue]; and an
    iteration that stores an entry into [Pairs] stores a value sequence with
    at least one element. *)
Theorem missing_flag_value fuel args i argd w arg pos :
  reaches (parseArgs fuel) args i argd w ->
  args !! i = Some arg -> isFlag arg = true ->
  Index (flagOpt arg) "=" = Some pos ->
  TrimSpace (upto pos (flagOpt arg)) <> "" ->
  TrimSpace (from (pos + 1) (flagOpt arg)) = "" ->
  (forall rec, body rec args i argd w =
                 Done (Fail argd (MissingFlagValue (flagOpt arg)))) /\
  parseArgs (S fuel) args = Fail argd (MissingFlagValue (flagOpt arg)) /\
  (forall rec args i argd w i' argd' w',
     body rec args i argd w = Continue i' argd' w' ->
     Pairs argd' = Pairs argd \/
     exists m k vs, Pairs argd = Some m /\ vs <> [] /\
                    Pairs argd' = Some (<[k := vs]> m)).
Proof.
  intros Hr Harg Hflag Hidx Hkey Hval.
  assert (Hb : forall rec, body rec args i argd w =
                 Done (Fail argd (MissingFlagValue (flagOpt arg)))).
  { intros rec. rewrite (body_flag_eq _ _ _ _ _ _ Harg _ Hflag Hidx). cbv zeta.
    rewrite Hval, flagValues_empty.
    destruct (String.eqb_spec (TrimSpace (upto pos (flagOpt arg))) "");
      [contradiction|reflexivity]. }
  split; [exact Hb|]. split.
  - eapply parseArgs_Done; [exact Hr| |apply Hb].
    now apply lookup_lt_Some in Harg.
  - intros rec args0 i0 argd0 w0 i' argd' w' Hc.
    now apply body_Continue in Hc.
Qed.

Lemma missing_flag_value_witness :
  parseArgs 1 ["p"; "--k="] =
    Fail (withName startArgv "p") (MissingFlagValue "k=").
Proof.
  refine (proj1 (proj2 (missing_flag_value 0 ["p"; "--k="] 1
            (withName startArgv "p") true "--k=" 1 _ _ _ _ _ _)));
    try reflexivity; [|discriminate].
  apply (reaches_next _ _ 0 startArgv false 0);
    [constructor|simpl; lia|reflexivity].
Defined.

(** ** The nodes of a returned tree *)

Lemma allNodes_eq P a :
  allNodes P a <-> P a /\ match Sub a with
                          | Some s => allNodes P s
                          | None => True
                          end.
Proof. now destruct a. Qed.

Lemma allNodes_leaf P a : Sub a = None -> P a -> allNodes P a.
Proof. intros Hs Hp. apply allNodes_eq. now rewrite Hs. Qed.

Lemma loop_pairsOk rec args n i argd w a :
  (forall l s, rec l = Ok s -> allNodes pairsOk s) ->
  loopInv i argd w ->
  loop rec args n i argd w = Ok a -> allNodes pairsOk a.
Proof.
  intros Hrec. revert i argd w.
  induction n as [|n IH]; intros i argd w Hinv Hl; [discriminate|].
  simpl in Hl. destruct (Nat.leb_spec (length args) i) as [|Hi].
  - injection Hl as <-.
    apply allNodes_leaf; [exact (inv_sub _ _ _ Hinv)|exact (inv_pairs _ _ _ Hinv)].
  - destruct (body rec args i argd w) as [i' argd' w'|o] eqn:Hb.
    + eapply IH; [|exact Hl]. eapply body_preserves; eauto.
    + subst o. apply body_Ok in Hb as (arg & Harg & -> & Hflag & Hign & Hbr).
      destruct (Nat.eq_dec (S i) (length args)) as [Heq|Hne].
      * rewrite (branch_leaf _ _ _ _ _ Harg Heq Hflag) in Hbr.
        injection Hbr as <-.
        apply allNodes_leaf; [exact (inv_sub _ _ _ Hinv)|exact (inv_pairs _ _ _ Hinv)].
      * rewrite (branch_rec _ _ _ _ _ Harg) in Hbr by lia.
        destruct (rec (drop i args)) as [sub| | |] eqn:Hsub; try discriminate.
        injection Hbr as <-. simpl.
        split; [exact (inv_pairs _ _ _ Hinv)|eauto].
Qed.

Lemma parseArgs_pairsOk fuel args a :
  parseArgs fuel args = Ok a -> allNodes pairsOk a.
Proof.
  revert args a. induction fuel as [|fuel IH]; intros args a H; [discriminate|].
  rewrite parseArgs_S in H.
  eapply loop_pairsOk; [exact IH| |exact H].
  apply (reaches_inv (parseArgs fuel) args). constructor.
Qed.

(** C9 -- In the tree returned by a successful [Parse], every node has a
    [Pairs] map that is not nil (it may be empty), and every key of every
    such map is bound to a sequence with at least one string. *)
Theorem Parse_pairs_invariant s a :
  Parse s = Ok a ->
  allNodes (fun n => exists m, Pairs n = Some m /\
                       forall k vs, m !! k = Some vs -> vs <> []) a.
Proof.
  unfold Parse. destruct (len s =? 0); [discriminate|].
  intros H. apply parseArgs_pairsOk in H. exact H.
Qed.

Lemma Parse_pairs_invariant_witness :
  allNodes (fun n => exists m, Pairs n = Some m /\
                       forall k vs, m !! k = Some vs -> vs <> [])
    (mkArgv "p" (Some (mkArgv "push" None "x" (Some ∅))) "push x"
       (Some {[ "h" := ["true"] ]})).
Proof.
  apply (Parse_pairs_invariant "p -h push x"). vm_compute. reflexivity.
Defined.

(** ** Flags before the command name *)

(** An iteration returns an error of its own in two places, and hands on
    the error of the recursive call in the branch. *)
Lemma body_Fail rec args i argd w a e :
  body rec args i argd w = Done (Fail a e) ->
  exists arg, args !! i = Some arg /\ a = argd /\
    ((e = MisplacedFlags /\ isFlag arg = false /\ isIgnored arg = false /\
      w = false /\ lenPairs argd <> 0) \/
     (e = MissingFlagValue (flagOpt arg) /\ isFlag arg = true) \/
     (isFlag arg = false /\ isIgnored arg = false /\ w = true /\
      exists a', rec (drop i args) = Fail a' e)).
Proof.
  intros Hb.
  destruct (args !! i) as [arg|] eqn:Harg;
    [|unfold body in Hb; now rewrite Harg in Hb].
  exists arg. split; [reflexivity|].
  destruct (isIgnored arg) eqn:Hign.
  { rewrite (body_ignored _ _ _ _ _ _ Harg Hign) in Hb. discriminate. }
  destruct (isFlag arg) eqn:Hflag.
  - destruct (Index (flagOpt arg) "=") as [pos|] eqn:Hidx.
    + rewrite (body_flag_eq _ _ _ _ _ _ Harg _ Hflag Hidx) in Hb. cbv zeta in Hb.
      destruct (flagValues _ _ _) as [[vs j]|]; [|discriminate].
      destruct (String.eqb _ ""); [discriminate|].
      destruct (length vs =? 0).
      * injection Hb as <- <-. auto.
      * unfold setPair in Hb. destruct (Pairs argd); discriminate.
    + rewrite (body_flag_bare _ _ _ _ _ _ Harg Hflag Hidx) in Hb.
      unfold setPair in Hb. destruct (Pairs argd); discriminate.
  - destruct w.
    + rewrite (body_branch _ _ _ _ _ Harg Hign Hflag) in Hb.
      injection Hb as Hb. unfold branch in Hb.
      rewrite (drop_lookup _ _ _ Harg) in *.
      destruct (drop (S i) args) as [|t r].
      * rewrite Hflag in Hb. discriminate.
      * destruct (rec _) as [?|a' e'| |]; try discriminate.
        injection Hb as <- <-. split; [reflexivity|]. right. right. eauto.
    + rewrite (body_name _ _ _ _ _ Harg Hign Hflag) in Hb.
      destruct (lenPairs argd =? 0) eqn:Hl; [discriminate|].
      injection Hb as <- <-. split; [reflexivity|]. left.
      apply Nat.eqb_neq in Hl. auto.
Qed.

(** Once the name is set, the level raises no [MisplacedFlags]. *)
Lemma loop_named rec args n i argd a :
  (forall tok rest a', isFlag tok = false -> isIgnored tok = false ->
     rec (tok :: rest) <> Fail a' MisplacedFlags) ->
  loop rec args n i argd true <> Fail a MisplacedFlags.
Proof.
  intros Hrec. revert i argd.
  induction n as [|n IH]; intros i argd; [discriminate|].
  simpl. destruct (length args <=? i); [discriminate|].
  destruct (body rec args i argd true) as [i' argd' w'|o] eqn:Hb.
  - apply body_Continue in Hb as (_ & _ & _ & Hw & _).
    destruct (Hw eq_refl) as [-> _]. apply IH.
  - intros ->. apply body_Fail in Hb as (arg & Harg & _ & H).
    destruct H as [(_ & _ & _ & ? & _)|[(? & _)|(Hf & Hi & _ & a' & Hr)]];
      try discriminate.
    rewrite (drop_lookup _ _ _ Harg) in Hr. now apply Hrec in Hr.
Qed.

(** A nested call starts at a non-flag token, which it takes as its name. *)
Lemma parseArgs_nested fuel tok rest a :
  isFlag tok = false -> isIgnored tok = false ->
  parseArgs fuel (tok :: rest) <> Fail a MisplacedFlags.
Proof.
  revert tok rest a.
  induction fuel as [|fuel IH]; intros tok rest a Hf Hi; [discriminate|].
  rewrite parseArgs_S, loop_S. cbn [length Nat.leb].
  rewrite (body_name _ (tok :: rest) 0 startArgv tok eq_refl Hi Hf).
  change (lenPairs startArgv) with 0. cbn [Nat.eqb negb].
  apply loop_named. intros. now apply IH.
Qed.

Lemma flagValues_selfContained args i value :
  selfContained value = true ->
  exists vs, flagValues args i value = Some (vs, i) /\
             (vs = [] -> value = "").
Proof.
  unfold selfContained, flagValues. intros H.
  destruct (isList value); simpl in H.
  - rewrite H. eexists. split; [reflexivity|].
    intros E. now apply Split_nonempty in E.
  - destruct (String.eqb_spec value "") as [->|]; simpl;
      eexists; (split; [reflexivity|]); [reflexivity|discriminate].
Qed.

(** The iteration at a sound flag stores at most an entry and goes on. *)
Lemma body_soundFlag rec args i argd w arg m :
  args !! i = Some arg -> soundFlag arg = true -> Pairs argd = Some m ->
  exists m', body rec args i argd w = Continue i (withPairs argd m') w.
Proof.
  intros Harg Hs Hm. unfold soundFlag in Hs.
  apply andb_true_iff in Hs as [Hflag Hs].
  destruct (Index (flagOpt arg) "=") as [pos|] eqn:Hidx.
  - rewrite (body_flag_eq _ _ _ _ _ _ Harg _ Hflag Hidx). cbv zeta in *.
    apply andb_true_iff in Hs as [Hsc Hkv].
    destruct (flagValues_selfContained args i _ Hsc) as (vs & -> & Hvs).
    destruct (String.eqb (TrimSpace (upto pos (flagOpt arg))) "").
    + exists m. destruct argd; simpl in *; now subst.
    + simpl in Hkv. destruct vs as [|v vs].
      * rewrite Hvs in Hkv by reflexivity. discriminate.
      * simpl. unfold setPair. rewrite Hm. eauto.
  - rewrite (body_flag_bare _ _ _ _ _ _ Harg Hflag Hidx).
    unfold setPair. rewrite Hm. eauto.
Qed.

Lemma body_at_flag rec args i argd w arg :
  args !! i = Some arg -> isFlag arg = true \/ isIgnored arg = true ->
  match body rec args i argd w with
  | Continue i' argd' w' =>
      w' = w /\ Name argd' = Name argd /\ Sub argd' = Sub argd
  | Done (Ok _) => False
  | Done (Fail _ e) => e <> MisplacedFlags
  | Done _ => True
  end.
Proof.
  intros Harg H.
  destruct (body rec args i argd w) as [i' argd' w'|[a|a e| |]] eqn:Hb; auto.
  - destruct (isIgnored arg) eqn:Hign.
    { rewrite (body_ignored _ _ _ _ _ _ Harg Hign) in Hb.
      injection Hb as <- <- <-. auto. }
    destruct H as [Hflag|]; [|discriminate].
    destruct (Index (flagOpt arg) "=") as [pos|] eqn:Hidx.
    + rewrite (body_flag_eq _ _ _ _ _ _ Harg _ Hflag Hidx) in Hb. cbv zeta in Hb.
      destruct (flagValues _ _ _) as [[vs j]|]; [|discriminate].
      destruct (String.eqb _ ""); [injection Hb as <- <- <-; auto|].
      destruct (length vs =? 0); [discriminate|].
      apply setPair_Continue in Hb. intuition.
    + rewrite (body_flag_bare _ _ _ _ _ _ Harg Hflag Hidx) in Hb.
      apply setPair_Continue in Hb. intuition.
  - apply body_Ok in Hb as (arg' & Harg' & _ & Hf & Hi & _).
    rewrite Harg in Harg'. injection Harg' as <-.
    destruct H; congruence.
  - apply body_Fail in Hb as (arg' & Harg' & _ & Hb).
    rewrite Harg in Harg'. injection Harg' as <-.
    destruct Hb as [(_ & Hf & Hi & _)|[(-> & _)|(Hf & Hi & _)]];
      try discriminate; destruct H; congruence.
Qed.

Lemma loop_flags_only rec args n i argd :
  Forall (fun t => isFlag t = true \/ isIgnored t = true) args ->
  (forall a, loop rec args n i argd false <> Fail a MisplacedFlags) /\
  (forall a, loop rec args n i argd false = Ok a ->
     Name a = Name argd /\ Sub a = Sub argd).
Proof.
  intros Hall. revert i argd.
  induction n as [|n IH]; intros i argd; [split; intros; discriminate|].
  rewrite loop_S. destruct (Nat.leb_spec (length args) i) as [|Hi].
  { split; [discriminate|]. now intros a [= <-]. }
  destruct (lookup_lt_is_Some_2 args i Hi) as [arg Harg].
  assert (Hp : isFlag arg = true \/ isIgnored arg = true).
  { rewrite Forall_lookup in Hall. exact (Hall _ _ Harg). }
  pose proof (body_at_flag rec args i argd false arg Harg Hp) as Hb.
  destruct (body rec args i argd false) as [i' argd' w'|[a'|a' e| |]];
    try (split; intros; discriminate).
  - destruct Hb as (-> & <- & <-). apply IH.
  - contradiction.
  - split; [|discriminate]. intros a [= _ ->]. contradiction.
Qed.

Lemma loop_sound_flags rec args n i argd m :
  Forall (fun t => soundFlag t = true \/ isIgnored t = true) args ->
  Pairs argd = Some m -> length args - i < n ->
  exists m', loop rec args n i argd false = Ok (withPairs argd m').
Proof.
  intros Hall. revert i argd m.
  induction n as [|n IH]; intros i argd m Hm Hn; [lia|].
  rewrite loop_S. destruct (Nat.leb_spec (length args) i) as [|Hi].
  { exists m. destruct argd; simpl in *; now subst. }
  destruct (lookup_lt_is_Some_2 args i Hi) as [arg Harg].
  rewrite Forall_lookup in Hall. destruct (Hall _ _ Harg) as [Hs|Hign].
  - destruct (body_soundFlag rec args i argd false arg m Harg Hs Hm) as [m' ->].
    destruct (IH (S i) (withPairs argd m') m' eq_refl) as [m'' ->]; [lia|].
    now exists m''.
  - rewrite (body_ignored _ _ _ _ _ _ Harg Hign).
    apply (IH (S i) argd m Hm). lia.
Qed.

(** C4 -- A call of [parseArgs], at any level of the nesting, fails with
    [MisplacedFlags] exactly when its loop arrives, with no name captured
    yet and with entries in [Pairs], at a token that is neither a flag nor
    ignorable.  A flag token before the name is no error by itself: a token
    sequence of flags (and ignorable tokens) never fails with
    [MisplacedFlags], a node it returns has an empty [Name] and no [Sub],
    and when none of the flags is faulty for its own sake (a key without a
    value, a list left open) the call succeeds. *)
Theorem misplaced_flags_exactly :
  (forall fuel args a,
     parseArgs (S fuel) args = Fail a MisplacedFlags <->
     exists i arg,
       reaches (parseArgs fuel) args i a false /\ args !! i = Some arg /\
       isFlag arg = false /\ isIgnored arg = false /\ lenPairs a <> 0) /\
  (forall fuel args,
     Forall (fun t => isFlag t = true \/ isIgnored t = true) args ->
     (forall a, parseArgs fuel args <> Fail a MisplacedFlags) /\
     (forall a, parseArgs fuel args = Ok a -> Name a = "" /\ Sub a = None)) /\
  (forall fuel args,
     Forall (fun t => soundFlag t = true \/ isIgnored t = true) args ->
     exists a, parseArgs (S fuel) args = Ok a /\ Name a = "" /\ Sub a = None).
Proof.
  split; [|split].
  - intros fuel args a. split.
    + rewrite parseArgs_S.
      assert (Hgen : forall n i argd w,
        reaches (parseArgs fuel) args i argd w ->
        loop (parseArgs fuel) args n i argd w = Fail a MisplacedFlags ->
        exists i arg,
          reaches (parseArgs fuel) args i a false /\ args !! i = Some arg /\
          isFlag arg = false /\ isIgnored arg = false /\ lenPairs a <> 0).
      { induction n as [|n IH]; intros i argd w Hr Hl; [discriminate|].
        rewrite loop_S in Hl. destruct (length args <=? i) eqn:Hi; [discriminate|].
        apply Nat.leb_gt in Hi.
        destruct (body (parseArgs fuel) args i argd w) as [i' argd' w'|o] eqn:Hb.
        - eapply IH; [|exact Hl]. eapply reaches_next; eauto.
        - subst o. apply body_Fail in Hb as (arg & Harg & -> & Hb).
          destruct Hb as [(_ & Hf & Hg & -> & Hp)|[(? & _)|(Hf & Hg & _ & a' & Hn)]];
            [|discriminate|].
          + exists i, arg. auto.
          + rewrite (drop_lookup _ _ _ Harg) in Hn.
            now apply parseArgs_nested in Hn. }
      apply Hgen. constructor.
    + intros (i & arg & Hr & Harg & Hf & Hg & Hp).
      eapply parseArgs_Done; [exact Hr|now apply lookup_lt_Some in Harg|].
      rewrite (body_name _ _ _ _ _ Harg Hg Hf).
      apply Nat.eqb_neq in Hp. now rewrite Hp.
  - intros fuel args Hall. destruct fuel as [|fuel].
    { split; intros; discriminate. }
    rewrite parseArgs_S.
    apply (loop_flags_only (parseArgs fuel) args (S (length args)) 0 startArgv Hall).
  - intros fuel args Hall. rewrite parseArgs_S.
    destruct (loop_sound_flags (parseArgs fuel) args (S (length args)) 0
                startArgv ∅ Hall eq_refl) as [m ->]; [lia|].
    eexists. split; [reflexivity|]. auto.
Qed.

Lemma misplaced_flags_exactly_witness :
  parseArgs 1 ["--x=1"; "name"] =
    Fail (withPairs startArgv {[ "x" := ["1"] ]}) MisplacedFlags /\
  exists a, parseArgs 1 ["-h"; "--x=1"] = Ok a /\ Name a = "" /\ Sub a = None.
Proof.
  split.
  - apply (proj1 misplaced_flags_exactly 0 ["--x=1"; "name"]).
    exists 1, "name". repeat split; try reflexivity.
    + apply (reaches_next _ _ 0 startArgv false 0);
        [constructor|simpl; lia|vm_compute; reflexivity].
    + vm_compute. discriminate.
  - apply (proj2 (proj2 misplaced_flags_exactly) 0 ["-h"; "--x=1"]).
    repeat constructor.
Defined.

(** ** Flag tokens without a key *)

Lemma flagOpt_dashes n rest :
  flagOpt (dashes n +:+ String "=" rest) = String "=" rest.
Proof. induction n as [|n IH]; [reflexivity|exact IH]. Qed.

Lemma isFlag_dashes n rest : isFlag (dashes (S n) +:+ String "=" rest) = true.
Proof.
  unfold isFlag.
  change (TrimLeft (dashes (S n) +:+ String "=" rest) "-")
    with (flagOpt (dashes (S n) +:+ String "=" rest)).
  rewrite flagOpt_dashes. reflexivity.
Qed.

Lemma body_keyless rec args i argd w n rest :
  args !! i = Some (dashes (S n) +:+ String "=" rest) ->
  body rec args i argd w =
    match flagValues args i (TrimSpace rest) with
    | None => Done Panic
    | Some (_, i') => Continue i' argd w
    end.
Proof.
  intros Harg.
  rewrite (body_flag_eq _ _ _ _ _ _ Harg 0 (isFlag_dashes n rest));
    [|now rewrite flagOpt_dashes].
  rewrite flagOpt_dashes. cbv zeta. cbn [upto from Nat.add].
  destruct (flagValues _ _ _) as [[vs j]|]; reflexivity.
Qed.

(** The scan of a list stops at the first token that is a flag or ends a
    list: the tokens before it are collected and the cursor is at the last
    of them. *)
Lemma scanList_stop mids stop post lst i :
  Forall (fun t => isFlag t = false /\ isListEnd t = false) mids ->
  isFlag stop || isListEnd stop = true ->
  scanList (mids ++ stop :: post) lst i =
    (lst ++ map TrimSpace mids, i + length mids).
Proof.
  intros H Hstop. revert lst i.
  induction H as [|e mids [He1 He2] _ IH]; intros lst i.
  - cbn [app scanList map length]. rewrite <- negb_orb, Hstop.
    cbn [negb]. now rewrite List.app_nil_r, Nat.add_0_r.
  - cbn [app scanList map length]. rewrite He1, He2. cbn [negb andb].
    rewrite IH, <- List.app_assoc. cbn [app]. f_equal. lia.
Qed.

(** The cursor after a list that runs over several tokens: at the token
    that closes the list, or at the last collected token when the scan has
    stopped at a flag that closes no list. *)
Lemma flagValues_cursor pre arg mids stop post value :
  isList value = true -> isListEnd value = false ->
  Forall (fun t => isFlag t = false /\ isListEnd t = false) mids ->
  isFlag stop || isListEnd stop = true ->
  exists vs,
    flagValues (pre ++ arg :: mids ++ stop :: post) (length pre) value =
      Some (vs, if isListEnd stop then S (length pre + length mids)
                else length pre + length mids).
Proof.
  intros Hopen Hnoend Hmids Hstop. unfold flagValues. rewrite Hopen, Hnoend.
  assert (Hdrop : drop (S (length pre)) (pre ++ arg :: mids ++ stop :: post)
                  = mids ++ stop :: post).
  { rewrite drop_app_ge by lia.
    now replace (S (length pre) - length pre) with 1 by lia. }
  rewrite Hdrop, (scanList_stop _ _ _ _ _ Hmids Hstop).
  assert (Hlook : (pre ++ arg :: mids ++ stop :: post)
                    !! S (length pre + length mids) = Some stop).
  { change (pre ++ arg :: mids ++ stop :: post)
      with (pre ++ (arg :: mids) ++ stop :: post).
    rewrite List.app_assoc. apply list_lookup_middle.
    rewrite length_app. simpl. lia. }
  rewrite Hlook. destruct (isListEnd stop); eexists; reflexivity.
Qed.

(** C10, as the code has it -- A token of one or more dashes, [=] and any
    text never adds an entry to [Pairs], returns no error, leaves the node
    and [withCommand] as they are and starts no branch.  When the text after
    [=] does not open a list that runs over several tokens, the iteration
    goes on with the next token.  When it opens such a list, the tokens
    after it that are neither flags nor ends of a list are consumed: the
    next iteration starts after the token that closes the list, or at the
    flag that has stopped the scan; and when the tokens end before such a
    token, the read past the end of the arguments panics. *)
Theorem keyless_flag_skipped rec args i argd w n rest :
  args !! i = Some (dashes (S n) +:+ String "=" rest) ->
  (selfContained (TrimSpace rest) = true ->
   body rec args i argd w = Continue i argd w) /\
  (forall pre mids stop post,
     selfContained (TrimSpace rest) = false ->
     args = pre ++ (dashes (S n) +:+ String "=" rest) :: mids ++ stop :: post ->
     i = length pre ->
     Forall (fun t => isFlag t = false /\ isListEnd t = false) mids ->
     isFlag stop || isListEnd stop = true ->
     body rec args i argd w =
       Continue (if isListEnd stop then S (i + length mids) else i + length mids)
         argd w) /\
  (selfContained (TrimSpace rest) = false ->
   Forall (fun t => isFlag t = false /\ isListEnd t = false) (drop (S i) args) ->
   body rec args i argd w = Done Panic) /\
  (forall i' argd' w', body rec args i argd w = Continue i' argd' w' ->
     i <= i' /\ argd' = argd /\ w' = w) /\
  (forall a, body rec args i argd w <> Done (Ok a)) /\
  (forall a e, body rec args i argd w <> Done (Fail a e)).
Proof.
  intros Harg. rewrite (body_keyless _ _ _ _ _ _ _ Harg).
  assert (Hsc : selfContained (TrimSpace rest) = false ->
                isList (TrimSpace rest) = true /\
                isListEnd (TrimSpace rest) = false).
  { unfold selfContained. rewrite orb_false_iff, negb_false_iff. tauto. }
  split; [|split; [|split; [|split; [|split]]]].
  - intros Hself.
    now destruct (flagValues_selfContained args i _ Hself) as (vs & -> & _).
  - intros pre mids stop post Hself -> -> Hmids Hstop.
    apply Hsc in Hself as [Hopen Hnoend].
    destruct (flagValues_cursor pre (dashes (S n) +:+ String "=" rest)
                mids stop post _ Hopen Hnoend Hmids Hstop) as (vs & ->).
    reflexivity.
  - intros Hself Hrest. apply Hsc in Hself as [Hopen Hnoend].
    rewrite (flagValues_unclosed _ _ _ Hopen Hnoend); [reflexivity| |exact Hrest].
    now apply lookup_lt_Some in Harg.
  - intros i' argd' w'.
    destruct (flagValues _ _ _) as [[vs j]|] eqn:Hv; [|discriminate].
    intros [= <- <- <-]. apply flagValues_Some in Hv. intuition.
  - intros a. now destruct (flagValues _ _ _) as [[vs j]|].
  - intros a e. now destruct (flagValues _ _ _) as [[vs j]|].
Qed.

Lemma keyless_flag_skipped_witness :
  body (parseArgs 0) ["p"; "--=v"; "-h"] 1 (withName startArgv "p") true =
    Continue 1 (withName startArgv "p") true /\
  body (parseArgs 0) ["p"; "--=[a"; "b"; "c]"; "d"] 1
      (withName startArgv "p") true =
    Continue 3 (withName startArgv "p") true /\
  body (parseArgs 0) ["p"; "--=[a"; "b"; "-h"; "c]"] 1
      (withName startArgv "p") true =
    Continue 2 (withName startArgv "p") true /\
  body (parseArgs 0) ["p"; "--=[a"; "b"] 1 (withName startArgv "p") true =
    Done Panic.
Proof.
  split; [|split; [|split]].
  - refine (proj1 (keyless_flag_skipped (parseArgs 0) ["p"; "--=v"; "-h"] 1
              (withName startArgv "p") true 1 "v" _) _); reflexivity.
  - refine (proj1 (proj2 (keyless_flag_skipped (parseArgs 0)
              ["p"; "--=[a"; "b"; "c]"; "d"] 1
              (withName startArgv "p") true 1 "[a" _))
              ["p"] ["b"] "c]" ["d"] _ _ _ _ _); try reflexivity.
    repeat constructor.
  - refine (proj1 (proj2 (keyless_flag_skipped (parseArgs 0)
              ["p"; "--=[a"; "b"; "-h"; "c]"] 1
              (withName startArgv "p") true 1 "[a" _))
              ["p"] ["b"] "-h" ["c]"] _ _ _ _ _); try reflexivity.
    repeat constructor.
  - refine (proj1 (proj2 (proj2 (keyless_flag_skipped (parseArgs 0)
              ["p"; "--=[a"; "b"] 1
              (withName startArgv "p") true 1 "[a" _))) _ _);
      try reflexivity.
    repeat constructor.
Defined.

(** C10, as stated, fails -- In ["p --=[a b] c"] the key-less flag token
    ["--=[a"] opens a list: the iteration does not go on with the next
    token ["b]"] but past it, so ["c"] becomes the [Text] of a leaf, whereas
    a parse that went on with ["b]"] would branch into a [Sub], as
    ["p b] c"] does.  And a key-less flag token that opens a list which no
    later token closes, as in ["p --=[a"], is not skipped: the call
    panics. *)
Lemma keyless_list_flag_consumes_tokens :
  body (parseArgs 0) ["p"; "--=[a"; "b]"; "c"] 1 (withName startArgv "p") true
    <> Continue 1 (withName startArgv "p") true /\
  body (parseArgs 0) ["p"; "--=[a"; "b]"; "c"] 1 (withName startArgv "p") true
    = Continue 2 (withName startArgv "p") true /\
  Parse "p --=[a b] c" = Ok (mkArgv "p" None "c" (Some ∅)) /\
  Parse "p b] c" =
    Ok (mkArgv "p" (Some (mkArgv "b]" None "c" (Some ∅))) "b] c" (Some ∅)) /\
  Parse "p --=[a" = Panic.
Proof.
  assert (H : body (parseArgs 0) ["p"; "--=[a"; "b]"; "c"] 1
                (withName startArgv "p") true
              = Continue 2 (withName startArgv "p") true)
    by (vm_compute; reflexivity).
  split; [rewrite H; discriminate|].
  split; [exact H|].
  repeat split; vm_compute; reflexivity.
Qed.

(** ** More on strings: concatenation, prefixes and suffixes *)

Lemma append_cons a s t : String a s +:+ t = String a (s +:+ t).
Proof. reflexivity. Qed.

Lemma append_nil_r s : s +:+ "" = s.
Proof. induction s as [|a s IH]; [reflexivity|]. now rewrite append_cons, IH. Qed.

Lemma append_assoc s t u : (s +:+ t) +:+ u = s +:+ (t +:+ u).
Proof. induction s as [|a s IH]; [reflexivity|]. now rewrite !append_cons, IH. Qed.

Lemma len_append s t : len (s +:+ t) = len s + len t.
Proof.
  induction s as [|a s IH]; [reflexivity|].
  rewrite append_cons. unfold len in *. simpl. now rewrite IH.
Qed.

Lemma from_append s t : from (len s) (s +:+ t) = t.
Proof.
  induction s as [|a s IH]; [now destruct t|].
  rewrite append_cons. exact IH.
Qed.

Lemma upto_append s t : upto (len s) (s +:+ t) = s.
Proof.
  induction s as [|a s IH]; [now destruct t|].
  rewrite append_cons. unfold len. simpl. f_equal. exact IH.
Qed.

Lemma upto_from n s : upto n s +:+ from n s = s.
Proof.
  revert s. induction n as [|n IH]; intros [|a s]; try reflexivity.
  simpl. rewrite append_cons. now rewrite IH.
Qed.

Lemma append_empty s t : s +:+ t = "" -> s = "" /\ t = "".
Proof. destruct s; [auto|discriminate]. Qed.

Lemma inCutset_append c s t : inCutset c (s +:+ t) = inCutset c s || inCutset c t.
Proof.
  induction s as [|a s IH]; [reflexivity|].
  rewrite append_cons. simpl. now rewrite IH, orb_assoc.
Qed.

Lemma HasPrefix_iff s p : HasPrefix s p = true <-> exists t, s = p +:+ t.
Proof.
  revert s. induction p as [|a p IH]; intros s; simpl.
  - split; [exists s; reflexivity|reflexivity].
  - destruct s as [|b s]; [split; [discriminate|intros [t H]; discriminate]|].
    rewrite andb_true_iff, IH. split.
    + intros [E [t ->]]. apply Ascii.eqb_eq in E as ->. now exists t.
    + intros [t H]. rewrite append_cons in H. injection H as -> ->.
      split; [apply Ascii.eqb_refl|now exists t].
Qed.

Lemma HasSuffix_iff s p : HasSuffix s p = true <-> exists t, s = t +:+ p.
Proof.
  unfold HasSuffix. rewrite andb_true_iff, Nat.leb_le, String.eqb_eq. split.
  - intros [_ H]. exists (upto (len s - len p) s).
    pose proof (upto_from (len s - len p) s) as E. rewrite H in E. now symmetry.
  - intros [t ->]. rewrite len_append. split; [lia|].
    replace (len t + len p - len p) with (len t) by lia. apply from_append.
Qed.

Lemma HasPrefix_false s p : HasPrefix s p = false <-> ~ exists t, s = p +:+ t.
Proof. rewrite <- HasPrefix_iff. now destruct (HasPrefix s p). Qed.

Lemma HasSuffix_false s p : HasSuffix s p = false <-> ~ exists t, s = t +:+ p.
Proof. rewrite <- HasSuffix_iff. now destruct (HasSuffix s p). Qed.

(** Where a prefix, or a suffix, of a concatenation ends. *)
Lemma prefix_split p t a c b :
  p +:+ t = a +:+ String c b ->
  (exists a2, a = p +:+ a2) \/ (exists p2, p = a +:+ String c p2).
Proof.
  revert p. induction a as [|x a IH]; intros [|y p] H.
  - left. now exists "".
  - right. rewrite append_cons in H. injection H as -> _. now exists p.
  - left. now exists (String x a).
  - rewrite !append_cons in H. injection H as -> H.
    destruct (IH _ H) as [[a2 ->]|[p2 ->]]; [left; now exists a2|right; now exists p2].
Qed.

Lemma suffix_split t p a c b :
  t +:+ p = a +:+ String c b ->
  (exists b2, b = b2 +:+ p) \/ (exists p1, p = p1 +:+ String c b).
Proof.
  revert t. induction a as [|x a IH]; intros [|y t] H.
  - right. exists "". exact H.
  - left. rewrite append_cons in H. injection H as _ H. now exists t.
  - right. exists (String x a). exact H.
  - rewrite !append_cons in H. injection H as _ H. exact (IH _ H).
Qed.

Lemma HasPrefix_app_nonempty s t c :
  s <> "" -> HasPrefix (s +:+ t) (String c "") = HasPrefix s (String c "").
Proof. destruct s as [|a s]; [contradiction|]. intros _. simpl. reflexivity. Qed.

Lemma HasSuffix_app_nonempty s t c :
  t <> "" -> HasSuffix (s +:+ t) (String c "") = HasSuffix t (String c "").
Proof.
  intros Ht. destruct (HasSuffix t (String c "")) eqn:E.
  - apply HasSuffix_iff in E as [u ->]. apply HasSuffix_iff.
    exists (s +:+ u). now rewrite append_assoc.
  - apply HasSuffix_false. intros [u H].
    apply HasSuffix_false in E. apply E.
    destruct t as [|x t]; [contradiction|].
    symmetry in H.
    destruct (suffix_split _ _ _ _ _ H) as [[b2 ->]|[p1 Hp]].
    + assert (Hx : exists u', String x (b2 +:+ String c "") = u' +:+ String c "")
        by (exists (String x b2); reflexivity).
      exact Hx.
    + destruct p1 as [|y [|z p1]]; try discriminate.
      injection Hp as -> ->. now exists "".
Qed.

Lemma HasSuffix_snoc s c : HasSuffix (s +:+ String c "") (String c "") = true.
Proof. apply HasSuffix_iff. now exists s. Qed.

Lemma TrimSuffix_snoc s c : TrimSuffix (s +:+ String c "") (String c "") = s.
Proof.
  unfold TrimSuffix. rewrite HasSuffix_snoc, len_append. simpl.
  replace (len s + 1 - 1) with (len s) by lia. apply upto_append.
Qed.

Lemma TrimLeft_id s c : HasPrefix s (String c "") = false -> TrimLeft s (String c "") = s.
Proof.
  destruct s as [|a s]; [reflexivity|]. simpl.
  rewrite andb_true_r, orb_false_r, Ascii.eqb_sym. now intros ->.
Qed.

Lemma TrimPrefix_id s p : HasPrefix s p = false -> TrimPrefix s p = s.
Proof. unfold TrimPrefix. now intros ->. Qed.

Lemma TrimSuffix_id s p : HasSuffix s p = false -> TrimSuffix s p = s.
Proof. unfold TrimSuffix. now intros ->. Qed.

(** ** White space at the ends of a string *)

Lemma find_None {A} (f : A -> bool) l :
  List.find f l = None <-> Forall (fun x => f x = false) l.
Proof.
  induction l as [|x l IH]; simpl.
  - split; [constructor|reflexivity].
  - destruct (f x) eqn:E.
    + split; [discriminate|]. intros H. inversion H. congruence.
    + rewrite IH. split; [now constructor|]. intros H. now inversion H.
Qed.

Lemma spaceRunes_nonempty r : In r spaceRunes -> r <> "".
Proof.
  assert (H : Forall (fun r => r <> "") spaceRunes)
    by (repeat constructor; discriminate).
  rewrite Forall_forall in H. intros Hr. apply H. now apply list_elem_of_In.
Qed.

Lemma trimLeftSpace_S n s :
  trimLeftSpace (S n) s =
    match List.find (HasPrefix s) spaceRunes with
    | Some r => trimLeftSpace n (from (len r) s)
    | None => s
    end.
Proof. reflexivity. Qed.

Lemma trimRightSpace_S n s :
  trimRightSpace (S n) s =
    match List.find (HasSuffix s) spaceRunes with
    | Some r => trimRightSpace n (upto (len s - len r) s)
    | None => s
    end.
Proof. reflexivity. Qed.

Lemma trimLeftSpace_fix n s : noSpacePrefix s -> trimLeftSpace n s = s.
Proof.
  intros H. apply find_None in H.
  destruct n; [reflexivity|]. now rewrite trimLeftSpace_S, H.
Qed.

Lemma trimRightSpace_fix n s : noSpaceSuffix s -> trimRightSpace n s = s.
Proof.
  intros H. apply find_None in H.
  destruct n; [reflexivity|]. now rewrite trimRightSpace_S, H.
Qed.

Lemma TrimSpace_fix s : noSpacePrefix s -> noSpaceSuffix s -> TrimSpace s = s.
Proof.
  intros Hp Hs. unfold TrimSpace.
  now rewrite (trimLeftSpace_fix _ _ Hp), (trimRightSpace_fix _ _ Hs).
Qed.

Lemma len_trimLeftSpace n s : len (trimLeftSpace n s) <= len s.
Proof.
  revert s. induction n as [|n IH]; intros s; [simpl; lia|].
  rewrite trimLeftSpace_S.
  destruct (List.find _ _) as [r|]; [|lia].
  etransitivity; [apply IH|]. rewrite length_from. lia.
Qed.

Lemma len_trimRightSpace n s : len (trimRightSpace n s) <= len s.
Proof.
  revert s. induction n as [|n IH]; intros s; [simpl; lia|].
  rewrite trimRightSpace_S.
  destruct (List.find _ _) as [r|]; [|lia].
  etransitivity; [apply IH|]. rewrite length_upto. lia.
Qed.

(** A string that [TrimSpace] leaves as it is, and is not empty, has no
    space rune at either end. *)
Lemma trimmed_ends s :
  TrimSpace s = s -> s <> "" -> noSpacePrefix s /\ noSpaceSuffix s.
Proof.
  intros Ht Hne. unfold TrimSpace in Ht.
  assert (Hpos : 0 < len s) by (destruct s; [contradiction|unfold len; simpl; lia]).
  pose proof (len_trimLeftSpace (len s) s) as Hl.
  pose proof (len_trimRightSpace (len (trimLeftSpace (len s) s))
                (trimLeftSpace (len s) s)) as Hr.
  rewrite Ht in Hr.
  assert (Hp : noSpacePrefix s).
  { apply find_None. destruct (len s) as [|n] eqn:En; [lia|].
    rewrite trimLeftSpace_S in Hl, Hr.
    destruct (List.find (HasPrefix s) spaceRunes) as [r|] eqn:Ef; [|reflexivity].
    exfalso. apply find_some in Ef as [Hin Hpre].
    apply spaceRunes_nonempty in Hin.
    pose proof (len_trimLeftSpace n (from (len r) s)) as Hl'.
    rewrite length_from in Hl'.
    assert (0 < len r) by (destruct r; [contradiction|unfold len; simpl; lia]).
    lia. }
  split; [exact Hp|].
  rewrite (trimLeftSpace_fix _ _ Hp) in Ht.
  apply find_None. destruct (len s) as [|n] eqn:En; [lia|].
  rewrite trimRightSpace_S in Ht.
  destruct (List.find (HasSuffix s) spaceRunes) as [r|] eqn:Ef; [|reflexivity].
  exfalso. apply find_some in Ef as [Hin Hsuf].
  apply spaceRunes_nonempty in Hin.
  pose proof (len_trimRightSpace n (upto (len s - len r) s)) as Hl'.
  rewrite Ht, length_upto in Hl'.
  assert (0 < len r) by (destruct r; [contradiction|unfold len; simpl; lia]).
  lia.
Qed.

Lemma inCutset_upto c p b k :
  len p < k -> inCutset c (upto k (p +:+ String c b)) = true.
Proof.
  revert k. induction p as [|x p IH]; intros [|k] H; try (unfold len in H; simpl in H; lia).
  - simpl. now rewrite Ascii.eqb_refl.
  - rewrite append_cons. simpl. rewrite IH; [apply orb_true_r|].
    unfold len in *. simpl in H. lia.
Qed.

Lemma noSpacePrefix_app a c b :
  noSpacePrefix a -> a <> "" -> innerByte c = true ->
  noSpacePrefix (a +:+ String c b).
Proof.
  intros Ha Hne Hc. apply Forall_forall. intros r Hr.
  apply HasPrefix_false. intros [t H]. symmetry in H.
  destruct (prefix_split _ _ _ _ _ H) as [[a2 Ha2]|[p2 Hp2]].
  - unfold noSpacePrefix in Ha. rewrite Forall_forall in Ha.
    specialize (Ha r Hr). apply HasPrefix_false in Ha. apply Ha. now exists a2.
  - unfold innerByte in Hc. rewrite forallb_forall in Hc.
    apply list_elem_of_In in Hr. specialize (Hc r Hr).
    apply andb_true_iff in Hc as [Hc _].
    destruct a as [|x a]; [contradiction|]. subst r.
    rewrite append_cons in Hc. simpl in Hc.
    rewrite inCutset_append in Hc. simpl in Hc.
    rewrite Ascii.eqb_refl, orb_true_r in Hc. discriminate.
Qed.

Lemma noSpaceSuffix_app a c b :
  noSpaceSuffix b -> b <> "" -> innerByte c = true ->
  noSpaceSuffix (a +:+ String c b).
Proof.
  intros Hb Hne Hc. apply Forall_forall. intros r Hr.
  apply HasSuffix_false. intros [t H]. symmetry in H.
  destruct (suffix_split _ _ _ _ _ H) as [[b2 Hb2]|[p1 Hp1]].
  - unfold noSpaceSuffix in Hb. rewrite Forall_forall in Hb.
    specialize (Hb r Hr). apply HasSuffix_false in Hb. apply Hb. now exists b2.
  - unfold innerByte in Hc. rewrite forallb_forall in Hc.
    apply list_elem_of_In in Hr. specialize (Hc r Hr).
    apply andb_true_iff in Hc as [_ Hc]. subst r.
    rewrite inCutset_upto in Hc; [discriminate|].
    rewrite len_append. destruct b as [|y b]; [contradiction|].
    unfold len. simpl. lia.
Qed.

(** ** Words, [Split] and [Join] *)

Lemma isPlain_spec e :
  isPlain e = true ->
  e <> "" /\ TrimSpace e = e /\ inCutset " " e = false /\
  noSpacePrefix e /\ noSpaceSuffix e.
Proof.
  unfold isPlain. rewrite !andb_true_iff, !negb_true_iff.
  intros [[H1 H2] H3]. apply String.eqb_neq in H1. apply String.eqb_eq in H2.
  destruct (trimmed_ends e H2 H1). auto.
Qed.

Lemma isWord_spec e :
  isWord e = true ->
  isPlain e = true /\ HasPrefix e "-" = false /\ HasPrefix e "[" = false /\
  HasSuffix e "]" = false.
Proof.
  unfold isWord. rewrite !andb_true_iff, !negb_true_iff. tauto.
Qed.

Lemma isWord_not_flag e : isWord e = true -> isFlag e = false.
Proof.
  intros H. apply isWord_spec in H as (_ & H & _). unfold isFlag. now rewrite H.
Qed.

Lemma isWord_not_ignored e : isWord e = true -> isIgnored e = false.
Proof.
  intros H. destruct (isIgnored e) eqn:E; [|reflexivity].
  unfold isIgnored in E.
  apply orb_true_iff in E as [E|E]; [apply orb_true_iff in E as [E|E]|];
    apply String.eqb_eq in E; subst e; vm_compute in H; discriminate H.
Qed.

Lemma Split_plain s sep : inCutset sep s = false -> Split s sep = [s].
Proof.
  induction s as [|a s IH]; [reflexivity|]. simpl.
  rewrite orb_false_iff. intros [Ha Hs]. rewrite Ascii.eqb_sym in Ha.
  now rewrite Ha, (IH Hs).
Qed.

Lemma Split_app a b sep :
  inCutset sep a = false -> Split (a +:+ String sep b) sep = a :: Split b sep.
Proof.
  induction a as [|x a IH].
  - intros _. change ("" +:+ String sep b) with (String sep b). simpl.
    now rewrite Ascii.eqb_refl.
  - simpl. rewrite orb_false_iff. intros [Hx Ha]. rewrite Ascii.eqb_sym in Hx.
    now rewrite Hx, (IH Ha).
Qed.

Lemma Join_cons w w' rest sep :
  Join (w :: w' :: rest) sep = w +:+ sep +:+ Join (w' :: rest) sep.
Proof. reflexivity. Qed.

Lemma Split_Join ws :
  ws <> [] -> Forall (fun e => inCutset " " e = false) ws ->
  Split (Join ws " ") " " = ws.
Proof.
  intros Hne H. induction H as [|w ws Hw Hws IH]; [contradiction|].
  destruct ws as [|w' rest]; [now apply Split_plain|].
  rewrite Join_cons. change (" " +:+ ?s) with (String " " s).
  rewrite (Split_app _ _ _ Hw), IH; [reflexivity|discriminate].
Qed.

Lemma Join_snoc_empty ws sep :
  ws <> [] -> Join (ws ++ [""]) sep = Join ws sep +:+ sep.
Proof.
  induction ws as [|w ws IH]; [contradiction|]. intros _.
  destruct ws as [|w' rest].
  - change (Join ([w] ++ [""]) sep) with (w +:+ sep +:+ "").
    now rewrite append_nil_r.
  - change (Join ((w :: w' :: rest) ++ [""]) sep)
      with (w +:+ sep +:+ Join ((w' :: rest) ++ [""]) sep).
    rewrite IH by discriminate.
    rewrite Join_cons, !append_assoc. reflexivity.
Qed.

Lemma innerByte_space : innerByte " " = true.
Proof. reflexivity. Qed.

(** The join of words has no white space at its ends, and no bracket at
    its ends either. *)
Lemma Join_words ws :
  ws <> [] -> Forall (fun e => isWord e = true) ws ->
  noSpacePrefix (Join ws " ") /\ noSpaceSuffix (Join ws " ") /\
  HasPrefix (Join ws " ") "[" = false /\ HasSuffix (Join ws " ") "]" = false /\
  Join ws " " <> "".
Proof.
  intros Hne H. induction H as [|w ws Hw Hws IH]; [contradiction|].
  apply isWord_spec in Hw as (Hp & _ & Hb & He).
  apply isPlain_spec in Hp as (Hw & _ & _ & Hpre & Hsuf).
  destruct ws as [|w' rest]; [simpl; auto 10|].
  destruct IH as (_ & IHs & _ & IHe & IHn); [discriminate|].
  rewrite Join_cons. change (" " +:+ ?s) with (String " " s).
  repeat split.
  - apply noSpacePrefix_app; auto.
  - apply noSpaceSuffix_app; auto.
  - now rewrite HasPrefix_app_nonempty.
  - change (String " " ?s) with (" " +:+ s). rewrite <- append_assoc.
    now rewrite HasSuffix_app_nonempty.
  - intros E. now apply append_empty in E as [? _].
Qed.

Lemma find_space_suffix s :
  List.find (HasSuffix (s +:+ " ")) spaceRunes = Some " ".
Proof.
  assert (H : forall c d, HasSuffix (s +:+ String c "") (String d "") = Ascii.eqb c d).
  { intros c d. destruct (Ascii.eqb_spec c d) as [->|Hcd].
    - apply HasSuffix_snoc.
    - apply HasSuffix_false. intros [t E]. symmetry in E.
      destruct (suffix_split _ _ _ _ _ E) as [[b2 Hb]|[p1 Hp]].
      + symmetry in Hb. now apply append_empty in Hb as [_ ?].
      + destruct p1 as [|y [|z p1]]; try discriminate. injection Hp as ->.
        contradiction. }
  unfold spaceRunes, b1. simpl. rewrite !H. reflexivity.
Qed.

(** [TrimSpace] takes a trailing space byte off the join of words. *)
Lemma TrimSpace_Join_space ws :
  ws <> [] -> Forall (fun e => isWord e = true) ws ->
  TrimSpace (Join ws " " +:+ " ") = Join ws " ".
Proof.
  intros Hne H. destruct (Join_words ws Hne H) as (Hp & Hs & _ & _ & Hn).
  unfold TrimSpace.
  assert (Hp' : noSpacePrefix (Join ws " " +:+ " ")).
  { apply (noSpacePrefix_app _ " " ""); auto. }
  rewrite (trimLeftSpace_fix _ _ Hp'), len_append.
  replace (len (Join ws " ") + len " ") with (S (len (Join ws " ")))
    by (simpl; lia).
  rewrite trimRightSpace_S, find_space_suffix, len_append.
  replace (len (Join ws " ") + len " " - len " ") with (len (Join ws " "))
    by (simpl; lia).
  rewrite upto_append. now apply trimRightSpace_fix.
Qed.

(** ** A bracketed list over several tokens *)

Lemma optWord_words e :
  e = "" \/ isWord e = true -> Forall (fun e => isWord e = true) (optWord e).
Proof.
  unfold optWord. intros [->|H]; [constructor|].
  destruct (String.eqb e ""); repeat constructor. exact H.
Qed.

Lemma TrimSpace_optWord e :
  e = "" \/ isWord e = true -> TrimSpace e = e.
Proof.
  intros [->|H]; [reflexivity|].
  apply isWord_spec in H as (H & _). now apply isPlain_spec in H.
Qed.

Lemma scanList_words mids closer post lst i :
  Forall (fun e => isWord e = true) mids ->
  isListEnd closer = true ->
  scanList (mids ++ closer :: post) lst i = (lst ++ mids, i + length mids).
Proof.
  intros H Hc. revert lst i.
  induction H as [|e mids He _ IH]; intros lst i; simpl.
  - rewrite Hc, andb_false_r, List.app_nil_r, Nat.add_0_r. reflexivity.
  - rewrite (isWord_not_flag _ He).
    apply isWord_spec in He as (Hp & _ & _ & He).
    unfold isListEnd at 1. rewrite He. simpl.
    apply isPlain_spec in Hp as (_ & -> & _).
    rewrite IH, <- List.app_assoc. simpl. f_equal. lia.
Qed.

Lemma words_inCutset ws :
  Forall (fun e => isWord e = true) ws ->
  Forall (fun e => inCutset " " e = false) ws.
Proof.
  intros Hws. eapply Forall_impl; [exact Hws|]. intros e H. simpl in H.
  apply isWord_spec in H as (H & _). now apply isPlain_spec in H.
Qed.

(** The value sequence of the join of words, with or without an empty
    last element. *)
Lemma items_words ws :
  ws <> [] -> Forall (fun e => isWord e = true) ws ->
  Split (TrimSuffix (TrimPrefix (TrimSpace (Join ws " ")) "[") "]") " " = ws.
Proof.
  intros Hne H. destruct (Join_words ws Hne H) as (Hp & Hs & Hb & He & _).
  rewrite (TrimSpace_fix _ Hp Hs), (TrimPrefix_id _ _ Hb), (TrimSuffix_id _ _ He).
  apply Split_Join; [exact Hne|now apply words_inCutset].
Qed.

Lemma items_words_empty_last ws :
  ws <> [] -> Forall (fun e => isWord e = true) ws ->
  Split (TrimSuffix (TrimPrefix (TrimSpace (Join (ws ++ [""]) " ")) "[") "]") " "
    = ws.
Proof.
  intros Hne H. destruct (Join_words ws Hne H) as (Hp & Hs & Hb & He & _).
  rewrite (Join_snoc_empty _ _ Hne), (TrimSpace_Join_space _ Hne H).
  rewrite (TrimPrefix_id _ _ Hb), (TrimSuffix_id _ _ He).
  apply Split_Join; [exact Hne|now apply words_inCutset].
Qed.

Lemma flagValues_list pre arg first mids last post :
  first = "" \/ isWord first = true ->
  Forall (fun e => isWord e = true) mids ->
  last = "" \/ isWord last = true ->
  optWord first ++ mids ++ optWord last <> [] ->
  flagValues (pre ++ arg :: mids ++ (last +:+ "]") :: post) (length pre)
      (String "[" first)
    = Some (optWord first ++ mids ++ optWord last,
            S (length pre + length mids)).
Proof.
  intros Hfirst Hmids Hlast Hne. unfold flagValues.
  assert (Hopen : isList (String "[" first) = true) by reflexivity.
  assert (Hnoend : isListEnd (String "[" first) = false).
  { unfold isListEnd. destruct Hfirst as [->|Hw]; [reflexivity|].
    apply isWord_spec in Hw as (Hp & _ & _ & He).
    apply isPlain_spec in Hp as (Hn & _).
    change (String "[" first) with ("[" +:+ first).
    now rewrite HasSuffix_app_nonempty. }
  rewrite Hopen, Hnoend.
  assert (Hbefore : TrimSpace (TrimLeft (String "[" first) "[") = first).
  { change (TrimLeft (String "[" first) "[") with (TrimLeft first "[").
    rewrite TrimLeft_id; [now apply TrimSpace_optWord|].
    destruct Hfirst as [->|Hw]; [reflexivity|].
    now apply isWord_spec in Hw as (_ & _ & Hb & _). }
  rewrite Hbefore. fold (optWord first).
  assert (Hdrop : drop (S (length pre))
                    (pre ++ arg :: mids ++ (last +:+ "]") :: post)
                  = mids ++ (last +:+ "]") :: post).
  { rewrite drop_app_ge by lia.
    now replace (S (length pre) - length pre) with 1 by lia. }
  pose proof (HasSuffix_snoc last "]") as Hclose.
  rewrite Hdrop, (scanList_words _ _ _ _ _ Hmids Hclose).
  assert (Hlook : (pre ++ arg :: mids ++ (last +:+ "]") :: post)
                    !! S (length pre + length mids) = Some (last +:+ "]")).
  { change (pre ++ arg :: mids ++ (last +:+ "]") :: post)
      with (pre ++ (arg :: mids) ++ (last +:+ "]") :: post).
    rewrite List.app_assoc. apply list_lookup_middle.
    rewrite length_app. simpl. lia. }
  rewrite Hlook. unfold isListEnd at 1. rewrite Hclose.
  rewrite TrimSuffix_snoc, (TrimSpace_optWord _ Hlast).
  f_equal. f_equal.
  assert (Hws : Forall (fun e => isWord e = true) (optWord first ++ mids)).
  { apply Forall_app. split; [now apply optWord_words|exact Hmids]. }
  destruct Hlast as [->|Hw].
  - change (optWord "") with (@nil string) in *. rewrite List.app_nil_r in *.
    now apply items_words_empty_last.
  - unfold optWord at 3. apply isWord_spec in Hw as Hw'.
    destruct Hw' as (Hp & _). apply isPlain_spec in Hp as (Hn & _).
    apply String.eqb_neq in Hn. rewrite Hn.
    rewrite List.app_assoc. apply items_words.
    + intros E. now apply app_eq_nil in E as [_ ?].
    + apply Forall_app. split; [exact Hws|now repeat constructor].
Qed.

(** *** Pieces with brackets at the ends of the list *)



















Lemma isWord_isPiece e : isWord e = true -> isPiece e = true.
Proof.
  intros H. unfold isPiece. rewrite (isWord_not_flag _ H).
  apply isWord_spec in H as (Hp & _ & _ & He).
  unfold isListEnd. rewrite He.
  pose proof (isPlain_spec _ Hp) as (_ & -> & _). now rewrite Hp.
Qed.






(** ** A value with commas outside brackets *)

Lemma innerByte_comma : innerByte "," = true.
Proof. reflexivity. Qed.

(** C2, as the code has it -- For a name word and a value [v1,v2] that is
    not bracketed, parsing ["<name> --k=v1,v2"] succeeds with [Sub] nil and
    [Pairs["k"]] the one-element sequence ["v1,v2"]: a value is split at
    commas only inside brackets. *)
Theorem flag_value_not_split name v1 v2 :
  isWord name = true ->
  isPlain v1 = true -> HasPrefix v1 "[" = false ->
  isPlain v2 = true ->
  Parse (name +:+ " --k=" +:+ v1 +:+ "," +:+ v2) =
    Ok (mkArgv name None "" (Some {[ "k" := [v1 +:+ "," +:+ v2] ]})).
Proof.
  intros Hname Hv1 Hopen Hv2.
  pose proof (isWord_not_flag _ Hname) as Hnf.
  pose proof (isWord_not_ignored _ Hname) as Hni.
  apply isWord_spec in Hname as (Hname & _).
  apply isPlain_spec in Hname as (Hn & _ & Hns & _).
  apply isPlain_spec in Hv1 as (Hn1 & _ & Hs1 & Hp1 & _).
  apply isPlain_spec in Hv2 as (Hn2 & _ & Hs2 & _ & Hx2).
  set (v := v1 +:+ "," +:+ v2).
  set (tok := "--k=" +:+ v).
  assert (Hvs : inCutset " " v = false).
  { unfold v. rewrite !inCutset_append, Hs1, Hs2. reflexivity. }
  assert (Htok : inCutset " " tok = false).
  { unfold tok. rewrite inCutset_append, Hvs. reflexivity. }
  assert (Hv : TrimSpace v = v).
  { apply TrimSpace_fix.
    - apply (noSpacePrefix_app v1 "," v2); auto.
    - apply (noSpaceSuffix_app v1 "," v2); auto. }
  assert (Hvne : String.eqb v "" = false).
  { apply String.eqb_neq. intros E. now apply append_empty in E as [? _]. }
  assert (Hvl : isList v = false).
  { unfold isList, v. now rewrite HasPrefix_app_nonempty. }
  unfold Parse.
  replace (len (name +:+ " --k=" +:+ v) =? 0) with false
    by (destruct name; [contradiction|reflexivity]).
  change (name +:+ " --k=" +:+ v) with (name +:+ String " " tok).
  rewrite (Split_app _ _ _ Hns), (Split_plain _ _ Htok).
  change (length [name; tok]) with 2.
  rewrite parseArgs_S, loop_S. change (length [name; tok] <=? 0) with false.
  rewrite (body_name _ [name; tok] 0 startArgv name eq_refl Hni Hnf).
  change (negb (lenPairs startArgv =? 0)) with false. cbv iota.
  change (length [name; tok]) with 2.
  rewrite loop_S. change (length [name; tok] <=? 1) with false.
  rewrite (body_flag_eq _ [name; tok] 1 _ true tok eq_refl 1 eq_refl eq_refl).
  cbv zeta.
  change (TrimSpace (upto 1 (flagOpt tok))) with "k".
  change (from (1 + 1) (flagOpt tok)) with v.
  rewrite Hv. unfold flagValues. rewrite Hvl, Hvne. cbn [negb].
  change (String.eqb "k" "") with false. cbv iota.
  change (length [v] =? 0) with false. cbv iota.
  unfold setPair. cbn [Pairs withName startArgv withPairs zeroArgv].
  rewrite loop_S. change (length [name; tok] <=? 2) with true. cbv iota.
  unfold withPairs, withName. cbn [Name Sub Text Pairs startArgv withPairs zeroArgv].
  rewrite insert_empty. reflexivity.
Qed.

Lemma flag_value_not_split_witness :
  Parse "p --k=v1,v2" = Ok (mkArgv "p" None "" (Some {[ "k" := ["v1,v2"] ]})).
Proof.
  apply (flag_value_not_split "p" "v1" "v2"); reflexivity.
Defined.

(** C2, as stated, fails -- ["p --k=v1,v2"] gives [Pairs["k"]] the single
    element ["v1,v2"], not the two elements v1 and v2. *)
Lemma flag_value_commas_kept :
  Parse "p --k=v1,v2" = Ok (mkArgv "p" None "" (Some {[ "k" := ["v1,v2"] ]})) /\
  (forall a, Parse "p --k=v1,v2" = Ok a -> getPair a "k" <> Some ["v1"; "v2"]).
Proof.
  assert (H : Parse "p --k=v1,v2" =
              Ok (mkArgv "p" None "" (Some {[ "k" := ["v1,v2"] ]})))
    by (vm_compute; reflexivity).
  split; [exact H|].
  intros a Ha. rewrite H in Ha. injection Ha as <-.
  vm_compute. discriminate.
Qed.

(** * Further properties of the parser *)

(** ** Errors *)

Lemma loop_Fail rec args n i argd w a e :
  (forall l a' e', rec l = Fail a' e' -> e' <> EmptyInput) ->
  loopInv i argd w ->
  loop rec args n i argd w = Fail a e ->
  Sub a = None /\ Text a = "" /\ (exists m, Pairs a = Some m) /\
  e <> EmptyInput.
Proof.
  intros Hrec. revert i argd w.
  induction n as [|n IH]; intros i argd w Hinv Hl; [discriminate|].
  rewrite loop_S in Hl. destruct (length args <=? i); [discriminate|].
  destruct (body rec args i argd w) as [i' argd' w'|o] eqn:Hb.
  - eapply IH; [|exact Hl]. eapply body_preserves; eauto.
  - subst o. apply body_Fail in Hb as (arg & _ & -> & Hb).
    destruct Hinv as [Hs Ht (m & Hm & _) _ _].
    repeat split; eauto.
    destruct Hb as [(-> & _)|[(-> & _)|(_ & _ & _ & a' & Hr)]];
      try discriminate.
    now apply Hrec in Hr.
Qed.

Lemma parseArgs_Fail fuel args a e :
  parseArgs fuel args = Fail a e ->
  Sub a = None /\ Text a = "" /\ (exists m, Pairs a = Some m) /\
  e <> EmptyInput.
Proof.
  revert args a e.
  induction fuel as [|fuel IH]; intros args a e H; [discriminate|].
  rewrite parseArgs_S in H. eapply loop_Fail; [|
    apply (reaches_inv (parseArgs fuel) args); constructor|exact H].
  intros l a' e' Hl. now apply IH in Hl.
Qed.

(** X1 -- [Parse] fails with [EmptyInput] exactly on the empty string,
    and then returns the zero node. *)
Theorem Parse_EmptyInput_iff s :
  (exists a, Parse s = Fail a EmptyInput) <-> s = "".
Proof.
  split.
  - intros [a H]. destruct s as [|c s]; [reflexivity|].
    unfold Parse in H. cbn [len String.length Nat.eqb] in H.
    apply parseArgs_Fail in H. now destruct H as (_ & _ & _ & H).
  - intros ->. now exists zeroArgv.
Qed.

(** X2 -- A node returned together with an error carries no [Sub] and no
    [Text]: what a nested call has built is dropped, only the [Name] and
    the [Pairs] of the level that fails or hands the error on are kept. *)
Theorem Parse_error_node s a e :
  Parse s = Fail a e -> Sub a = None /\ Text a = "".
Proof.
  unfold Parse. destruct (len s =? 0).
  - intros [= <- _]. auto.
  - intros H. apply parseArgs_Fail in H. tauto.
Qed.

Lemma Parse_error_node_witness :
  Sub (withName startArgv "p") = None /\ Text (withName startArgv "p") = "".
Proof.
  apply (Parse_error_node "p q --k=" _ (MissingFlagValue "k=")).
  vm_compute. reflexivity.
Defined.

(** ** Ignorable tokens at the front, and the name *)

Lemma scanList_shift rest lst i :
  scanList rest lst (S i) =
    let '(l, j) := scanList rest lst i in (l, S j).
Proof.
  revert lst i. induction rest as [|t rest IH]; intros lst i; simpl.
  - reflexivity.
  - destruct (negb (isFlag t) && negb (isListEnd t)); [apply IH|reflexivity].
Qed.

Lemma flagValues_shift t args i value :
  flagValues (t :: args) (S i) value =
    match flagValues args i value with
    | Some (vs, j) => Some (vs, S j)
    | None => None
    end.
Proof.
  unfold flagValues.
  destruct (isList value); [|now destruct (negb (String.eqb value ""))].
  destruct (isListEnd value); [reflexivity|].
  change (drop (S (S i)) (t :: args)) with (drop (S i) args).
  rewrite scanList_shift.
  destruct (scanList (drop (S i) args) _ i) as [lst j].
  change ((t :: args) !! S (S j)) with (args !! S j).
  destruct (args !! S j) as [next|]; [|reflexivity].
  now destruct (isListEnd next).
Qed.

Lemma body_shift rec t args i argd w :
  body rec (t :: args) (S i) argd w = shiftCtl (body rec args i argd w).
Proof.
  unfold body. change ((t :: args) !! S i) with (args !! i).
  destruct (args !! i) as [arg|]; [|reflexivity].
  destruct (isIgnored arg); [reflexivity|].
  destruct (negb (isFlag arg) && negb w).
  { now destruct (negb (lenPairs argd =? 0)). }
  destruct (negb (isFlag arg) && w); [reflexivity|].
  destruct (flagParts _) as [[hasEq key] value].
  rewrite flagValues_shift.
  destruct (flagValues args i value) as [[vs j]|]; [|reflexivity].
  change (S i =? S j) with (i =? j).
  unfold setPair.
  repeat match goal with
         | |- context [if ?b then _ else _] => destruct b
         end; try reflexivity; now destruct (Pairs argd).
Qed.

Lemma loop_shift rec t args n i argd w :
  loop rec (t :: args) n (S i) argd w = loop rec args n i argd w.
Proof.
  revert i argd w. induction n as [|n IH]; intros i argd w; [reflexivity|].
  rewrite !loop_S, body_shift.
  change (length (t :: args) <=? S i) with (length args <=? i).
  destruct (length args <=? i); [reflexivity|].
  destruct (body rec args i argd w); [apply IH|reflexivity].
Qed.

Lemma parseArgs_ignored_head fuel t args :
  isIgnored t = true -> parseArgs fuel (t :: args) = parseArgs fuel args.
Proof.
  intros Ht. destruct fuel as [|fuel]; [reflexivity|].
  rewrite !parseArgs_S, loop_S. change (length (t :: args) <=? 0) with false.
  rewrite (body_ignored _ (t :: args) 0 _ _ t eq_refl Ht).
  apply loop_shift.
Qed.

Lemma parseArgs_ignored_front fuel igns args :
  Forall (fun t => isIgnored t = true) igns ->
  parseArgs fuel (igns ++ args) = parseArgs fuel args.
Proof.
  induction 1 as [|t igns Ht _ IH]; [reflexivity|].
  simpl. now rewrite (parseArgs_ignored_head _ _ _ Ht).
Qed.

Lemma String_nonempty_len s : s <> "" -> (len s =? 0) = false.
Proof. now destruct s. Qed.

(** X3 -- An ignorable token in front of an input ("", "-" or "--"
    followed by a space; so also a leading space) changes nothing: the
    rest is parsed as if it stood alone. *)
Theorem Parse_ignored_front t s :
  isIgnored t = true -> s <> "" -> Parse (t +:+ " " +:+ s) = Parse s.
Proof.
  intros Ht Hs. unfold Parse. rewrite (String_nonempty_len _ Hs).
  assert (Hts : inCutset " " t = false).
  { unfold isIgnored in Ht.
    apply orb_true_iff in Ht as [Ht|Ht]; [apply orb_true_iff in Ht as [Ht|Ht]|];
      apply String.eqb_eq in Ht; now subst t. }
  replace (len (t +:+ " " +:+ s) =? 0) with false
    by (destruct t; [reflexivity|reflexivity]).
  change (t +:+ " " +:+ s) with (t +:+ String " " s).
  rewrite (Split_app _ _ _ Hts).
  rewrite (parseArgs_ignored_head _ _ _ Ht).
  change (length (t :: Split s " ")) with (S (length (Split s " "))).
  apply parseArgs_more_fuel. apply parseArgs_terminates. lia.
Qed.

Lemma Parse_ignored_front_witness :
  Parse (" " +:+ "p -h") = Parse "p -h".
Proof.
  apply (Parse_ignored_front "" "p -h"); [reflexivity|discriminate].
Defined.

(** Once the name is set, the loop keeps it. *)
Lemma branch_Name rec args i argd a :
  (branch rec args i i argd = Ok a \/ exists e, branch rec args i i argd = Fail a e) ->
  Name a = Name argd.
Proof.
  unfold branch.
  destruct (drop i args) as [|t [|t' r]];
    try destruct (negb (isFlag t)); try destruct (rec _);
    intros [H|[e0 H]]; try discriminate; now injection H as <-.
Qed.

Lemma loop_named_Name rec args n i argd a :
  (loop rec args n i argd true = Ok a \/
   exists e, loop rec args n i argd true = Fail a e) ->
  Name a = Name argd.
Proof.
  revert i argd. induction n as [|n IH]; intros i argd.
  { intros [H|[e H]]; discriminate. }
  rewrite loop_S. destruct (length args <=? i).
  { intros [H|[e H]]; [now injection H as <-|discriminate]. }
  destruct (body rec args i argd true) as [i' argd' w'|o] eqn:Hb.
  - apply body_Continue in Hb as (_ & _ & _ & Hw & _).
    destruct (Hw eq_refl) as [-> <-]. apply IH.
  - intros H.
    assert (Ho : (exists a', o = Ok a' /\ a' = a) \/ exists e, o = Fail a e).
    { destruct H as [->|[e ->]]; eauto. }
    destruct Ho as [(a' & -> & ->)|[e ->]].
    + apply body_Ok in Hb as (arg & _ & _ & _ & _ & Hbr).
      apply (branch_Name rec args i). now left.
    + apply body_Fail in Hb as (arg & _ & -> & _). reflexivity.
Qed.

Lemma name_is_first_word_aux fuel tok rest a :
  isFlag tok = false -> isIgnored tok = false ->
  (parseArgs fuel (tok :: rest) = Ok a \/
   exists e, parseArgs fuel (tok :: rest) = Fail a e) ->
  Name a = tok.
Proof.
  intros Hf Hi.
  destruct fuel as [|fuel]; [intros [H|[e H]]; discriminate|].
  rewrite parseArgs_S, loop_S. change (length (tok :: rest) <=? 0) with false.
  rewrite (body_name _ (tok :: rest) 0 startArgv tok eq_refl Hi Hf).
  change (negb (lenPairs startArgv =? 0)) with false. cbv iota.
  intros H. now apply loop_named_Name in H.
Qed.

(** X4 -- When the first token that is not ignorable is not a flag, it is
    the [Name] of the node [parseArgs] returns, with or without an
    error. *)
Theorem name_is_first_word fuel igns tok rest a :
  Forall (fun t => isIgnored t = true) igns ->
  isFlag tok = false -> isIgnored tok = false ->
  (parseArgs fuel (igns ++ tok :: rest) = Ok a \/
   exists e, parseArgs fuel (igns ++ tok :: rest) = Fail a e) ->
  Name a = tok.
Proof.
  intros Higns Hf Hi. rewrite (parseArgs_ignored_front _ _ _ Higns).
  now apply name_is_first_word_aux.
Qed.

Lemma name_is_first_word_witness :
  Name (withName startArgv "p") = "p".
Proof.
  apply (name_is_first_word 3 [""; "--"] "p" ["q"; "--k="]
           (withName startArgv "p")); try reflexivity.
  - repeat constructor.
  - right. exists (MissingFlagValue "k="). vm_compute. reflexivity.
Defined.

(** ** Inputs on which [Parse] cannot panic *)

Lemma flagValues_None args i value :
  flagValues args i value = None ->
  isList value = true /\ isListEnd value = false.
Proof.
  unfold flagValues. destruct (isList value).
  - destruct (isListEnd value); [discriminate|auto].
  - destruct (negb (String.eqb value "")); discriminate.
Qed.

Lemma body_Panic rec args i argd w arg :
  args !! i = Some arg ->
  body rec args i argd w = Done Panic ->
  Pairs argd = None \/ opensList arg = true \/ rec (drop i args) = Panic.
Proof.
  intros Harg Hb.
  destruct (isIgnored arg) eqn:Hign.
  { rewrite (body_ignored _ _ _ _ _ _ Harg Hign) in Hb. discriminate. }
  destruct (isFlag arg) eqn:Hflag.
  - unfold opensList. rewrite Hflag.
    destruct (Index (flagOpt arg) "=") as [pos|] eqn:Hidx.
    + rewrite (body_flag_eq _ _ _ _ _ _ Harg _ Hflag Hidx) in Hb. cbv zeta in Hb.
      destruct (flagValues _ _ _) as [[vs j]|] eqn:Hv.
      * destruct (String.eqb _ ""); [discriminate|].
        destruct (length vs =? 0); [discriminate|].
        unfold setPair in Hb. destruct (Pairs argd); [discriminate|auto].
      * apply flagValues_None in Hv as [-> ->]. auto.
    + rewrite (body_flag_bare _ _ _ _ _ _ Harg Hflag Hidx) in Hb.
      unfold setPair in Hb. destruct (Pairs argd); [discriminate|auto].
  - destruct w.
    + rewrite (body_branch _ _ _ _ _ Harg Hign Hflag) in Hb.
      injection Hb as Hb. unfold branch in Hb.
      destruct (drop i args) as [|t [|t' r]];
        try destruct (negb (isFlag t)); try discriminate;
        destruct (rec _); try discriminate; auto.
    + rewrite (body_name _ _ _ _ _ Harg Hign Hflag) in Hb.
      destruct (negb _); discriminate.
Qed.

Lemma loop_no_panic rec args n i argd w :
  Forall (fun t => opensList t = false) args ->
  (forall k, rec (drop k args) <> Panic) ->
  loopInv i argd w ->
  loop rec args n i argd w <> Panic.
Proof.
  intros Hall Hrec. revert i argd w.
  induction n as [|n IH]; intros i argd w Hinv; [discriminate|].
  rewrite loop_S. destruct (Nat.leb_spec (length args) i) as [|Hi]; [discriminate|].
  destruct (body rec args i argd w) as [i' argd' w'|o] eqn:Hb.
  - apply IH. eapply body_preserves; eauto.
  - intros ->.
    destruct (lookup_lt_is_Some_2 args i Hi) as [arg Harg].
    destruct (body_Panic _ _ _ _ _ _ Harg Hb) as [Hp|[Ho|Hr]].
    + destruct (inv_pairs _ _ _ Hinv) as (m & Hm & _). congruence.
    + rewrite Forall_lookup in Hall. specialize (Hall _ _ Harg).
      simpl in Hall. congruence.
    + now apply Hrec in Hr.
Qed.

Lemma parseArgs_no_panic fuel args :
  Forall (fun t => opensList t = false) args ->
  parseArgs fuel args <> Panic.
Proof.
  revert args. induction fuel as [|fuel IH]; intros args Hall; [discriminate|].
  rewrite parseArgs_S. apply loop_no_panic; [exact Hall| |].
  - intros k. apply IH. now apply Forall_drop.
  - apply (reaches_inv (parseArgs fuel) args). constructor.
Qed.

(** X5 -- When no token of the input is a flag that opens a bracketed list
    without closing it in the same token, [Parse] does not panic: it
    returns a node, with a nil error or with an error. *)
Theorem Parse_returns s :
  Forall (fun t => opensList t = false) (Split s " ") ->
  (exists a, Parse s = Ok a) \/ (exists a e, Parse s = Fail a e).
Proof.
  intros Hall.
  pose proof (Parse_terminates s) as Ht.
  assert (Hp : Parse s <> Panic).
  { unfold Parse. destruct (len s =? 0); [discriminate|].
    now apply parseArgs_no_panic. }
  destruct (Parse s); [left|right| |]; eauto; contradiction.
Qed.

Lemma Parse_returns_witness :
  (exists a, Parse "p --k=[a,b] -h q r" = Ok a) \/
  (exists a e, Parse "p --k=[a,b] -h q r" = Fail a e).
Proof.
  apply (Parse_returns "p --k=[a,b] -h q r").
  vm_compute. repeat constructor.
Defined.

(** ** A chain of sub-commands *)

Lemma parseArgs_words fuel ws :
  Forall (fun e => isWord e = true) ws -> length ws < fuel ->
  parseArgs fuel ws = Ok (chain ws).
Proof.
  revert ws. induction fuel as [|fuel IH]; intros ws Hws Hlen; [lia|].
  destruct ws as [|w rest]; [reflexivity|].
  inversion Hws as [|? ? Hw Hrest]; subst.
  rewrite parseArgs_S, loop_S. change (length (w :: rest) <=? 0) with false.
  rewrite (body_name _ (w :: rest) 0 startArgv w eq_refl
             (isWord_not_ignored _ Hw) (isWord_not_flag _ Hw)).
  change (negb (lenPairs startArgv =? 0)) with false. cbv iota.
  destruct rest as [|t rest]; [reflexivity|].
  inversion Hrest as [|? ? Ht Hrest']; subst.
  cbn [length]. rewrite loop_S.
  change (length (w :: t :: rest) <=? 1) with false.
  rewrite (body_branch _ (w :: t :: rest) 1 _ t eq_refl
             (isWord_not_ignored _ Ht) (isWord_not_flag _ Ht)).
  destruct rest as [|t' rest].
  - rewrite (branch_leaf _ [w; t] 1 _ t eq_refl eq_refl (isWord_not_flag _ Ht)).
    reflexivity.
  - rewrite (branch_rec _ (w :: t :: t' :: rest) 1 _ t eq_refl)
      by (simpl; lia).
    change (drop 1 (w :: t :: t' :: rest)) with (t :: t' :: rest).
    rewrite IH; [reflexivity|exact Hrest|simpl in *; lia].
Qed.

(** X6 -- An input of words separated by single spaces parses into the
    chain of sub-commands: each word but the last two is the [Name] of a
    node whose [Sub] is the node of the words after it and whose [Text] is
    these words joined by spaces; the last but one word is the [Name] of
    the innermost node and the last word its [Text]. *)
Theorem Parse_words ws :
  ws <> [] -> Forall (fun e => isWord e = true) ws ->
  Parse (Join ws " ") = Ok (chain ws).
Proof.
  intros Hne Hws. unfold Parse.
  destruct (Join_words ws Hne Hws) as (_ & _ & _ & _ & Hj).
  rewrite (String_nonempty_len _ Hj).
  rewrite (Split_Join ws Hne (words_inCutset _ Hws)).
  apply parseArgs_words; [exact Hws|lia].
Qed.

Lemma Parse_words_witness :
  Parse "tool sub1 sub2 text" =
    Ok (mkArgv "tool"
          (Some (mkArgv "sub1"
                   (Some (mkArgv "sub2" None "text" (Some ∅)))
                   "sub2 text" (Some ∅)))
          "sub1 sub2 text" (Some ∅)).
Proof.
  apply (Parse_words ["tool"; "sub1"; "sub2"; "text"]);
    [discriminate|repeat constructor].
Defined.

(** ** Flags of one token each, in a row *)

Lemma isKey_spec k :
  isKey k = true ->
  isPlain k = true /\ inCutset "=" k = false /\ HasPrefix k "-" = false.
Proof. unfold isKey. rewrite !andb_true_iff, !negb_true_iff. tauto. Qed.

Lemma isElem_spec e :
  isElem e = true ->
  inCutset " " e = false /\ inCutset "," e = false /\
  inCutset "[" e = false /\ inCutset "]" e = false.
Proof. unfold isElem. rewrite !andb_true_iff, !negb_true_iff. tauto. Qed.

Lemma flagOpt_dashes_word n s :
  HasPrefix s "-" = false -> flagOpt (dashes n +:+ s) = s.
Proof.
  intros H. induction n as [|n IH]; [|exact IH].
  now apply TrimLeft_id.
Qed.

Lemma isFlag_dashes_word n s :
  s <> "" -> HasPrefix s "-" = false -> isFlag (dashes (S n) +:+ s) = true.
Proof.
  intros Hne H. unfold isFlag.
  change (TrimLeft (dashes (S n) +:+ s) "-") with (flagOpt (dashes (S n) +:+ s)).
  rewrite (flagOpt_dashes_word _ _ H).
  apply String.eqb_neq in Hne. now rewrite Hne.
Qed.

Lemma Index_None s c : inCutset c s = false -> Index s c = None.
Proof.
  induction s as [|a s IH]; [reflexivity|]. simpl.
  rewrite orb_false_iff. intros [Ha Hs]. rewrite Ascii.eqb_sym in Ha.
  now rewrite Ha, (IH Hs).
Qed.

Lemma Index_append k c v :
  inCutset c k = false -> Index (k +:+ String c v) c = Some (len k).
Proof.
  induction k as [|a k IH].
  - intros _. change ("" +:+ String c v) with (String c v). simpl.
    now rewrite Ascii.eqb_refl.
  - simpl. rewrite orb_false_iff. intros [Ha Hk]. rewrite Ascii.eqb_sym in Ha.
    now rewrite Ha, (IH Hk).
Qed.

Lemma from_append_cons k c v : from (len k + 1) (k +:+ String c v) = v.
Proof.
  induction k as [|a k IH]; [now destruct v|]. exact IH.
Qed.

Lemma HasPrefix_inCutset s c :
  inCutset c s = false -> HasPrefix s (String c "") = false.
Proof.
  destruct s as [|a s]; [reflexivity|]. simpl.
  rewrite orb_false_iff. intros [Ha _]. now rewrite Ha.
Qed.

Lemma HasSuffix_inCutset s c :
  inCutset c s = false -> HasSuffix s (String c "") = false.
Proof.
  intros H. apply HasSuffix_false. intros [t ->].
  rewrite inCutset_append in H. simpl in H.
  now rewrite Ascii.eqb_refl, orb_true_r in H.
Qed.

Lemma inCutset_dashes c n : Ascii.eqb c "-" = false -> inCutset c (dashes n) = false.
Proof. intros H. induction n as [|n IH]; [reflexivity|]. simpl. now rewrite H. Qed.

Lemma inCutset_Join c es sep :
  inCutset c sep = false ->
  Forall (fun e => inCutset c e = false) es ->
  inCutset c (Join es sep) = false.
Proof.
  intros Hsep H. induction H as [|e es He _ IH]; [reflexivity|].
  destruct es as [|e' es]; [exact He|].
  rewrite Join_cons, !inCutset_append, He, Hsep, IH. reflexivity.
Qed.

Lemma Split_Join_sep es sep :
  es <> [] -> Forall (fun e => inCutset sep e = false) es ->
  Split (Join es (String sep "")) sep = es.
Proof.
  intros Hne H. induction H as [|w ws Hw Hws IH]; [contradiction|].
  destruct ws as [|w' rest]; [now apply Split_plain|].
  rewrite Join_cons. change (String sep "" +:+ ?s) with (String sep s).
  rewrite (Split_app _ _ _ Hw), IH; [reflexivity|discriminate].
Qed.

Lemma TrimRight_snoc s c :
  HasSuffix s (String c "") = false ->
  TrimRight (s +:+ String c "") (String c "") = s.
Proof.
  induction s as [|x s IH]; intros H.
  - simpl. now rewrite Ascii.eqb_refl.
  - rewrite append_cons. cbn [TrimRight].
    destruct s as [|y s].
    + change ("" +:+ String c "") with (String c ""). cbn [TrimRight inCutset].
      rewrite Ascii.eqb_refl. cbn [orb].
      assert (Hx : Ascii.eqb x c = false).
      { destruct (Ascii.eqb_spec x c) as [->|]; [|reflexivity].
        pose proof (HasSuffix_snoc "" c) as E.
        change ("" +:+ String c "") with (String c "") in E. congruence. }
      now rewrite Hx.
    + rewrite IH; [reflexivity|].
      change (String x (String y s)) with (String x "" +:+ String y s) in H.
      now rewrite HasSuffix_app_nonempty in H.
Qed.

Lemma noSpacePrefix_head c b : outerByte c = true -> noSpacePrefix (String c b).
Proof.
  intros Hc. apply Forall_forall. intros r Hr. apply list_elem_of_In in Hr.
  apply HasPrefix_false. intros [t H].
  unfold outerByte in Hc. rewrite forallb_forall in Hc.
  specialize (Hc r Hr). apply spaceRunes_nonempty in Hr.
  destruct r as [|x r]; [contradiction|].
  rewrite append_cons in H. injection H as -> _.
  simpl in Hc. now rewrite Ascii.eqb_refl in Hc.
Qed.

Lemma noSpaceSuffix_last a c :
  outerByte c = true -> noSpaceSuffix (a +:+ String c "").
Proof.
  intros Hc. apply Forall_forall. intros r Hr. apply list_elem_of_In in Hr.
  apply HasSuffix_false. intros [t H]. symmetry in H.
  unfold outerByte in Hc. rewrite forallb_forall in Hc.
  specialize (Hc r Hr). apply spaceRunes_nonempty in Hr.
  destruct (suffix_split _ _ _ _ _ H) as [[b2 Hb]|[p1 ->]].
  - symmetry in Hb. apply append_empty in Hb as [_ Hb]. contradiction.
  - rewrite inCutset_append in Hc. simpl in Hc.
    rewrite Ascii.eqb_refl, orb_true_r in Hc. discriminate.
Qed.

(** The value sequence of a list closed in its own token. *)
Lemma flagValues_commas args i es :
  es <> [] -> Forall (fun e => isElem e = true) es ->
  flagValues args i (String "[" (Join es "," +:+ "]")) = Some (es, i).
Proof.
  intros Hne Hes.
  assert (Hc : Forall (fun e => inCutset "," e = false) es).
  { eapply Forall_impl; [exact Hes|]. intros e He. now apply isElem_spec in He. }
  assert (Ho : inCutset "[" (Join es ",") = false).
  { apply inCutset_Join; [reflexivity|].
    eapply Forall_impl; [exact Hes|]. intros e He. now apply isElem_spec in He. }
  assert (Hcl : inCutset "]" (Join es ",") = false).
  { apply inCutset_Join; [reflexivity|].
    eapply Forall_impl; [exact Hes|]. intros e He. now apply isElem_spec in He. }
  set (J := Join es ",") in *.
  assert (Hv : TrimSpace (String "[" (J +:+ "]")) = String "[" (J +:+ "]")).
  { apply TrimSpace_fix; [now apply noSpacePrefix_head|].
    change (String "[" (J +:+ "]")) with ((String "[" J) +:+ "]").
    now apply noSpaceSuffix_last. }
  unfold flagValues.
  replace (isList (String "[" (J +:+ "]"))) with true by reflexivity.
  replace (isListEnd (String "[" (J +:+ "]"))) with true.
  2:{ symmetry. change (String "[" (J +:+ "]")) with ((String "[" J) +:+ "]").
      apply HasSuffix_snoc. }
  rewrite Hv.
  change (TrimLeft (String "[" (J +:+ "]")) "[") with (TrimLeft (J +:+ "]") "[").
  rewrite TrimLeft_id.
  2:{ apply HasPrefix_inCutset. rewrite inCutset_append, Ho. reflexivity. }
  rewrite TrimRight_snoc by now apply HasSuffix_inCutset.
  unfold J. now rewrite (Split_Join_sep es "," Hne Hc).
Qed.

Lemma TrimSpace_bracketed J :
  TrimSpace (String "[" (J +:+ "]")) = String "[" (J +:+ "]").
Proof.
  apply TrimSpace_fix; [now apply noSpacePrefix_head|].
  change (String "[" (J +:+ "]")) with ((String "[" J) +:+ "]").
  now apply noSpaceSuffix_last.
Qed.

Lemma withPairs_same argd m : Pairs argd = Some m -> withPairs argd m = argd.
Proof. destruct argd. simpl. now intros ->. Qed.

(** The iteration at a flag of one token enters it into the map and goes
    on with the next token. *)
Lemma body_item rec args i argd w it m :
  args !! i = Some (token it) -> itemOk it = true -> Pairs argd = Some m ->
  body rec args i argd w = Continue i (withPairs argd (enter m it)) w.
Proof.
  intros Harg Hok Hm. destruct it as [n f|n k v|n k es]; unfold itemOk in Hok.
  - apply isKey_spec in Hok as (Hp & Heq & Hd).
    apply isPlain_spec in Hp as (Hne & _).
    rewrite (body_flag_bare _ _ _ _ _ _ Harg (isFlag_dashes_word n f Hne Hd)).
    + unfold token. rewrite (flagOpt_dashes_word _ _ Hd).
      unfold setPair. now rewrite Hm.
    + unfold token. rewrite (flagOpt_dashes_word _ _ Hd). now apply Index_None.
  - apply andb_true_iff in Hok as [Hok Hb].
    apply andb_true_iff in Hok as [Hk Hv].
    apply negb_true_iff in Hb.
    apply isKey_spec in Hk as (Hp & Heq & Hd).
    apply isPlain_spec in Hp as (Hne & Hkt & _).
    apply isPlain_spec in Hv as (Hvne & Hvt & _).
    assert (Hd' : HasPrefix (k +:+ String "=" v) "-" = false)
      by now rewrite HasPrefix_app_nonempty.
    assert (Hne' : k +:+ String "=" v <> "")
      by (intros E; now apply append_empty in E as [? _]).
    rewrite (body_flag_eq _ _ _ _ _ _ Harg (len k)
               (isFlag_dashes_word n _ Hne' Hd')).
    2:{ unfold token. rewrite (flagOpt_dashes_word _ _ Hd').
        now apply Index_append. }
    unfold token. rewrite (flagOpt_dashes_word _ _ Hd'). cbv zeta.
    rewrite upto_append, from_append_cons, Hkt, Hvt.
    apply String.eqb_neq in Hne, Hvne. rewrite Hne.
    unfold flagValues, isList. rewrite Hb, Hvne. cbn [negb length Nat.eqb].
    unfold setPair. now rewrite Hm.
  - apply andb_true_iff in Hok as [Hok Hes].
    apply andb_true_iff in Hok as [Hk Hl].
    apply negb_true_iff, Nat.eqb_neq in Hl.
    assert (Hnil : es <> []) by (intros ->; now apply Hl).
    rewrite forallb_forall in Hes.
    assert (Hall : Forall (fun e => isElem e = true) es).
    { apply Forall_forall. intros e He. apply Hes. now apply list_elem_of_In. }
    apply isKey_spec in Hk as (Hp & Heq & Hd).
    apply isPlain_spec in Hp as (Hne & Hkt & _).
    set (value := String "[" (Join es "," +:+ "]")) in *.
    assert (Hd' : HasPrefix (k +:+ String "=" value) "-" = false)
      by now rewrite HasPrefix_app_nonempty.
    assert (Hne' : k +:+ String "=" value <> "")
      by (intros E; now apply append_empty in E as [? _]).
    rewrite (body_flag_eq _ _ _ _ _ _ Harg (len k)
               (isFlag_dashes_word n _ Hne' Hd')).
    2:{ unfold token. fold value. rewrite (flagOpt_dashes_word _ _ Hd').
        now apply Index_append. }
    unfold token. fold value. rewrite (flagOpt_dashes_word _ _ Hd'). cbv zeta.
    rewrite upto_append, from_append_cons, Hkt.
    unfold value at 1. rewrite TrimSpace_bracketed.
    rewrite (flagValues_commas args i es Hnil Hall).
    apply String.eqb_neq in Hne. rewrite Hne.
    destruct es as [|e es]; [contradiction|]. cbn [length Nat.eqb].
    unfold setPair. now rewrite Hm.
Qed.

Lemma loop_items rec args items :
  forall i argd m w n,
    (forall k it, items !! k = Some it -> args !! (i + k) = Some (token it)) ->
    length args = i + length items ->
    Forall (fun it => itemOk it = true) items ->
    Pairs argd = Some m -> length items < n ->
    loop rec args n i argd w = Ok (withPairs argd (foldl enter m items)).
Proof.
  induction items as [|it items IH]; intros i argd m w n Hlook Hlen Hok Hm Hn.
  - destruct n as [|n]; [simpl in Hn; lia|]. rewrite loop_S.
    simpl in Hlen. destruct (Nat.leb_spec (length args) i); [|lia].
    simpl. now rewrite withPairs_same.
  - destruct n as [|n]; [simpl in Hn; lia|]. rewrite loop_S.
    simpl in Hlen. destruct (Nat.leb_spec (length args) i); [lia|].
    inversion Hok as [|? ? Hit Hok']; subst.
    assert (Harg : args !! i = Some (token it)).
    { specialize (Hlook 0 it eq_refl). now rewrite Nat.add_0_r in Hlook. }
    rewrite (body_item _ _ _ _ _ _ _ Harg Hit Hm).
    rewrite (IH (S i) _ (enter m it) w n); try reflexivity; auto.
    + intros k it' Hk. specialize (Hlook (S k) it' Hk).
      now replace (S i + k) with (i + S k) by lia.
    + lia.
    + simpl in Hn. lia.
Qed.

Lemma token_no_space it : itemOk it = true -> inCutset " " (token it) = false.
Proof.
  destruct it as [n f|n k v|n k es]; unfold itemOk, token; intros Hok.
  - apply isKey_spec in Hok as (Hp & _). apply isPlain_spec in Hp as (_ & _ & Hs & _).
    rewrite inCutset_append, Hs, inCutset_dashes by reflexivity. reflexivity.
  - apply andb_true_iff in Hok as [Hok _].
    apply andb_true_iff in Hok as [Hk Hv].
    apply isKey_spec in Hk as (Hp & _). apply isPlain_spec in Hp as (_ & _ & Hs & _).
    apply isPlain_spec in Hv as (_ & _ & Hvs & _).
    rewrite !inCutset_append, Hs, inCutset_dashes by reflexivity.
    simpl. now rewrite Hvs.
  - apply andb_true_iff in Hok as [Hok Hes].
    apply andb_true_iff in Hok as [Hk _].
    apply isKey_spec in Hk as (Hp & _). apply isPlain_spec in Hp as (_ & _ & Hs & _).
    rewrite forallb_forall in Hes.
    assert (Hj : inCutset " " (Join es ",") = false).
    { apply inCutset_Join; [reflexivity|]. apply Forall_forall. intros e He.
      apply list_elem_of_In, Hes in He. now apply isElem_spec in He. }
    rewrite !inCutset_append, Hs, inCutset_dashes by reflexivity.
    simpl. rewrite inCutset_append, Hj. reflexivity.
Qed.

Lemma parseArgs_items fuel name items :
  isWord name = true -> Forall (fun it => itemOk it = true) items ->
  S (length items) < fuel ->
  parseArgs fuel (name :: map token items) =
    Ok (mkArgv name None "" (Some (foldl enter ∅ items))).
Proof.
  intros Hname Hok Hfuel. destruct fuel as [|fuel]; [lia|].
  rewrite parseArgs_S, loop_S.
  change (length (name :: map token items) <=? 0) with false.
  rewrite (body_name _ (name :: map token items) 0 startArgv name eq_refl
             (isWord_not_ignored _ Hname) (isWord_not_flag _ Hname)).
  change (negb (lenPairs startArgv =? 0)) with false. cbv iota.
  rewrite (loop_items _ _ items 1 _ ∅ true); try reflexivity; auto.
  - intros k it Hk. change ((name :: map token items) !! (1 + k))
      with (map token items !! k).
    change (map token items) with (token <$> items).
    now rewrite list_lookup_fmap, Hk.
  - simpl. now rewrite length_map.
  - simpl. rewrite length_map. lia.
Qed.

Lemma Split_tokens name items :
  isWord name = true -> Forall (fun it => itemOk it = true) items ->
  Join (name :: map token items) " " <> "" /\
  Split (Join (name :: map token items) " ") " " = name :: map token items.
Proof.
  intros Hname Hok.
  assert (Hsp : Forall (fun e => inCutset " " e = false)
                  (name :: map token items)).
  { constructor.
    - apply isWord_spec in Hname as (Hp & _). now apply isPlain_spec in Hp.
    - apply Forall_map. eapply Forall_impl; [exact Hok|].
      intros it. apply token_no_space. }
  split; [|apply Split_Join; [discriminate|exact Hsp]].
  apply isWord_spec in Hname as (Hp & _). apply isPlain_spec in Hp as (Hn & _).
  destruct (map token items); [exact Hn|].
  rewrite Join_cons. intros E. now apply append_empty in E as [? _].
Qed.

(** X7 -- A name followed by flags of one token each ([-name],
    [--key=value], [--key=[e1,...,ek]]), separated by single spaces, parses
    into a single node: the name, no [Sub], no [Text], and the map that
    results from entering the flags one after the other, a switch with the
    value "true", a value as it stands, a bracketed list split at its
    commas. *)
Theorem Parse_flags name items :
  isWord name = true -> Forall (fun it => itemOk it = true) items ->
  Parse (Join (name :: map token items) " ") =
    Ok (mkArgv name None "" (Some (foldl enter ∅ items))).
Proof.
  intros Hname Hok. unfold Parse.
  destruct (Split_tokens name items Hname Hok) as [Hne ->].
  rewrite (String_nonempty_len _ Hne).
  apply parseArgs_items; auto. simpl. rewrite length_map. lia.
Qed.

Lemma Parse_flags_witness :
  Parse "p -v --k=1 --dirs=[a,,b] --k=2" =
    Ok (mkArgv "p" None ""
          (Some (<["k" := ["2"]]> (<["dirs" := ["a"; ""; "b"]]>
                  (<["k" := ["1"]]> (<["v" := ["true"]]> ∅)))))).
Proof.
  apply (Parse_flags "p" [Switch 0 "v"; Assign 1 "k" "1";
                            AssignList 1 "dirs" ["a"; ""; "b"];
                            Assign 1 "k" "2"]);
    [reflexivity|repeat constructor].
Defined.

Lemma foldl_enter_other items : forall m k,
  Forall (fun j => itemKey j <> k) items ->
  foldl enter m items !! k = m !! k.
Proof.
  induction items as [|it items IH]; intros m k H; [reflexivity|].
  inversion H as [|? ? Hit Hrest]; subst. simpl.
  rewrite (IH _ _ Hrest). unfold enter. now rewrite lookup_insert_ne.
Qed.

Lemma foldl_enter_last pre it post m :
  Forall (fun j => itemKey j <> itemKey it) post ->
  foldl enter m (pre ++ it :: post) !! itemKey it = Some (itemValues it).
Proof.
  intros H. rewrite foldl_app. simpl.
  rewrite (foldl_enter_other _ _ _ H). unfold enter. apply lookup_insert_eq.
Qed.

(** X8 -- Among such flags the last one with a key decides: [Pairs] binds
    the key to the values of the last flag that has it, earlier flags with
    the same key are overwritten, and a key that no flag has is not in
    [Pairs]. *)
Theorem Parse_flags_last_wins name pre it post :
  isWord name = true ->
  Forall (fun it => itemOk it = true) (pre ++ it :: post) ->
  Forall (fun j => itemKey j <> itemKey it) post ->
  exists a,
    Parse (Join (name :: map token (pre ++ it :: post)) " ") = Ok a /\
    getPair a (itemKey it) = Some (itemValues it) /\
    forall k, Forall (fun j => itemKey j <> k) (pre ++ it :: post) ->
              HasKV a k = false.
Proof.
  intros Hname Hok Hlast. eexists. split.
  { unfold Parse. destruct (Split_tokens name _ Hname Hok) as [Hne ->].
    rewrite (String_nonempty_len _ Hne).
    apply parseArgs_items; auto. simpl. rewrite length_map. lia. }
  unfold getPair, HasKV, getPair. cbn [Pairs]. split.
  - now apply foldl_enter_last.
  - intros k Hk. rewrite (foldl_enter_other _ _ _ Hk), lookup_empty.
    apply bool_decide_eq_false. now intros [? ?].
Qed.

Lemma Parse_flags_last_wins_witness :
  exists a,
    Parse "p --k=1 -v --k=2 -q" = Ok a /\
    getPair a "k" = Some ["2"] /\
    forall k, Forall (fun j => itemKey j <> k)
                ([Assign 1 "k" "1"; Switch 0 "v"] ++
                   Assign 1 "k" "2" :: [Switch 0 "q"]) ->
              HasKV a k = false.
Proof.
  apply (Parse_flags_last_wins "p" [Assign 1 "k" "1"; Switch 0 "v"]
           (Assign 1 "k" "2") [Switch 0 "q"]).
  - reflexivity.
  - repeat constructor.
  - repeat constructor. discriminate.
Defined.

(** X9 -- A bracketed list closed in the token that opens it,
    [--key=[e1,...,ek]], is split at its commas and takes no further token:
    the iteration stores the elements (empty ones included) under the key
    and goes on with the next token, whatever follows. *)
Theorem list_in_one_token rec args i argd w n k es m :
  args !! i = Some (token (AssignList n k es)) ->
  isKey k = true -> es <> [] -> Forall (fun e => isElem e = true) es ->
  Pairs argd = Some m ->
  body rec args i argd w = Continue i (withPairs argd (<[k := es]> m)) w.
Proof.
  intros Harg Hk Hne Hes Hm.
  apply (body_item rec args i argd w (AssignList n k es) m Harg); [|exact Hm].
  simpl. rewrite Hk. destruct es as [|e es]; [contradiction|].
  cbn [length Nat.eqb negb andb].
  apply forallb_forall. intros x Hx. rewrite Forall_forall in Hes.
  apply Hes. now apply list_elem_of_In.
Qed.

Lemma list_in_one_token_witness :
  body (parseArgs 0) ["p"; "--k=[a,,b]"; "c]"] 1 (withName startArgv "p") true =
    Continue 1 (withPairs (withName startArgv "p")
                  (<["k" := ["a"; ""; "b"]]> ∅)) true.
Proof.
  apply (list_in_one_token (parseArgs 0) ["p"; "--k=[a,,b]"; "c]"] 1
           (withName startArgv "p") true 1 "k" ["a"; ""; "b"] ∅);
    try reflexivity; [discriminate|repeat constructor].
Defined.

(** ** Names and texts come from the input *)

Lemma Join_String a p rest sep :
  Join (String a p :: rest) sep = String a (Join (p :: rest) sep).
Proof. destruct rest; reflexivity. Qed.

Lemma Join_Split s sep : Join (Split s sep) (String sep "") = s.
Proof.
  induction s as [|a s IH]; [reflexivity|]. cbn [Split].
  destruct (Split s sep) as [|p rest] eqn:E; [now apply Split_nonempty in E|].
  destruct (Ascii.eqb_spec a sep) as [->|_].
  - rewrite Join_cons, IH. reflexivity.
  - now rewrite Join_String, IH.
Qed.

Lemma Join_drop_suffix l k sep :
  exists pre, Join l sep = pre +:+ Join (drop k l) sep.
Proof.
  revert l. induction k as [|k IH]; intros l; [now exists ""|].
  destruct l as [|x l]; [now exists ""|].
  change (drop (S k) (x :: l)) with (drop k l).
  destruct (IH l) as [pre Hpre].
  destruct l as [|y l].
  - exists x. rewrite drop_nil.
    change (Join [x] sep) with x. change (Join [] sep) with "".
    now rewrite append_nil_r.
  - exists (x +:+ sep +:+ pre). rewrite Join_cons, Hpre, !append_assoc.
    reflexivity.
Qed.

Lemma allNodes_impl (P Q : Argv -> Prop) :
  (forall n, P n -> Q n) -> forall a, allNodes P a -> allNodes Q a.
Proof.
  intros HPQ. fix IH 1. intros [n [s|] t p]; simpl.
  - intros [Hp Hs]. split; [now apply HPQ|now apply IH].
  - intros [Hp _]. split; [now apply HPQ|exact I].
Qed.

Lemma nodeOf_drop args i n : nodeOf (drop i args) n -> nodeOf args n.
Proof.
  intros [Hn [k Ht]]. split.
  - destruct Hn as [Hn|Hn]; [now left|right].
    apply list_elem_of_lookup in Hn as [j Hj].
    rewrite lookup_drop in Hj. apply list_elem_of_lookup. eauto.
  - exists (i + k). now rewrite <- drop_drop.
Qed.

Lemma body_Continue_Name rec args i argd w i' argd' w' :
  body rec args i argd w = Continue i' argd' w' ->
  Name argd' = Name argd \/ Name argd' ∈ args.
Proof.
  intros Hb.
  destruct (args !! i) as [arg|] eqn:Harg;
    [|unfold body in Hb; now rewrite Harg in Hb].
  destruct (isIgnored arg) eqn:Hign.
  { rewrite (body_ignored _ _ _ _ _ _ Harg Hign) in Hb.
    injection Hb as _ <- _. now left. }
  destruct (isFlag arg) eqn:Hflag.
  - pose proof (body_at_flag rec args i argd w arg Harg (or_introl Hflag)) as H.
    rewrite Hb in H. left. tauto.
  - destruct w.
    + rewrite (body_branch _ _ _ _ _ Harg Hign Hflag) in Hb. discriminate.
    + rewrite (body_name _ _ _ _ _ Harg Hign Hflag) in Hb.
      destruct (negb _); [discriminate|]. injection Hb as _ <- _.
      right. simpl. apply list_elem_of_lookup. eauto.
Qed.

Lemma loop_nodes rec args n i argd w a :
  (forall k s, rec (drop k args) = Ok s -> allNodes (nodeOf (drop k args)) s) ->
  loopInv i argd w -> (Name argd = "" \/ Name argd ∈ args) ->
  loop rec args n i argd w = Ok a -> allNodes (nodeOf args) a.
Proof.
  intros Hrec. revert i argd w.
  induction n as [|n IH]; intros i argd w Hinv Hname Hl; [discriminate|].
  rewrite loop_S in Hl. destruct (Nat.leb_spec (length args) i) as [Hi|Hi].
  - injection Hl as <-. apply allNodes_leaf; [exact (inv_sub _ _ _ Hinv)|].
    split; [exact Hname|]. exists (length args).
    now rewrite drop_all, (inv_text _ _ _ Hinv).
  - destruct (body rec args i argd w) as [i' argd' w'|o] eqn:Hb.
    + eapply IH; [| |exact Hl]; [eapply body_preserves; eauto|].
      apply body_Continue_Name in Hb as [->|Hb]; auto.
    + subst o. apply body_Ok in Hb as (arg & Harg & -> & Hflag & Hign & Hbr).
      destruct (Nat.eq_dec (S i) (length args)) as [Heq|Hne].
      * rewrite (branch_leaf _ _ _ _ _ Harg Heq Hflag) in Hbr.
        injection Hbr as <-.
        apply allNodes_leaf; [exact (inv_sub _ _ _ Hinv)|].
        split; [exact Hname|]. exists i.
        rewrite (drop_lookup _ _ _ Harg), drop_ge by lia. reflexivity.
      * rewrite (branch_rec _ _ _ _ _ Harg) in Hbr by lia.
        destruct (rec (drop i args)) as [sub| | |] eqn:Hsub; try discriminate.
        injection Hbr as <-. apply allNodes_eq. simpl. split.
        -- split; [exact Hname|]. now exists i.
        -- apply (allNodes_impl (nodeOf (drop i args))); [apply nodeOf_drop|].
           now apply Hrec.
Qed.

Lemma parseArgs_nodes fuel args a :
  parseArgs fuel args = Ok a -> allNodes (nodeOf args) a.
Proof.
  revert args a. induction fuel as [|fuel IH]; intros args a H; [discriminate|].
  rewrite parseArgs_S in H. eapply loop_nodes; [| | |exact H].
  - intros k s. apply IH.
  - apply (reaches_inv (parseArgs fuel) args). constructor.
  - now left.
Qed.

(** X10 -- In the tree of a successful [Parse], the [Name] of every node is
    empty or one of the tokens of the input, and the [Text] of every node
    is an end piece of the input string. *)
Theorem Parse_nodes_from_input s a :
  Parse s = Ok a ->
  allNodes (fun n => (Name n = "" \/ Name n ∈ Split s " ") /\
                     exists pre, s = pre +:+ Text n) a.
Proof.
  unfold Parse. destruct (len s =? 0); [discriminate|].
  intros H. apply parseArgs_nodes in H.
  eapply allNodes_impl; [|exact H].
  intros n [Hn [k Hk]]. split; [exact Hn|].
  destruct (Join_drop_suffix (Split s " ") k " ") as [pre Hpre].
  exists pre. rewrite Hk, <- Hpre. symmetry. apply (Join_Split s " ").
Qed.

Lemma Parse_nodes_from_input_witness :
  allNodes (fun n => (Name n = "" \/ Name n ∈ Split "p -h push x" " ") /\
                     exists pre, "p -h push x" = pre +:+ Text n)
    (mkArgv "p" (Some (mkArgv "push" None "x" (Some ∅))) "push x"
       (Some {[ "h" := ["true"] ]})).
Proof.
  apply (Parse_nodes_from_input "p -h push x"). vm_compute. reflexivity.
Defined.

(** ** [HasKV] and [IsArg] *)

(** X11 -- [IsArg] holds of a node exactly when [HasKV] holds of it for
    some key: it looks at [Pairs] only, a node with a name and no flag is
    no "arg", and a node with a nil [Pairs] has no key. *)
Theorem IsArg_iff_HasKV a :
  IsArg a = true <-> exists k, HasKV a k = true.
Proof.
  unfold IsArg, HasKV, lenPairs, getPair.
  rewrite negb_true_iff, Nat.eqb_neq.
  destruct (Pairs a) as [m|].
  - rewrite map_size_ne_0_lookup. split.
    + intros [k Hk]. exists k. now apply bool_decide_eq_true.
    + intros [k Hk]. exists k. now apply bool_decide_eq_true in Hk.
  - split; [congruence|]. intros [k Hk].
    apply bool_decide_eq_true in Hk. now destruct Hk.
Qed.

(** * The callers: [process], [Get] and [IsSet] *)

Section ContextProps.

Variable V : Type.
Variable E : Type.
Variable Getenv : string -> string.

Implicit Types (c : ctxImpl V) (flag g : Flag V E) (arg : Argv).
Implicit Types (flags : list (Flag V E)).

Lemma setFlag_Some c k c' :
  setFlag c k = Some c' ->
  exists fs, c_flags c = Some fs /\ c_flags c' = Some ({[k]} ∪ fs) /\
             c_pairs c' = c_pairs c /\ c_parent c' = c_parent c.
Proof.
  unfold setFlag. destruct (c_flags c) as [fs|]; [|discriminate].
  intros [= <-]. simpl. eauto.
Qed.

Lemma setValue_Some c k v c' :
  setValue c k v = Some c' ->
  exists m, c_pairs c = Some m /\ c_pairs c' = Some (<[k := v]> m) /\
            c_flags c' = c_flags c /\ c_parent c' = c_parent c.
Proof.
  unfold setValue. destruct (c_pairs c) as [m|]; [|discriminate].
  intros [= <-]. simpl. eauto.
Qed.

Lemma setBoth_Some c flag v c' :
  setBoth c flag v = Some c' ->
  exists m, c_pairs c = Some m /\
    c_pairs c' = Some (<[FAlias flag := v]> (<[FName flag := v]> m)) /\
    c_flags c' = c_flags c /\ c_parent c' = c_parent c.
Proof.
  unfold setBoth. destruct (setValue c (FName flag) v) as [c1|] eqn:E1; [|discriminate].
  intros E2.
  apply setValue_Some in E1 as (m & Hm & Hm1 & Hf1 & Hp1).
  apply setValue_Some in E2 as (m1 & Hm1' & Hm2 & Hf2 & Hp2).
  rewrite Hm1 in Hm1'. injection Hm1' as <-.
  exists m. repeat split; congruence.
Qed.

Lemma setBoth_ready c flag v : ready c -> exists c', setBoth c flag v = Some c'.
Proof.
  intros [_ [m Hm]]. unfold setBoth, setValue. rewrite Hm. simpl. eauto.
Qed.

(** What an iteration that goes on has done. *)
Lemma processFlag_inl arg c flag c' :
  processFlag Getenv arg c flag = inl c' ->
  (exists fs, c_flags c = Some fs /\
              c_flags c' = Some ({[FAlias flag]} ∪ ({[FName flag]} ∪ fs))) /\
  c_parent c' = c_parent c /\
  ((c_pairs c' = c_pairs c /\ getPair arg (FName flag) = None /\
    FEnv flag = "" /\ FDefault flag = None) \/
   exists m value,
     c_pairs c = Some m /\
     c_pairs c' = Some (<[FAlias flag := value]> (<[FName flag := value]> m)) /\
     chosen Getenv arg flag value).
Proof.
  unfold processFlag, chosen.
  destruct (setFlag c (FName flag)) as [c1|] eqn:E1; [|discriminate].
  destruct (setFlag c1 (FAlias flag)) as [c2|] eqn:E2; [|discriminate].
  apply setFlag_Some in E1 as (fs & Hfs & Hfs1 & Hp1 & Hq1).
  apply setFlag_Some in E2 as (fs1 & Hfs1' & Hfs2 & Hp2 & Hq2).
  rewrite Hfs1 in Hfs1'. injection Hfs1' as <-.
  assert (Hstore : forall r, storeParsed c2 flag r = inl c' ->
    exists value m, r = Some (value, None) /\ c_pairs c = Some m /\
      c_pairs c' = Some (<[FAlias flag := value]> (<[FName flag := value]> m)) /\
      c_flags c' = c_flags c2 /\ c_parent c' = c_parent c2).
  { unfold storeParsed. intros [[value [err|]]|]; try discriminate.
    destruct (setBoth c2 flag value) as [c3|] eqn:E3; [|discriminate].
    intros [= <-]. apply setBoth_Some in E3 as (m & Hm & Hm' & Hf & Hp).
    exists value, m. repeat split; congruence. }
  destruct (getPair arg (FName flag)) as [[|first others]|]; [discriminate| |].
  - intros H. apply Hstore in H as (value & m & Hr & Hm & Hm' & Hf & Hp).
    split; [exists fs; split; congruence|]. split; [congruence|].
    right. exists m, value. auto.
  - destruct (negb (String.eqb (FEnv flag) "")) eqn:Henv.
    + intros H. apply Hstore in H as (value & m & Hr & Hm & Hm' & Hf & Hp).
      split; [exists fs; split; congruence|]. split; [congruence|].
      right. exists m, value. auto.
    + apply negb_false_iff, String.eqb_eq in Henv.
      destruct (FDefault flag) as [d|].
      * destruct (setBoth c2 flag (Some d)) as [c3|] eqn:E3; [|discriminate].
        intros [= <-]. apply setBoth_Some in E3 as (m & Hm & Hm' & Hf & Hp).
        split; [exists fs; split; congruence|]. split; [congruence|].
        right. exists m, (Some d). repeat split; try congruence. eauto.
      * intros [= <-].
        split; [exists fs; split; congruence|]. split; [congruence|].
        left. repeat split; congruence.
Qed.

Lemma processFlag_ready arg c flag c' :
  processFlag Getenv arg c flag = inl c' -> ready c -> ready c'.
Proof.
  intros H [_ [m Hm]].
  apply processFlag_inl in H as ((fs & _ & Hfs) & _ & H). split; [eauto|].
  destruct H as [(Hp & _)|(m' & value & _ & Hp & _)]; [|eauto].
  exists m. congruence.
Qed.

Lemma processFlag_other arg c flag c' k :
  processFlag Getenv arg c flag = inl c' ->
  FName flag <> k -> FAlias flag <> k ->
  pairAt c' k = pairAt c k.
Proof.
  intros H Hn Ha. apply processFlag_inl in H as (_ & _ & H). unfold pairAt.
  destruct H as [(-> & _)|(m & value & -> & -> & _)]; [reflexivity|].
  now rewrite !lookup_insert_ne.
Qed.

(** An iteration leaves the function with an error only, the maps being
    made and the value sequence at hand not empty. *)
Lemma processFlag_no_panic arg c flag :
  ready c -> FParser flag <> None ->
  (forall k vs, getPair arg k = Some vs -> vs <> []) ->
  processFlag Getenv arg c flag <> inr PPanic.
Proof.
  intros [[fs Hfs] [m Hm]] Hparser Hvals. unfold processFlag, setFlag.
  rewrite Hfs. cbn [c_flags].
  set (c2 := mkCtx _ _ _).
  assert (Hready : ready c2) by (split; simpl; eauto).
  assert (Hparse : forall first others, Flag_Parse flag first others <> None).
  { intros first others. unfold Flag_Parse.
    destruct (FParser flag) as [parser|]; [|contradiction].
    destruct (FValidation flag) as [validation|];
      [destruct (validation first others); [discriminate|]|];
      destruct (parser first others) as [value [err|]]; try discriminate;
      destruct (FMorph flag); discriminate. }
  assert (Hstore : forall r, r <> None -> storeParsed c2 flag r <> inr PPanic).
  { unfold storeParsed. intros [[value [err|]]|] Hr; try discriminate;
      [|contradiction].
    destruct (setBoth_ready c2 flag value Hready) as [c' ->]. discriminate. }
  destruct (getPair arg (FName flag)) as [[|first others]|] eqn:Hg.
  - now apply Hvals in Hg.
  - now apply Hstore.
  - destruct (negb _); [now apply Hstore|].
    destruct (FDefault flag) as [d|]; [|discriminate].
    destruct (setBoth_ready c2 flag (Some d) Hready) as [c' ->]. discriminate.
Qed.

Lemma processFlags_no_panic arg flags : forall c,
  ready c -> Forall (fun flag => FParser flag <> None) flags ->
  (forall k vs, getPair arg k = Some vs -> vs <> []) ->
  processFlags Getenv arg c flags <> PPanic.
Proof.
  induction flags as [|flag flags IH]; intros c Hc Hall Hvals; [discriminate|].
  inversion Hall as [|? ? Hp Hrest]; subst. simpl.
  destruct (processFlag Getenv arg c flag) as [c'|r] eqn:Hf.
  - apply IH; auto. eapply processFlag_ready; eauto.
  - intros ->. now apply (processFlag_no_panic arg c flag).
Qed.

Lemma process_no_panic c arg flags :
  c_pairs c = None \/ c_flags c <> None ->
  Forall (fun flag => FParser flag <> None) flags ->
  (forall k vs, getPair arg k = Some vs -> vs <> []) ->
  process Getenv c arg flags <> PPanic.
Proof.
  intros Hc Hall Hvals. unfold process. apply processFlags_no_panic; auto.
  destruct (c_pairs c) as [m|] eqn:Hm.
  - split; [|eauto]. destruct Hc as [?|Hc]; [discriminate|].
    destruct (c_flags c); [eauto|contradiction].
  - split; simpl; eauto.
Qed.

(** X12 -- [process] reads [flagValue[0]] of the entry of a flag: on every
    node of a tree that [Parse] returns with a nil error this read is in
    range, so [process] does not panic on it, whatever the flags (each
    with a parser), the environment and the context (a fresh one, or one
    with both maps made); nor does it on a node made by [New], whose
    [Pairs] is nil. *)
Theorem process_parsed_no_panic s a c flags :
  Parse s = Ok a ->
  c_pairs c = None \/ c_flags c <> None ->
  Forall (fun flag => FParser flag <> None) flags ->
  allNodes (fun n => process Getenv c n flags <> PPanic) a /\
  forall name, process Getenv c (New name) flags <> PPanic.
Proof.
  intros Hparse Hc Hall. split.
  - unfold Parse in Hparse. destruct (len s =? 0); [discriminate|].
    apply parseArgs_pairsOk in Hparse.
    eapply allNodes_impl; [|exact Hparse].
    intros n (m & Hm & Hne). apply process_no_panic; auto.
    intros k vs. unfold getPair. rewrite Hm. apply Hne.
  - intros name. apply process_no_panic; auto; discriminate.
Qed.

Lemma processFlags_other arg flags k : forall c c' err,
  processFlags Getenv arg c flags = PReturn c' err ->
  Forall (fun g => FName g <> k /\ FAlias g <> k) flags ->
  pairAt c' k = pairAt c k.
Proof.
  induction flags as [|flag flags IH]; intros c c' err H Hall.
  - now injection H as <- _.
  - inversion Hall as [|? ? [Hn Ha] Hrest]; subst. simpl in H.
    destruct (processFlag Getenv arg c flag) as [c1|r] eqn:Hf.
    + rewrite (IH _ _ _ H Hrest).
      now apply (processFlag_other arg c flag).
    + subst r. unfold processFlag in Hf.
      destruct (setFlag c (FName flag)) as [c1|] eqn:E1; [|discriminate].
      destruct (setFlag c1 (FAlias flag)) as [c2|] eqn:E2; [|discriminate].
      apply setFlag_Some in E1 as (_ & _ & _ & Hp1 & _).
      apply setFlag_Some in E2 as (_ & _ & _ & Hp2 & _).
      assert (Hst : forall r, storeParsed c2 flag r = inr (PReturn c' err) ->
                              c' = c2).
      { unfold storeParsed. intros [[value [e|]]|]; try discriminate.
        - now intros [= <- _].
        - destruct (setBoth c2 flag value); discriminate. }
      assert (Hc : c' = c2).
      { destruct (getPair arg (FName flag)) as [[|first others]|];
          [discriminate|now apply Hst in Hf|].
        destruct (negb _); [now apply Hst in Hf|].
        destruct (FDefault flag); [|discriminate].
        destruct (setBoth c2 flag _); discriminate. }
      subst c'. unfold pairAt. now rewrite Hp2, Hp1.
Qed.

(** X13 -- [process] touches the entries of the declared flags only: a key
    that is neither the name nor the alias of one of the flags has in the
    context [process] returns, with or without an error, the entry it had
    before; so a flag of the command line that is not declared never
    reaches the context. *)
Theorem process_declared_only c arg flags c' err k :
  process Getenv c arg flags = PReturn c' err ->
  Forall (fun g => FName g <> k /\ FAlias g <> k) flags ->
  pairAt c' k = pairAt c k.
Proof.
  unfold process. intros H Hall.
  rewrite (processFlags_other _ _ _ _ _ _ H Hall).
  unfold pairAt. destruct (c_pairs c) as [m|] eqn:Hm; [now rewrite Hm|].
  simpl. apply lookup_empty.
Qed.

(** An iteration that leaves the function returns an error. *)
Lemma processFlag_inr arg c flag c' :
  processFlag Getenv arg c flag <> inr (PReturn c' None).
Proof.
  unfold processFlag.
  destruct (setFlag c (FName flag)) as [c1|]; [|discriminate].
  destruct (setFlag c1 (FAlias flag)) as [c2|]; [|discriminate].
  assert (Hst : forall r, storeParsed c2 flag r <> inr (PReturn c' None)).
  { unfold storeParsed. intros [[value [e|]]|]; try discriminate.
    destruct (setBoth c2 flag value); discriminate. }
  destruct (getPair arg (FName flag)) as [[|first others]|];
    [discriminate|apply Hst|].
  destruct (negb _); [apply Hst|].
  destruct (FDefault flag); [|discriminate].
  destruct (setBoth c2 flag _); discriminate.
Qed.

Lemma processFlags_registered arg flags : forall c c' fs,
  processFlags Getenv arg c flags = PReturn c' None ->
  c_flags c = Some fs ->
  exists fs', c_flags c' = Some fs' /\ fs ⊆ fs' /\
    forall flag, flag ∈ flags -> FName flag ∈ fs' /\ FAlias flag ∈ fs'.
Proof.
  induction flags as [|flag flags IH]; intros c c' fs H Hfs.
  - injection H as <-. exists fs. split; [exact Hfs|]. split; [set_solver|].
    intros flag Hin. now apply elem_of_nil in Hin.
  - simpl in H.
    destruct (processFlag Getenv arg c flag) as [c1|r] eqn:Hf.
    + apply processFlag_inl in Hf as ((fs0 & Hfs0 & Hfs1) & _).
      rewrite Hfs in Hfs0. injection Hfs0 as <-.
      destruct (IH _ _ _ H Hfs1) as (fs' & Hfs' & Hsub & Hreg).
      exists fs'. split; [exact Hfs'|]. split; [set_solver + Hsub|].
      intros g Hg. apply elem_of_cons in Hg as [->|Hg]; [|now apply Hreg].
      set_solver + Hsub.
    + subst r. now apply processFlag_inr in Hf.
Qed.

(** X14 -- When [process] returns a nil error, the name and the alias of
    every flag it was given are registered in [flags] of the context,
    whether the flag has received a value or not. *)
Theorem process_registers c arg flags c' flag :
  process Getenv c arg flags = PReturn c' None ->
  flag ∈ flags ->
  exists fs, c_flags c' = Some fs /\ FName flag ∈ fs /\ FAlias flag ∈ fs.
Proof.
  unfold process. intros H Hin.
  set (c0 := match c_pairs c with
             | Some _ => c
             | None => mkCtx (Some ∅) (Some ∅) (c_parent c)
             end) in *.
  assert (Hfs : exists fs, c_flags c0 = Some fs).
  { destruct flags as [|g flags]; [now apply elem_of_nil in Hin|].
    simpl in H. destruct (processFlag Getenv arg c0 g) as [c1|r] eqn:Hf.
    - apply processFlag_inl in Hf as ((fs & Hfs & _) & _). eauto.
    - subst r. now apply processFlag_inr in Hf. }
  destruct Hfs as [fs Hfs].
  destruct (processFlags_registered _ _ _ _ _ H Hfs) as (fs' & Hfs' & _ & Hreg).
  exists fs'. split; [exact Hfs'|]. now apply Hreg.
Qed.

Lemma processFlags_app arg (l1 l2 : list (Flag V E)) : forall c c',
  processFlags Getenv arg c (l1 ++ l2) = PReturn c' None ->
  exists c1, processFlags Getenv arg c l1 = PReturn c1 None /\
             processFlags Getenv arg c1 l2 = PReturn c' None.
Proof.
  induction l1 as [|flag l1 IH]; intros c c' H; [now exists c|].
  simpl in *. destruct (processFlag Getenv arg c flag) as [c1|r] eqn:Hf.
  - now apply IH.
  - subst r. now apply processFlag_inr in Hf.
Qed.

(** X15 -- The value of a flag comes from the command line before the
    environment, and from the environment before the default: when
    [process] returns a nil error, a flag that has one of the three is
    bound, under its name, to the value parsed from the entry of the node
    if the node has the flag, else to the value parsed from its
    environment variable if it names one, else to its default -- provided
    no later flag has this name as its name or alias. *)
Theorem process_precedence c arg pre flag post c' :
  process Getenv c arg (pre ++ flag :: post) = PReturn c' None ->
  Forall (fun g => FName g <> FName flag /\ FAlias g <> FName flag) post ->
  getPair arg (FName flag) <> None \/ FEnv flag <> "" \/ FDefault flag <> None ->
  exists value,
    chosen Getenv arg flag value /\ pairAt c' (FName flag) = Some value.
Proof.
  unfold process. intros H Hpost Hsrc.
  apply processFlags_app in H as (c1 & _ & H). simpl in H.
  destruct (processFlag Getenv arg c1 flag) as [c2|r] eqn:Hf;
    [|subst r; now apply processFlag_inr in Hf].
  rewrite (processFlags_other _ _ _ _ _ _ H Hpost).
  apply processFlag_inl in Hf as (_ & _ & Hf).
  destruct Hf as [(_ & Hg & He & Hd)|(m & value & _ & Hp & Hch)].
  - destruct Hsrc as [?|[?|?]]; contradiction.
  - exists value. split; [exact Hch|]. unfold pairAt. rewrite Hp.
    destruct (decide (FAlias flag = FName flag)) as [->|Hne].
    + apply lookup_insert_eq.
    + rewrite lookup_insert_ne by exact Hne. apply lookup_insert_eq.
Qed.

(** X16 -- [Get] finds a key exactly when the context or one of its
    parents has it, and returns the entry of the nearest one that has it;
    [IsSet] looks at the context itself only. *)
Theorem Get_nearest k : forall c,
  (IsSet c k = true ->
   exists v, pairAt c k = Some v /\ Get c k = (v, true)) /\
  ((Get c k).2 = true <-> Exists (fun c' => IsSet c' k = true) (ancestors c)) /\
  (forall v, Get c k = (v, true) ->
     exists pre c' post,
       ancestors c = pre ++ c' :: post /\ pairAt c' k = Some v /\
       Forall (fun p => IsSet p k = false) pre).
Proof.
  fix IH 1. intros [fs ps [parent|]].
  - destruct (IH parent) as (_ & IHf & IHv). clear IH.
    unfold IsSet. cbn [Get ancestors c_parent].
    destruct (pairAt (mkCtx fs ps (Some parent)) k) as [v|] eqn:Hp.
    + split; [eauto|]. split.
      * split; [intros _|reflexivity]. apply Exists_cons_hd.
        unfold IsSet. now rewrite Hp.
      * intros v' [= <-]. exists [], (mkCtx fs ps (Some parent)), (ancestors parent).
        repeat split; auto.
    + split; [discriminate|]. split.
      * rewrite IHf. split; [apply Exists_cons_tl|].
        intros H. apply Exists_cons in H as [H|H]; [|exact H].
        unfold IsSet in H. rewrite Hp in H. discriminate.
      * intros v Hv. destruct (IHv v Hv) as (pre & c' & post & Ha & Hc & Hpre).
        exists (mkCtx fs ps (Some parent) :: pre), c', post.
        repeat split; [now rewrite Ha|exact Hc|].
        constructor; [|exact Hpre]. unfold IsSet. now rewrite Hp.
  - clear IH. unfold IsSet. cbn [Get ancestors c_parent].
    destruct (pairAt (mkCtx fs ps None) k) as [v|] eqn:Hp.
    + split; [eauto|]. split.
      * split; [intros _|reflexivity]. apply Exists_cons_hd.
        unfold IsSet. now rewrite Hp.
      * intros v' [= <-]. exists [], (mkCtx fs ps None), [].
        repeat split; auto.
    + split; [discriminate|]. split.
      * split; [discriminate|]. intros H.
        apply Exists_cons in H as [H|H]; [|now apply Exists_nil in H].
        unfold IsSet in H. rewrite Hp in H. discriminate.
      * discriminate.
Qed.

End ContextProps.


(** ** Instances *)

Lemma process_age : process noEnv zeroCtx ageNode [ageFlag] = PReturn ageCtx None.
Proof. reflexivity. Qed.

Lemma process_parsed_no_panic_witness :
  allNodes (fun n => process noEnv zeroCtx n [ageFlag] <> PPanic)
    (mkArgv "p" (Some (mkArgv "push" None "x" (Some ∅))) "push x"
       (Some {[ "age" := ["xyz"] ]})) /\
  forall name, process noEnv zeroCtx (New name) [ageFlag] <> PPanic.
Proof.
  apply (process_parsed_no_panic nat string noEnv "p --age=xyz push x").
  - vm_compute. reflexivity.
  - now left.
  - repeat constructor. discriminate.
Defined.

Lemma process_declared_only_witness :
  pairAt ageCtx "other" = pairAt (@zeroCtx nat) "other".
Proof.
  apply (process_declared_only nat string noEnv zeroCtx ageNode [ageFlag] ageCtx None).
  - exact process_age.
  - repeat constructor; discriminate.
Defined.

Lemma process_registers_witness :
  exists fs, c_flags ageCtx = Some fs /\ "age" ∈ fs /\ "a" ∈ fs.
Proof.
  apply (process_registers nat string noEnv zeroCtx ageNode [ageFlag] ageCtx ageFlag).
  - exact process_age.
  - apply list_elem_of_here.
Defined.

Lemma process_precedence_witness :
  exists value,
    chosen noEnv ageNode ageFlag value /\ pairAt ageCtx "age" = Some value.
Proof.
  apply (process_precedence nat string noEnv zeroCtx ageNode [] ageFlag [] ageCtx).
  - exact process_age.
  - constructor.
  - left. discriminate.
Defined.

(** * Further properties of the parser, continued *)

(** ** Depth of the recursion *)

Lemma parseArgs_fuel_add more : forall fuel args,
  length args < fuel -> parseArgs (fuel + more) args = parseArgs fuel args.
Proof.
  induction more as [|more IH]; intros fuel args H.
  - now rewrite Nat.add_0_r.
  - replace (fuel + S more) with (S (fuel + more)) by lia.
    rewrite parseArgs_more_fuel; [now apply IH|].
    rewrite IH by exact H. now apply parseArgs_terminates.
Qed.

(** X17 -- Every nested call of [parseArgs] is on a strictly shorter slice
    of the tokens, so a call on [n] tokens nests at most [n] deep: with a
    bound above [n] on the depth the call returns or panics, and a larger
    bound gives the same result. *)
Theorem parseArgs_depth_bounded fuel args :
  length args < fuel ->
  parseArgs fuel args <> Diverge /\
  forall more, parseArgs (fuel + more) args = parseArgs fuel args.
Proof.
  intros H. split; [now apply parseArgs_terminates|].
  intros more. now apply parseArgs_fuel_add.
Qed.

Lemma parseArgs_depth_bounded_witness :
  parseArgs 4 ["p"; "q"; "r"] <> Diverge /\
  forall more, parseArgs (4 + more) ["p"; "q"; "r"] = parseArgs 4 ["p"; "q"; "r"].
Proof.
  apply (parseArgs_depth_bounded 4 ["p"; "q"; "r"]). simpl. lia.
Defined.

Lemma depth_eq a :
  depth a = S (match Sub a with Some s => depth s | None => 0 end).
Proof. now destruct a. Qed.

Lemma loop_depth rec args n i argd w a :
  (forall k s, 0 < k -> rec (drop k args) = Ok s ->
     depth s <= Nat.max 1 (length args - k - 1)) ->
  loopInv i argd w ->
  loop rec args n i argd w = Ok a ->
  depth a <= Nat.max 1 (length args - 1).
Proof.
  intros Hrec. revert i argd w.
  induction n as [|n IH]; intros i argd w Hinv Hl; [discriminate|].
  rewrite loop_S in Hl. destruct (Nat.leb_spec (length args) i) as [Hi|Hi].
  - injection Hl as <-. rewrite depth_eq, (inv_sub _ _ _ Hinv). lia.
  - destruct (body rec args i argd w) as [i' argd' w'|o] eqn:Hb.
    + eapply IH; [|exact Hl]. eapply body_preserves; eauto.
    + subst o. apply body_Ok in Hb as (arg & Harg & -> & Hflag & Hign & Hbr).
      pose proof (inv_cursor _ _ _ Hinv eq_refl) as Hpos.
      destruct (Nat.eq_dec (S i) (length args)) as [Heq|Hne].
      * rewrite (branch_leaf _ _ _ _ _ Harg Heq Hflag) in Hbr.
        injection Hbr as <-. rewrite depth_eq. simpl.
        rewrite (inv_sub _ _ _ Hinv). lia.
      * rewrite (branch_rec _ _ _ _ _ Harg) in Hbr by lia.
        destruct (rec (drop i args)) as [sub| | |] eqn:Hsub; try discriminate.
        injection Hbr as <-. rewrite depth_eq. simpl.
        specialize (Hrec i sub Hpos Hsub). lia.
Qed.

Lemma parseArgs_depth fuel args a :
  parseArgs fuel args = Ok a -> depth a <= Nat.max 1 (length args - 1).
Proof.
  revert args a. induction fuel as [|fuel IH]; intros args a H; [discriminate|].
  rewrite parseArgs_S in H. eapply loop_depth; [| |exact H].
  - intros k s Hk Hs. apply IH in Hs. rewrite length_drop in Hs. lia.
  - apply (reaches_inv (parseArgs fuel) args). constructor.
Qed.

(** X18 -- The tree of a successful [Parse] is a chain of at most one node
    for an input of one token, and of at most one node less than there are
    tokens otherwise. *)
Theorem Parse_depth s a :
  Parse s = Ok a -> depth a <= Nat.max 1 (length (Split s " ") - 1).
Proof.
  unfold Parse. destruct (len s =? 0); [discriminate|].
  apply parseArgs_depth.
Qed.

Lemma Parse_depth_witness :
  depth (chain ["tool"; "sub1"; "sub2"; "text"])
    <= Nat.max 1 (length (Split "tool sub1 sub2 text" " ") - 1).
Proof.
  apply (Parse_depth "tool sub1 sub2 text"). vm_compute. reflexivity.
Defined.

(** ** Flags never branch *)

(** X19 -- The iteration at a flag token does not call [parseArgs] and
    does not end the call with a nil error: what it does is the same
    whatever the recursive parser is, and it is no return of a node.  So
    the branch at the end of the loop body is never taken, and a [Sub]
    starts at a token that is not a flag only. *)
Theorem flag_never_branches rec rec' args i argd w arg :
  args !! i = Some arg -> isFlag arg = true ->
  body rec args i argd w = body rec' args i argd w /\
  forall a, body rec args i argd w <> Done (Ok a).
Proof.
  intros Harg Hflag. split.
  - destruct (Index (flagOpt arg) "=") as [pos|] eqn:Hidx.
    + now rewrite !(body_flag_eq _ _ _ _ _ _ Harg _ Hflag Hidx).
    + now rewrite !(body_flag_bare _ _ _ _ _ _ Harg Hflag Hidx).
  - intros a Hb. apply body_Ok in Hb as (arg' & Harg' & _ & Hf & _).
    congruence.
Qed.

Lemma flag_never_branches_witness :
  body (parseArgs 3) ["p"; "-x"; "q"] 1 (withName startArgv "p") true =
    body (fun _ => Panic) ["p"; "-x"; "q"] 1 (withName startArgv "p") true /\
  forall a, body (parseArgs 3) ["p"; "-x"; "q"] 1 (withName startArgv "p") true
            <> Done (Ok a).
Proof.
  apply (flag_never_branches (parseArgs 3) (fun _ => Panic)
           ["p"; "-x"; "q"] 1 (withName startArgv "p") true "-x");
    reflexivity.
Defined.

(** ** Blank input *)

(** X20 -- An input that is not empty and has ignorable tokens only
    (spaces, lone "-" and "--") is no error: [Parse] returns the empty
    node, with an empty [Name] and an empty, non-nil [Pairs]. *)
Theorem Parse_blank s :
  s <> "" -> Forall (fun t => isIgnored t = true) (Split s " ") ->
  Parse s = Ok startArgv.
Proof.
  intros Hs Hall. unfold Parse. rewrite (String_nonempty_len _ Hs).
  rewrite <- (List.app_nil_r (Split s " ")) at 2.
  now rewrite (parseArgs_ignored_front _ _ _ Hall).
Qed.

Lemma Parse_blank_witness : Parse " -  -- " = Ok startArgv.
Proof.
  apply (Parse_blank " -  -- "); [discriminate|].
  vm_compute. repeat constructor.
Defined.

(** ** The text of a node and its sub-command *)

Lemma HasPrefix_Join_head w rest sep : HasPrefix (Join (w :: rest) sep) w = true.
Proof.
  apply HasPrefix_iff. destruct rest as [|w' rest].
  - exists "". simpl. now rewrite append_nil_r.
  - rewrite Join_cons. eauto.
Qed.

Lemma loop_linked rec args n i argd w a :
  (forall k s, rec (drop k args) = Ok s ->
     allNodes linked s /\ allNodes (nodeOf (drop k args)) s /\
     forall tok rest, drop k args = tok :: rest ->
       isFlag tok = false -> isIgnored tok = false -> Name s = tok) ->
  loopInv i argd w ->
  loop rec args n i argd w = Ok a -> allNodes linked a.
Proof.
  intros Hrec. revert i argd w.
  induction n as [|n IH]; intros i argd w Hinv Hl; [discriminate|].
  rewrite loop_S in Hl. destruct (Nat.leb_spec (length args) i) as [Hi|Hi].
  - injection Hl as <-. apply allNodes_leaf; [exact (inv_sub _ _ _ Hinv)|].
    unfold linked. now rewrite (inv_sub _ _ _ Hinv).
  - destruct (body rec args i argd w) as [i' argd' w'|o] eqn:Hb.
    + eapply IH; [|exact Hl]. eapply body_preserves; eauto.
    + subst o. apply body_Ok in Hb as (arg & Harg & -> & Hflag & Hign & Hbr).
      destruct (Nat.eq_dec (S i) (length args)) as [Heq|Hne].
      * rewrite (branch_leaf _ _ _ _ _ Harg Heq Hflag) in Hbr.
        injection Hbr as <-.
        apply allNodes_leaf; [exact (inv_sub _ _ _ Hinv)|].
        unfold linked. simpl. now rewrite (inv_sub _ _ _ Hinv).
      * rewrite (branch_rec _ _ _ _ _ Harg) in Hbr by lia.
        destruct (rec (drop i args)) as [sub| | |] eqn:Hsub; try discriminate.
        injection Hbr as <-.
        destruct (Hrec i sub Hsub) as (Hlinked & Hnodes & Hname).
        apply allNodes_eq. simpl. split; [|exact Hlinked].
        unfold linked. simpl. split.
        -- rewrite (Hname arg (drop (S i) args)); auto using drop_lookup.
           rewrite (drop_lookup _ _ _ Harg). apply HasPrefix_Join_head.
        -- apply allNodes_eq in Hnodes as [[_ [k Hk]] _].
           rewrite Hk. apply Join_drop_suffix.
Qed.

Lemma parseArgs_linked fuel args a :
  parseArgs fuel args = Ok a -> allNodes linked a.
Proof.
  revert args a. induction fuel as [|fuel IH]; intros args a H; [discriminate|].
  rewrite parseArgs_S in H. eapply loop_linked; [| |exact H].
  - intros k s Hs. split; [now apply IH in Hs|].
    split; [now apply parseArgs_nodes in Hs|].
    intros tok rest Hd Hf Hi. rewrite Hd in Hs.
    apply (name_is_first_word_aux fuel tok rest s Hf Hi). now left.
  - apply (reaches_inv (parseArgs fuel) args). constructor.
Qed.

(** X21 -- In the tree of a successful [Parse], the [Text] of every node
    that has a [Sub] starts with the [Name] of the [Sub] and ends with its
    [Text]: the text of a command is the sub-command as it was typed. *)
Theorem Parse_linked s a : Parse s = Ok a -> allNodes linked a.
Proof.
  unfold Parse. destruct (len s =? 0); [discriminate|].
  apply parseArgs_linked.
Qed.

Lemma Parse_linked_witness :
  allNodes linked (chain ["tool"; "sub1"; "sub2"; "text"]).
Proof.
  apply (Parse_linked "tool sub1 sub2 text"). vm_compute. reflexivity.
Defined.

(** * More on the callers *)

Section ProcessMore.

Variable V : Type.
Variable E : Type.
Variable Getenv : string -> string.

Implicit Types (c : ctxImpl V) (flag : Flag V E) (arg : Argv).
Implicit Types (flags : list (Flag V E)).

Lemma processFlag_names arg arg' c flag :
  getPair arg (FName flag) = getPair arg' (FName flag) ->
  processFlag Getenv arg c flag = processFlag Getenv arg' c flag.
Proof. intros H. unfold processFlag. now rewrite H. Qed.

Lemma processFlags_names arg arg' flags : forall c,
  Forall (fun flag => getPair arg (FName flag) = getPair arg' (FName flag)) flags ->
  processFlags Getenv arg c flags = processFlags Getenv arg' c flags.
Proof.
  induction flags as [|flag flags IH]; intros c H; [reflexivity|].
  inversion H as [|? ? Hf Hrest]; subst. simpl.
  rewrite (processFlag_names arg arg' c flag Hf).
  destruct (processFlag Getenv arg' c flag); [now apply IH|reflexivity].
Qed.

(** X22 -- [process] reads of the node the entries under the names of the
    flags and nothing else: two nodes that agree on these entries give the
    same result.  The [Name], [Text] and [Sub] of the node play no part,
    nor does an entry under the alias of a flag: a flag given on the
    command line by its alias does not receive that value. *)
Theorem process_names_only c arg arg' flags :
  Forall (fun flag => getPair arg (FName flag) = getPair arg' (FName flag)) flags ->
  process Getenv c arg flags = process Getenv c arg' flags.
Proof.
  intros H. unfold process. now apply processFlags_names.
Qed.

(** [process] of one flag on a fresh context. *)
Lemma process_one_given arg flag first others value :
  getPair arg (FName flag) = Some (first :: others) ->
  Flag_Parse flag first others = Some (value, None) ->
  exists c', process Getenv zeroCtx arg [flag] = PReturn c' None /\
             pairAt c' (FName flag) = Some value.
Proof.
  intros Hg Hp. unfold process, processFlags, processFlag, setFlag.
  cbn [zeroCtx c_pairs c_flags c_parent]. rewrite Hg, Hp.
  unfold storeParsed, setBoth, setValue. cbn [c_pairs c_flags c_parent].
  eexists. split; [reflexivity|]. unfold pairAt. cbn [c_pairs].
  destruct (decide (FAlias flag = FName flag)) as [->|Hne].
  - apply lookup_insert_eq.
  - rewrite lookup_insert_ne by exact Hne. apply lookup_insert_eq.
Qed.

Lemma process_one_default arg flag d :
  getPair arg (FName flag) = None -> FEnv flag = "" -> FDefault flag = Some d ->
  exists c', process Getenv zeroCtx arg [flag] = PReturn c' None /\
             pairAt c' (FName flag) = Some (Some d).
Proof.
  intros Hg He Hd. unfold process, processFlags, processFlag, setFlag.
  cbn [zeroCtx c_pairs c_flags c_parent]. rewrite Hg, He, Hd.
  unfold setBoth, setValue. cbn [c_pairs c_flags c_parent negb String.eqb].
  eexists. split; [reflexivity|]. unfold pairAt. cbn [c_pairs].
  destruct (decide (FAlias flag = FName flag)) as [->|Hne].
  - apply lookup_insert_eq.
  - rewrite lookup_insert_ne by exact Hne. apply lookup_insert_eq.
Qed.

End ProcessMore.

Lemma process_names_only_witness :
  process noEnv zeroCtx
      (mkArgv "p" None "" (Some {[ "a" := ["xyz"] ]})) [ageFlag] =
    process noEnv zeroCtx (New "q") [ageFlag].
Proof.
  apply (process_names_only nat string noEnv). repeat constructor.
Defined.

(** ** Typed flags on a parsed node *)

(** X23 -- A flag made by [StringListFlag(FlagName(k))] receives the whole
    value sequence that [Parse] has stored under [k], as a [[]string]; a
    flag made by [StringFlag(FlagName(k))] receives its first element
    only. *)
Theorem string_flags_receive Getenv s a k vs :
  Parse s = Ok a -> getPair a k = Some vs ->
  (exists flag c',
     StringListFlag [FlagName k] = Some flag /\
     process Getenv zeroCtx a [flag] = PReturn c' None /\
     pairAt c' k = Some (Some (DStrings vs))) /\
  (exists flag c' first others,
     StringFlag [FlagName k] = Some flag /\ vs = first :: others /\
     process Getenv zeroCtx a [flag] = PReturn c' None /\
     pairAt c' k = Some (Some (DString first))).
Proof.
  intros Hparse Hg.
  assert (Hne : vs <> []).
  { unfold Parse in Hparse. destruct (len s =? 0); [discriminate|].
    apply parseArgs_pairsOk, allNodes_eq in Hparse as [(m & Hm & Hall) _].
    unfold getPair in Hg. rewrite Hm in Hg. exact (Hall _ _ Hg). }
  destruct vs as [|first others]; [contradiction|]. split.
  - eexists. 
    destruct (process_one_given dyn string Getenv a
                (withParser (applyOps zeroFlag [FlagName k])
                   (fun s rem => (Some (DStrings (s :: rem)), None)))
                first others (Some (DStrings (first :: others))) Hg eq_refl)
      as (c' & Hc & Hp).
    exists c'. split; [reflexivity|]. split; [exact Hc|exact Hp].
  - eexists.
    destruct (process_one_given dyn string Getenv a
                (withParser (applyOps zeroFlag [FlagName k])
                   (fun s rem => (Some (DString s), None)))
                first others (Some (DString first)) Hg eq_refl)
      as (c' & Hc & Hp).
    exists c', first, others. split; [reflexivity|]. auto.
Qed.

Lemma string_flags_receive_witness :
  (exists flag c',
     StringListFlag [FlagName "dirs"] = Some flag /\
     process noEnv zeroCtx
       (mkArgv "p" None "" (Some {[ "dirs" := ["drum"; "flag"; "kick"] ]}))
       [flag] = PReturn c' None /\
     pairAt c' "dirs" = Some (Some (DStrings ["drum"; "flag"; "kick"]))) /\
  (exists flag c' first others,
     StringFlag [FlagName "dirs"] = Some flag /\
     ["drum"; "flag"; "kick"] = first :: others /\
     process noEnv zeroCtx
       (mkArgv "p" None "" (Some {[ "dirs" := ["drum"; "flag"; "kick"] ]}))
       [flag] = PReturn c' None /\
     pairAt c' "dirs" = Some (Some (DString first))).
Proof.
  apply (string_flags_receive noEnv "p --dirs=[drum flag kick]");
    vm_compute; reflexivity.
Defined.

(** X24 -- A switch on the command line turns a [BoolFlag] on: for a name
    and a key, [Parse] of the name followed by the key with dashes, then
    [process] with [BoolFlag(FlagName(key))], binds the key to [true];
    without the switch the key is bound to the default [false], and with
    [TBoolFlag] to the default [true]. *)
Theorem switch_sets_BoolFlag Getenv name n k :
  isWord name = true -> isKey k = true ->
  (exists a flag c',
     Parse (name +:+ " " +:+ dashes (S n) +:+ k) = Ok a /\
     BoolFlag [FlagName k] = Some flag /\
     process Getenv zeroCtx a [flag] = PReturn c' None /\
     pairAt c' k = Some (Some (DBool true))) /\
  (exists a flag tflag c' c'',
     Parse name = Ok a /\
     BoolFlag [FlagName k] = Some flag /\
     TBoolFlag [FlagName k] = Some tflag /\
     process Getenv zeroCtx a [flag] = PReturn c' None /\
     pairAt c' k = Some (Some (DBool false)) /\
     process Getenv zeroCtx a [tflag] = PReturn c'' None /\
     pairAt c'' k = Some (Some (DBool true))).
Proof.
  intros Hname Hk. split.
  - assert (Hok : Forall (fun it => itemOk it = true) [Switch n k])
      by (repeat constructor; exact Hk).
    destruct (Split_tokens name [Switch n k] Hname Hok) as [Hne Hsplit].
    assert (Hparse : Parse (name +:+ " " +:+ dashes (S n) +:+ k) =
              Ok (mkArgv name None "" (Some (foldl enter ∅ [Switch n k])))).
    { change (name +:+ " " +:+ dashes (S n) +:+ k)
        with (Join (name :: map token [Switch n k]) " ").
      unfold Parse. rewrite (String_nonempty_len _ Hne), Hsplit.
      apply parseArgs_items; auto. }
    destruct (process_one_given dyn string Getenv
                (mkArgv name None "" (Some (foldl enter ∅ [Switch n k])))
                (withParser (applyOps (Default (Some (DBool false)) zeroFlag)
                               [FlagName k]) boolParser)
                "true" [] (Some (DBool true)))
      as (c' & Hc & Hp).
    { unfold getPair. cbn [Pairs foldl enter itemKey itemValues].
      apply lookup_insert_eq. }
    { reflexivity. }
    exists (mkArgv name None "" (Some (foldl enter ∅ [Switch n k]))).
    eexists. exists c'. split; [exact Hparse|]. split; [reflexivity|].
    split; [exact Hc|exact Hp].
  - assert (Hparse : Parse name = Ok (withName startArgv name)).
    { unfold Parse.
      pose proof Hname as Hw. apply isWord_spec in Hw as (Hp & _).
      apply isPlain_spec in Hp as (Hne & _ & Hs & _).
      rewrite (String_nonempty_len _ Hne), (Split_plain _ _ Hs).
      apply (parseArgs_words 2 [name]); [repeat constructor; exact Hname|].
      simpl. lia. }
    destruct (process_one_default dyn string Getenv (withName startArgv name)
                (withParser (applyOps (Default (Some (DBool false)) zeroFlag)
                               [FlagName k]) boolParser)
                (DBool false) eq_refl eq_refl eq_refl) as (c' & Hc & Hp).
    destruct (process_one_default dyn string Getenv (withName startArgv name)
                (withParser (applyOps (Default (Some (DBool true)) zeroFlag)
                               [FlagName k]) boolParser)
                (DBool true) eq_refl eq_refl eq_refl) as (c'' & Hc' & Hp').
    exists (withName startArgv name). eexists. eexists. exists c', c''.
    split; [exact Hparse|]. split; [reflexivity|]. split; [reflexivity|].
    auto.
Qed.

Lemma switch_sets_BoolFlag_witness :
  exists a flag c',
    Parse ("p" +:+ " " +:+ dashes 1 +:+ "v") = Ok a /\
    BoolFlag [FlagName "v"] = Some flag /\
    process noEnv zeroCtx a [flag] = PReturn c' None /\
    pairAt c' "v" = Some (Some (DBool true)).
Proof.
  apply (proj1 (switch_sets_BoolFlag noEnv "p" 0 "v" eq_refl eq_refl)).
Defined.

(** ** A list over several tokens, from the input string *)

Lemma isWord_no_space e : isWord e = true -> inCutset " " e = false.
Proof.
  intros H. apply isWord_spec in H as (H & _).
  now apply isPlain_spec in H as (_ & _ & H & _).
Qed.

(** X25 -- A command line of a name and one flag whose bracketed list runs
    over several tokens parses to a leaf: for words, the input
    [name --key=[first mid ... last]] gives the node named [name], with no
    [Sub], an empty [Text] and the one entry [key] bound to the words in
    their order.  The words of the list are consumed by the flag; none of
    them becomes a subcommand. *)
Theorem Parse_list_over_tokens name n key first mids last :
  isWord name = true -> isKey key = true ->
  isWord first = true -> Forall (fun e => isWord e = true) mids ->
  isWord last = true ->
  Parse (Join (name :: (dashes (S n) +:+ key +:+ String "=" (String "[" first))
                 :: mids ++ [last +:+ "]"]) " ") =
    Ok (mkArgv name None "" (Some {[ key := first :: mids ++ [last] ]})).
Proof.
  intros Hname Hkey Hfirst Hmids Hlast.
  set (tok := dashes (S n) +:+ key +:+ String "=" (String "[" first)).
  set (args := name :: tok :: mids ++ [last +:+ "]"]).
  pose proof (isKey_spec _ Hkey) as (Hkp & Hkeq & Hkd).
  pose proof (isPlain_spec _ Hkp) as (Hkne & Hkt & Hks & _ & _).
  pose proof (isWord_spec _ Hfirst) as (Hfp & _ & _ & _).
  pose proof (isPlain_spec _ Hfp) as (Hfne & _ & Hfs & Hfpre & Hfsuf).
  assert (Htoks : Forall (fun e => inCutset " " e = false) args).
  { unfold args. constructor; [now apply isWord_no_space|]. constructor.
    - unfold tok. rewrite !inCutset_append.
      rewrite (inCutset_dashes " " (S n) eq_refl), Hks. simpl. exact Hfs.
    - apply Forall_app. split.
      + eapply Forall_impl; [exact Hmids|]. intros e. apply isWord_no_space.
      + repeat constructor. rewrite inCutset_append.
        now rewrite (isWord_no_space _ Hlast). }
  assert (Hne : Join args " " <> "").
  { unfold args. rewrite Join_cons.
    pose proof (isWord_spec _ Hname) as (Hp & _).
    apply isPlain_spec in Hp as (Hn & _). destruct name; [contradiction|].
    discriminate. }
  unfold Parse. fold args. rewrite (String_nonempty_len _ Hne).
  rewrite (Split_Join args); [|discriminate|exact Htoks].
  assert (Hlen : length args = S (S (S (length mids)))).
  { unfold args. simpl. rewrite length_app. simpl. lia. }
  rewrite parseArgs_S, Hlen.
  (* the name *)
  rewrite loop_S, Hlen. cbn [Nat.leb].
  assert (H0 : args !! 0 = Some name) by reflexivity.
  pose proof (isWord_spec _ Hname) as (Hnp & Hnd & _ & _).
  rewrite (body_name _ _ _ _ _ H0).
  2:{ now apply isWord_not_ignored. }
  2:{ now apply isWord_not_flag. }
  change (negb (lenPairs startArgv =? 0)) with false. cbv iota.
  (* the flag *)
  rewrite loop_S, Hlen. cbn [Nat.leb].
  assert (H1 : args !! 1 = Some tok) by reflexivity.
  assert (Hd' : HasPrefix (key +:+ String "=" (String "[" first)) "-" = false)
    by now rewrite HasPrefix_app_nonempty.
  assert (Hne' : key +:+ String "=" (String "[" first) <> "")
    by (intros E; now apply append_empty in E as [? _]).
  assert (Hopt : flagOpt tok = key +:+ String "=" (String "[" first))
    by now apply flagOpt_dashes_word.
  assert (Hflag : isFlag tok = true) by now apply isFlag_dashes_word.
  assert (Hidx : Index (flagOpt tok) "=" = Some (len key)).
  { rewrite Hopt. now apply Index_append. }
  rewrite (body_flag_eq _ _ _ _ _ _ H1 _ Hflag Hidx). cbv zeta.
  rewrite Hopt, upto_append, from_append_cons, Hkt.
  assert (Hval : TrimSpace (String "[" first) = String "[" first).
  { apply TrimSpace_fix.
    - now apply noSpacePrefix_head.
    - apply (noSpaceSuffix_app "" "[" first Hfsuf Hfne). reflexivity. }
  rewrite Hval.
  assert (Hvs : optWord first ++ mids ++ optWord last = first :: mids ++ [last]).
  { unfold optWord. apply String.eqb_neq in Hfne. rewrite Hfne.
    pose proof (isWord_spec _ Hlast) as (Hlp & _).
    apply isPlain_spec in Hlp as (Hlne & _).
    apply String.eqb_neq in Hlne. now rewrite Hlne. }
  pose proof (flagValues_list [name] tok first mids last []
                (or_intror Hfirst) Hmids (or_intror Hlast)) as Hfv.
  rewrite Hvs in Hfv. specialize (Hfv ltac:(discriminate)).
  change ([name] ++ tok :: mids ++ [last +:+ "]"]) with args in Hfv.
  change (length [name]) with 1 in Hfv. rewrite Hfv.
  apply String.eqb_neq in Hkne. rewrite Hkne.
  cbn [length Nat.eqb]. unfold setPair.
  change (Pairs (withName startArgv name))
    with (Some (∅ : gmap string (list string))). cbv iota beta.
  (* the end of the arguments *)
  rewrite loop_S, Hlen.
  rewrite (proj2 (Nat.leb_le _ _)) by (simpl; lia). reflexivity.
Qed.

Lemma Parse_list_over_tokens_witness :
  Parse (Join ("p" :: (dashes 2 +:+ "dirs" +:+ String "=" (String "[" "drum"))
                 :: ["flag"] ++ ["kick" +:+ "]"]) " ") =
    Ok (mkArgv "p" None "" (Some {[ "dirs" := "drum" :: ["flag"] ++ ["kick"] ]})).
Proof.
  apply (Parse_list_over_tokens "p" 1 "dirs" "drum" ["flag"] "kick");
    try reflexivity.
  repeat constructor.
Defined.

(** ** Errors of the flags *)

Section ProcessErrors.

Variable V : Type.
Variable E : Type.
Variable Getenv : string -> string.

Implicit Types (c : ctxImpl V) (flag : Flag V E) (arg : Argv).
Implicit Types (flags : list (Flag V E)).

Lemma processFlag_error arg c flag c' err :
  processFlag Getenv arg c flag = inr (PReturn c' (Some err)) ->
  exists fs m rest value,
    c_flags c = Some fs /\
    c' = mkCtx (Some ({[FAlias flag]} ∪ ({[FName flag]} ∪ fs)))
           (c_pairs c) (c_parent c) /\
    parsedFrom Getenv arg flag m rest /\
    Flag_Parse flag m rest = Some (value, Some err).
Proof.
  unfold processFlag, setFlag, parsedFrom. destruct (c_flags c) as [fs|]; [|discriminate].
  cbn [c_flags c_pairs c_parent].
  destruct (getPair arg (FName flag)) as [[|first others]|] eqn:Hg.
  - discriminate.
  - unfold storeParsed.
    destruct (Flag_Parse flag first others) as [[value [e0|]]|] eqn:Hp;
      [|destruct (setBoth _ _ _); discriminate|discriminate].
    intros [= <- <-]. exists fs, first, others, value. auto.
  - destruct (String.eqb (FEnv flag) "") eqn:He; cbn [negb].
    + destruct (FDefault flag); [destruct (setBoth _ _ _)|]; discriminate.
    + apply String.eqb_neq in He. unfold storeParsed.
      destruct (Flag_Parse flag (Getenv (FEnv flag)) []) as [[value [e0|]]|] eqn:Hp;
        [|destruct (setBoth _ _ _); discriminate|discriminate].
      intros [= <- <-]. exists fs, (Getenv (FEnv flag)), [], value.
      repeat split; auto.
Qed.

Lemma processFlags_error arg flags : forall c c' err,
  processFlags Getenv arg c flags = PReturn c' (Some err) ->
  exists pre flag post c1 fs m rest value,
    flags = pre ++ flag :: post /\
    processFlags Getenv arg c pre = PReturn c1 None /\
    c_flags c1 = Some fs /\
    c' = mkCtx (Some ({[FAlias flag]} ∪ ({[FName flag]} ∪ fs)))
           (c_pairs c1) (c_parent c1) /\
    parsedFrom Getenv arg flag m rest /\
    Flag_Parse flag m rest = Some (value, Some err).
Proof.
  induction flags as [|flag flags IH]; intros c c' err H; [discriminate|].
  simpl in H. destruct (processFlag Getenv arg c flag) as [c2|r] eqn:Hf.
  - destruct (IH _ _ _ H)
      as (pre & g & post & c1 & fs & m & rest & value & -> & Hpre & Hrest).
    exists (flag :: pre), g, post, c1, fs, m, rest, value.
    split; [reflexivity|]. split; [|exact Hrest]. simpl. now rewrite Hf.
  - subst r. apply processFlag_error in Hf
      as (fs & m & rest & value & Hfs & Hc & Hsrc & Hp).
    exists [], flag, flags, c, fs, m, rest, value. repeat split; auto.
Qed.

(** X26 -- [process] returns an error only from the parsing of a flag: when
    it returns an error, the flags before some flag of the list have been
    processed without error, that flag has been registered under its name
    and alias and bound to nothing, its [Parse] -- on the entry of the node
    or, without one, on the value of its environment variable -- has given
    the error, and the flags after it have not been looked at.  A default
    is never parsed and gives no error. *)
Theorem process_error c arg flags c' err :
  process Getenv c arg flags = PReturn c' (Some err) ->
  exists pre flag post c1 fs m rest value,
    flags = pre ++ flag :: post /\
    process Getenv c arg pre = PReturn c1 None /\
    c_flags c1 = Some fs /\
    c' = mkCtx (Some ({[FAlias flag]} ∪ ({[FName flag]} ∪ fs)))
           (c_pairs c1) (c_parent c1) /\
    parsedFrom Getenv arg flag m rest /\
    Flag_Parse flag m rest = Some (value, Some err).
Proof. unfold process. apply processFlags_error. Qed.

End ProcessErrors.

Lemma process_error_witness :
  exists pre flag post c1 fs m rest value,
    [withParser (FlagName "v" zeroFlag) boolParser] = pre ++ flag :: post /\
    process noEnv zeroCtx (mkArgv "p" None "" (Some {[ "v" := ["maybe"] ]})) pre
      = PReturn c1 None /\
    c_flags c1 = Some fs /\
    mkCtx (Some ({[""]} ∪ ({["v"]} ∪ ∅))) (Some ∅) None =
      mkCtx (Some ({[FAlias flag]} ∪ ({[FName flag]} ∪ fs)))
        (c_pairs c1) (c_parent c1) /\
    parsedFrom noEnv (mkArgv "p" None "" (Some {[ "v" := ["maybe"] ]}))
      flag m rest /\
    Flag_Parse flag m rest = Some (value, Some "not a bool").
Proof.
  apply (process_error dyn string noEnv zeroCtx
           (mkArgv "p" None "" (Some {[ "v" := ["maybe"] ]}))
           [withParser (FlagName "v" zeroFlag) boolParser]).
  vm_compute. reflexivity.
Defined.

(** ** The accessors on what the typed flags have bound *)

Lemma BoolFlag_fields ops flag :
  BoolFlag ops = Some flag ->
  FParser flag = Some boolParser /\
  (FDefault flag = None \/ exists b, FDefault flag = Some (DBool b)).
Proof.
  unfold BoolFlag.
  set (impl := applyOps (Default (Some (DBool false)) zeroFlag) ops).
  destruct (FDefault impl) as [[str|l|b|]|] eqn:Hd; try discriminate;
    intros [= <-]; (split; [reflexivity|]); cbn [withParser FDefault];
    rewrite Hd; eauto.
Qed.

Lemma StringFlag_fields ops flag :
  StringFlag ops = Some flag ->
  FParser flag = Some (fun s _ => (Some (DString s), None)).
Proof.
  unfold StringFlag. set (impl := applyOps zeroFlag ops).
  destruct (FDefault impl) as [[str|l|b|]|]; try discriminate;
    intros [= <-]; reflexivity.
Qed.

Lemma boolParser_value (flag : Flag dyn string) m rest value :
  FParser flag = Some boolParser -> FMorph flag = None ->
  Flag_Parse flag m rest = Some (value, None) ->
  exists b, value = Some (DBool b).
Proof.
  intros Hp Hm. unfold Flag_Parse. rewrite Hp, Hm. unfold boolParser.
  destruct (FValidation flag) as [validation|];
    [destruct (validation m rest); [discriminate|]|];
    destruct (ParseBool m); intros [= <-]; eauto.
Qed.

Lemma Get_here {V} (c : ctxImpl V) k item :
  pairAt c k = Some item -> Get c k = (item, true).
Proof. intros H. destruct c as [fs ps parent]. simpl. now rewrite H. Qed.

Lemma pairAt_after_flag {V E} Getenv arg (c c2 c' : ctxImpl V)
    (flag : Flag V E) (post : list (Flag V E)) :
  processFlag Getenv arg c flag = inl c2 ->
  processFlags Getenv arg c2 post = PReturn c' None ->
  Forall (fun g => FName g <> FName flag /\ FAlias g <> FName flag) post ->
  getPair arg (FName flag) <> None \/ FEnv flag <> "" \/ FDefault flag <> None ->
  exists value,
    chosen Getenv arg flag value /\ pairAt c' (FName flag) = Some value.
Proof.
  intros Hf H Hpost Hsrc.
  rewrite (processFlags_other _ _ _ _ _ _ _ _ _ H Hpost).
  apply processFlag_inl in Hf as (_ & _ & Hf).
  destruct Hf as [(_ & Hg & He & Hd)|(m & value & _ & Hp & Hch)].
  - destruct Hsrc as [?|[?|?]]; contradiction.
  - exists value. split; [exact Hch|]. unfold pairAt. rewrite Hp.
    destruct (decide (FAlias flag = FName flag)) as [->|Hne].
    + apply lookup_insert_eq.
    + rewrite lookup_insert_ne by exact Hne. apply lookup_insert_eq.
Qed.

(** X27 -- The type assertion of [Bool] is safe on a flag made by
    [BoolFlag]: when [process] returns a nil error, a flag of the list
    that [BoolFlag] has made, that has a default and no [Morph], is bound
    under its name to a [bool], so that [Bool] returns it and does not
    panic -- provided no later flag has this name as its name or alias.
    This rests on the check of the default that [BoolFlag] makes. *)
Theorem Bool_of_BoolFlag Getenv c arg pre ops flag post c' :
  BoolFlag ops = Some flag -> FMorph flag = None -> FDefault flag <> None ->
  process Getenv c arg (pre ++ flag :: post) = PReturn c' None ->
  Forall (fun g => FName g <> FName flag /\ FAlias g <> FName flag) post ->
  exists b, pairAt c' (FName flag) = Some (Some (DBool b)) /\
            ctxImpl_Bool c' (FName flag) = Some b.
Proof.
  intros Hmk Hm Hd H Hpost.
  apply BoolFlag_fields in Hmk as [Hp Hdef].
  unfold process in H. apply processFlags_app in H as (c1 & _ & H).
  simpl in H. destruct (processFlag Getenv arg c1 flag) as [c2|r] eqn:Hf;
    [|subst r; now apply processFlag_inr in Hf].
  destruct (pairAt_after_flag _ _ _ _ _ _ _ Hf H Hpost) as (value & Hch & Hv);
    [auto|].
  assert (Hb : exists b, value = Some (DBool b)).
  { unfold chosen in Hch.
    destruct (getPair arg (FName flag)) as [[|first others]|];
      [contradiction|now apply (boolParser_value flag first others)|].
    destruct (negb (String.eqb (FEnv flag) ""));
      [now apply (boolParser_value flag (Getenv (FEnv flag)) [])|].
    destruct Hch as (d & Hd' & ->).
    destruct Hdef as [Hn|[b Hb]]; [congruence|].
    exists b. congruence. }
  destruct Hb as [b ->]. exists b. split; [exact Hv|].
  unfold ctxImpl_Bool. now rewrite (Get_here _ _ _ Hv).
Qed.

Lemma Bool_of_BoolFlag_witness :
  exists b,
    pairAt (mkCtx (Some ({[""]} ∪ ({["v"]} ∪ ∅)))
              (Some (<["" := Some (DBool true)]>
                       (<["v" := Some (DBool true)]> ∅))) None) "v"
      = Some (Some (DBool b)) /\
    ctxImpl_Bool (mkCtx (Some ({[""]} ∪ ({["v"]} ∪ ∅)))
              (Some (<["" := Some (DBool true)]>
                       (<["v" := Some (DBool true)]> ∅))) None) "v" = Some b.
Proof.
  refine (Bool_of_BoolFlag noEnv zeroCtx
            (mkArgv "p" None "" (Some {[ "v" := ["true"] ]})) []
            [FlagName "v"]
            (withParser (FlagName "v" (Default (Some (DBool false)) zeroFlag))
               boolParser)
            [] _ eq_refl eq_refl _ _ _).
  - discriminate.
  - vm_compute. reflexivity.
  - constructor.
Defined.

(** X28 -- [Bool] panics on a key that a [StringFlag] has bound from the
    command line: when [process], with a flag made by [StringFlag] without
    a [Morph], returns a nil error on a node that has the flag, the flag is
    bound under its name to the first element of the entry, as a [string];
    [String] returns it and the type assertion of [Bool] fails. *)
Theorem Bool_of_StringFlag_panics Getenv c arg pre ops flag post c' first others :
  StringFlag ops = Some flag -> FMorph flag = None ->
  getPair arg (FName flag) = Some (first :: others) ->
  process Getenv c arg (pre ++ flag :: post) = PReturn c' None ->
  Forall (fun g => FName g <> FName flag /\ FAlias g <> FName flag) post ->
  ctxImpl_String c' (FName flag) = Some first /\
  ctxImpl_Bool c' (FName flag) = None.
Proof.
  intros Hmk Hm Hg H Hpost.
  apply StringFlag_fields in Hmk.
  unfold process in H. apply processFlags_app in H as (c1 & _ & H).
  simpl in H. destruct (processFlag Getenv arg c1 flag) as [c2|r] eqn:Hf;
    [|subst r; now apply processFlag_inr in Hf].
  destruct (pairAt_after_flag _ _ _ _ _ _ _ Hf H Hpost) as (value & Hch & Hv).
  { left. now rewrite Hg. }
  unfold chosen in Hch. rewrite Hg in Hch.
  unfold Flag_Parse in Hch. rewrite Hmk, Hm in Hch.
  assert (Hval : value = Some (DString first)).
  { destruct (FValidation flag) as [validation|];
      [destruct (validation first others); [discriminate|]|];
      now injection Hch as <-. }
  subst value. unfold ctxImpl_String, ctxImpl_Bool.
  now rewrite (Get_here _ _ _ Hv).
Qed.

Lemma Bool_of_StringFlag_panics_witness :
  ctxImpl_String (mkCtx (Some ({[""]} ∪ ({["v"]} ∪ ∅)))
              (Some (<["" := Some (DString "true")]>
                       (<["v" := Some (DString "true")]> ∅))) None) "v"
    = Some "true" /\
  ctxImpl_Bool (mkCtx (Some ({[""]} ∪ ({["v"]} ∪ ∅)))
              (Some (<["" := Some (DString "true")]>
                       (<["v" := Some (DString "true")]> ∅))) None) "v" = None.
Proof.
  refine (Bool_of_StringFlag_panics noEnv zeroCtx
            (mkArgv "p" None "" (Some {[ "v" := ["true"] ]})) []
            [FlagName "v"]
            (withParser (FlagName "v" zeroFlag)
               (fun s _ => (Some (DString s), None)))
            [] _ "true" [] eq_refl eq_refl _ _ _).
  - vm_compute. reflexivity.
  - vm_compute. reflexivity.
  - constructor.
Defined.

(** ** The alias and the environment variable of a flag *)

(** X29 -- [process] binds the alias of a flag to the value of the flag:
    when it returns a nil error, a flag of the list that has a value on the
    command line, an environment variable or a default is bound under its
    alias to the value chosen for it, and [IsSet] holds of the alias --
    provided no later flag has this alias as its name or alias.  The alias
    of a flag made without [FlagAlias] is the empty string, so that such a
    flag binds the empty key. *)
Theorem process_alias {V E} Getenv (c : ctxImpl V) arg
    (pre : list (Flag V E)) flag post c' :
  process Getenv c arg (pre ++ flag :: post) = PReturn c' None ->
  Forall (fun g => FName g <> FAlias flag /\ FAlias g <> FAlias flag) post ->
  getPair arg (FName flag) <> None \/ FEnv flag <> "" \/ FDefault flag <> None ->
  exists value,
    chosen Getenv arg flag value /\ pairAt c' (FAlias flag) = Some value /\
    IsSet c' (FAlias flag) = true.
Proof.
  unfold process. intros H Hpost Hsrc.
  apply processFlags_app in H as (c1 & _ & H). simpl in H.
  destruct (processFlag Getenv arg c1 flag) as [c2|r] eqn:Hf;
    [|subst r; now apply processFlag_inr in Hf].
  assert (Hk : pairAt c' (FAlias flag) = pairAt c2 (FAlias flag))
    by exact (processFlags_other _ _ _ _ _ _ _ _ _ H Hpost).
  apply processFlag_inl in Hf as (_ & _ & Hf).
  destruct Hf as [(_ & Hg & He & Hd)|(m & value & _ & Hp & Hch)].
  - destruct Hsrc as [?|[?|?]]; contradiction.
  - assert (Hv : pairAt c' (FAlias flag) = Some value).
    { rewrite Hk. unfold pairAt. rewrite Hp. apply lookup_insert_eq. }
    exists value. split; [exact Hch|]. split; [exact Hv|].
    unfold IsSet. now rewrite Hv.
Qed.

Lemma process_alias_witness :
  exists value,
    chosen noEnv (New "p")
      (MakeFlag [FlagName "age"; FlagDesc "the age"; Default (Some (DString "7"))])
      value /\
    pairAt (mkCtx (Some ({[""]} ∪ ({["age"]} ∪ ∅)))
              (Some (<["" := Some (DString "7")]>
                       (<["age" := Some (DString "7")]> ∅))) None)
      (FAlias (MakeFlag [FlagName "age"; FlagDesc "the age";
                         Default (Some (DString "7"))]))
      = Some value /\
    IsSet (mkCtx (Some ({[""]} ∪ ({["age"]} ∪ ∅)))
              (Some (<["" := Some (DString "7")]>
                       (<["age" := Some (DString "7")]> ∅))) None)
      (FAlias (MakeFlag [FlagName "age"; FlagDesc "the age";
                         Default (Some (DString "7"))])) = true.
Proof.
  refine (process_alias noEnv zeroCtx (New "p") []
            (MakeFlag [FlagName "age"; FlagDesc "the age";
                       Default (Some (DString "7"))]) [] _ _ _ _).
  - vm_compute. reflexivity.
  - constructor.
  - right. right. discriminate.
Defined.

(** X30 -- The default of a flag that names an environment variable is
    never used: without the flag on the command line, [process] parses the
    value of the variable, also when the variable is not set and the value
    is empty.  For a flag made by [BoolFlag] with [Env], on a node without
    the flag and with a variable whose value is no bool -- the empty value
    of a variable that is not set is none -- [process] returns the error
    of the parser, and the flag is registered and not bound. *)
Theorem BoolFlag_env_no_default Getenv (c : ctxImpl dyn) arg k e fs :
  e <> "" -> ParseBool (Getenv e) = None -> getPair arg k = None ->
  c_flags c = Some fs -> c_pairs c <> None ->
  exists flag,
    BoolFlag [FlagName k; Env e] = Some flag /\
    FDefault flag = Some (DBool false) /\
    process Getenv c arg [flag] =
      PReturn (mkCtx (Some ({[""]} ∪ ({[k]} ∪ fs))) (c_pairs c) (c_parent c))
        (Some "not a bool").
Proof.
  intros He Hb Hg Hfs Hps. destruct c as [fl [m|] parent];
    cbn [c_flags c_pairs c_parent] in *; [|contradiction].
  subst fl.
  eexists. split; [reflexivity|]. split; [reflexivity|].
  unfold process, processFlags, processFlag, setFlag.
  cbn [c_flags c_pairs c_parent applyOps foldl FlagName Env Default withParser
       zeroFlag FName FAlias FEnv FDefault FMorph FParser FValidation].
  rewrite Hg. apply String.eqb_neq in He. rewrite He. cbn [negb].
  unfold Flag_Parse, storeParsed.
  cbn [FlagName Env Default withParser zeroFlag
       FName FAlias FEnv FDefault FMorph FParser FValidation].
  unfold boolParser. rewrite Hb. reflexivity.
Qed.

Lemma BoolFlag_env_no_default_witness :
  exists flag,
    BoolFlag [FlagName "v"; Env "VERBOSE"] = Some flag /\
    FDefault flag = Some (DBool false) /\
    process noEnv (mkCtx (Some ∅) (Some ∅) None) (New "p") [flag] =
      PReturn (mkCtx (Some ({[""]} ∪ ({["v"]} ∪ ∅)))
                 (c_pairs (mkCtx (Some ∅) (Some ∅) None))
                 (c_parent (mkCtx (V := dyn) (Some ∅) (Some ∅) None)))
        (Some "not a bool").
Proof.
  apply (BoolFlag_env_no_default noEnv (mkCtx (Some ∅) (Some ∅) None)
           (New "p") "v" "VERBOSE" ∅); try reflexivity; discriminate.
Defined.
